(** * imglizza: the image optimizer with Git integration

    A shallow embedding of [optimizar_imagenes.py] (class
    [GitImageOptimizer] and [main]) and the properties of its
    specification.

    The program talks to three outside capabilities: the file system
    ([os], [glob]), the image library (PIL) and the [git] executable
    ([subprocess]).  They are modelled by an environment [Env] that
    decides, call by call, whether an outside call raises and what it
    returns; the methods are written in a state-and-exception monad over
    the optimizer object, the working directory, the files written by the
    run and the log of outside calls and printed lines.

    What the model assumes.  The standard output is a UTF-8 stream: it
    encodes the text of the program, the text of an exception (which
    quotes paths escaped) and what [git] wrote, so [print] of such a line
    returns.  A line that carries a file name as the disk listed it is
    another matter: the name may hold what no encoding takes (a lone
    surrogate for bytes that did not decode), [print] then raises
    [UnicodeEncodeError], and so that [print] is an outside call that can
    raise.  What [Image.thumbnail] leaves of an image is the library's
    business: it is a function of the environment, and the properties
    that speak of sizes assume the library's contract.  The elapsed time is
    not computed; the float formatting of sizes is replaced by the sizes
    in bytes; closing the image at the end of the [with] block has no
    effect; only exceptions that [except Exception] catches are raised.
    A file the run itself has written is taken to exist when the run
    measures it (no other process touches the output tree). *)

From Stdlib Require Import QArith Qround Qabs.
From Stdlib Require Import Ascii String DecimalString.
From stdpp Require Import gmap strings list fin_maps.

Local Open Scope string_scope.
Local Open Scope Z_scope.
Local Open Scope list_scope.

(** ** Paths

    [os.path.join] and [pathlib.Path(...).stem], for the separators of
    the two platforms.  Drive letters and UNC prefixes are not
    interpreted: on Windows the functions below are those of [ntpath] and
    [pathlib] for what is joined without a drive letter ([has_drive]) to
    a folder that is no UNC or device prefix ([is_unc]), which is how the
    program joins the names it lists; the properties that speak of all
    names and folders assume as much. *)

Module Paths.

Inductive Platform := Posix | Windows.

Definition sep (pf : Platform) : ascii :=
  match pf with Posix => "/"%char | Windows => "\"%char end.

Definition is_sep (pf : Platform) (c : ascii) : bool :=
  match pf with
  | Posix => Ascii.eqb c "/"
  | Windows => Ascii.eqb c "\" || Ascii.eqb c "/"
  end.

Definition starts_with_sep (pf : Platform) (s : string) : bool :=
  match s with
  | String c _ => is_sep pf c
  | EmptyString => false
  end.

Fixpoint ends_with_sep (pf : Platform) (s : string) : bool :=
  match s with
  | EmptyString => false
  | String c EmptyString => is_sep pf c
  | String _ s' => ends_with_sep pf s'
  end.

Definition is_empty (s : string) : bool :=
  match s with EmptyString => true | _ => false end.

(** On Windows, a colon in second place makes a drive letter of the
    first character. *)
Definition has_drive (pf : Platform) (s : string) : bool :=
  match pf, s with
  | Windows, String _ (String c _) => Ascii.eqb c ":"
  | _, _ => false
  end.


(** [os.path.join a b]: an absolute [b] discards [a]; otherwise one
    separator is put between them unless [a] is empty or already ends
    with one. *)
Definition os_path_join (pf : Platform) (a b : string) : string :=
  if starts_with_sep pf b then b
  else if is_empty a || ends_with_sep pf a then a +:+ b
  else a +:+ String (sep pf) b.

Definition os_path_join3 (pf : Platform) (a b c : string) : string :=
  os_path_join pf (os_path_join pf a b) c.

Fixpoint no_sep (pf : Platform) (s : string) : bool :=
  match s with
  | EmptyString => true
  | String c s' => negb (is_sep pf c) && no_sep pf s'
  end.

(** A path component counts when it is neither empty nor ["."]. *)
Definition is_component (s : string) : bool :=
  negb (is_empty s) && negb (String.eqb s ".").

Fixpoint name_aux (pf : Platform) (s cur last : string) : string :=
  match s with
  | EmptyString => if is_component cur then cur else last
  | String c s' =>
      if is_sep pf c
      then name_aux pf s' "" (if is_component cur then cur else last)
      else name_aux pf s' (cur +:+ String c "") last
  end.

(** [PurePath.name]: the last component of the path. *)
Definition path_name (pf : Platform) (p : string) : string :=
  name_aux pf p "" "".

Fixpoint rfind_dot (s : string) (i : nat) (found : option nat) : option nat :=
  match s with
  | EmptyString => found
  | String c s' =>
      rfind_dot s' (S i) (if Ascii.eqb c "." then Some i else found)
  end.

(** [PurePath.stem]: the name without its last suffix; a leading or a
    trailing dot starts no suffix. *)
Definition stem_of_name (name : string) : string :=
  match rfind_dot name 0 None with
  | Some i =>
      if (0 <? i)%nat && (i <? String.length name - 1)%nat
      then substring 0 i name
      else name
  | None => name
  end.

Definition path_stem (pf : Platform) (p : string) : string :=
  stem_of_name (path_name pf p).

End Paths.

(** ** Images

    What the program observes of a PIL image: its mode and its size.
    [Image.thumbnail] is not here: the size it computes, in floating
    point, belongs to the library (see [Env]). *)

Module PIL.

Record Image := mkImage { mode : string; width : Z; height : Z }.

Definition size (im : Image) : Z * Z := (width im, height im).

(** [im.convert(m)]: another mode, the same size. *)
Definition convert (im : Image) (m : string) : Image :=
  mkImage m (width im) (height im).

End PIL.

(** ** The optimizer *)

Module Optimizer.
Import Paths PIL.

(** *** Exceptions, outside calls, printed lines *)

Inductive exn :=
| CalledProcessError (argv : list string) (returncode : Z)
| Exception (msg : string).

(** The calls that leave the program.  Each one can raise.  [OpStdout]
    is the writing of a line that carries the file name [name]. *)
Inductive Op :=
| OpExists (path : string)
| OpGlob (pattern : string)
| OpGetsize (path : string)
| OpMakedirs (path : string)
| OpWriteText (path content : string)
| OpRename (src dst : string)
| OpListdir (path : string)
| OpRmdir (path : string)
| OpImageOpen (path : string)
| OpConvert (im : Image) (mode : string)
| OpCopy (im : Image)
| OpThumbnail (im : Image) (box : Z * Z)
| OpSave (im : Image) (path format : string) (quality : Z)
| OpChdir (path : string)
| OpRun (argv : list string)
| OpStdout (name : string).

(** The lines the program prints, one constructor for each [print]
    statement (a run of constant lines is one constructor).  Sizes are
    carried in bytes; the elapsed time is not modelled. *)
Inductive Msg :=
| MsgSetupStart
| MsgSetupDone
| MsgMoving
| MsgMoved (filename : string)
| MsgMoveError (filename : string) (e : exn)
| MsgLegacyRemoved
| MsgOptimizing (filename : string) (original_size : Z)
| MsgSizeDone (size_name : string) (webp_size jpg_size : Z)
| MsgError (e : exn)
| MsgProcessingStart
| MsgNoImages
| MsgFound (n : nat)
| MsgProcessed (success_count total : nat)
| MsgPublishStart
| MsgPushOk
| MsgPushError (stderr : string)
| MsgGitError (e : exn)
| MsgUnexpected (e : exn)
| MsgUrlsInfo
| MsgBanner (repo_path : string)
| MsgCannotProcess
| MsgCompleted
| MsgNotUploaded
| MsgTotalTime
| MsgNoDirectory (repo_path : string)
| MsgNotGitRepo (repo_path : string).

Inductive Event :=
| Call (op : Op) (raised : option exn)
| Print (m : Msg).

(** *** The object and the state around it *)

Record Config := mkConfig { cfg_size : Z * Z; cfg_quality : Z }.

Record GitImageOptimizer := mkOptimizer {
  repo_path : string;
  original_folder : string;
  optimized_folder : string;
  processed_files : list string;
  sizes_config : list (string * Config)
}.

(** A file written by the run. *)
Inductive File :=
| Encoded (format : string) (quality : Z) (im : Image)
| Text (content : string).

Record State := mkState {
  self : GitImageOptimizer;
  cwd : string;
  files : gmap string File;
  log : list Event
}.

(** The outside world.  The [nat] is the moment of the call: the number
    of events logged before it.  [thumbnail im box] is the image that
    [im.thumbnail(box, Image.Resampling.LANCZOS)] leaves in place of
    [im]. *)
Record Env := mkEnv {
  platform : Platform;
  fault : nat -> Op -> option exn;
  path_exists : nat -> string -> bool;
  glob_result : nat -> string -> list string;
  listdir_result : nat -> string -> list string;
  source_size : string -> Z;
  encoded_size : string -> Z -> Image -> Z;
  decoded : string -> Image;
  thumbnail : Image -> Z * Z -> Image;
  returncode : nat -> list string -> Z;
  stderr : nat -> list string -> string
}.

(** *** The monad: state that survives an exception *)

Inductive Result (A : Type) :=
| Ok (a : A)
| Raise (e : exn).
Arguments Ok {A} a.
Arguments Raise {A} e.

Definition M (A : Type) : Type := State -> Result A * State.

Definition ret {A} (a : A) : M A := fun st => (Ok a, st).

Definition bind {A B} (m : M A) (k : A -> M B) : M B :=
  fun st =>
    match m st with
    | (Ok a, st') => k a st'
    | (Raise e, st') => (Raise e, st')
    end.

Definition raise {A} (e : exn) : M A := fun st => (Raise e, st).

(** [try: m except Exception as e: handler e] *)
Definition try_except {A} (m : M A) (handler : exn -> M A) : M A :=
  fun st =>
    match m st with
    | (Ok a, st') => (Ok a, st')
    | (Raise e, st') => handler e st'
    end.

Declare Scope py_scope.
Delimit Scope py_scope with py.
Notation "x <- c ;; k" := (bind c (fun x => k))
  (at level 100, c at next level, right associativity) : py_scope.
Notation "c ;; k" := (bind c (fun _ => k))
  (at level 100, right associativity) : py_scope.
Local Open Scope py_scope.

Definition gets {A} (f : State -> A) : M A := fun st => (Ok (f st), st).

Definition log_event (ev : Event) (st : State) : State :=
  mkState (self st) (cwd st) (files st) (log st ++ [ev]).

Definition print (m : Msg) : M unit :=
  fun st => (Ok tt, log_event (Print m) st).

Fixpoint for_each {A} (l : list A) (body : A -> M unit) : M unit :=
  match l with
  | [] => ret tt
  | x :: l' => body x ;; for_each l' body
  end.

Definition set_self (o : GitImageOptimizer) : M unit :=
  fun st => (Ok tt, mkState o (cwd st) (files st) (log st)).

Definition set_cwd (d : string) : M unit :=
  fun st => (Ok tt, mkState (self st) d (files st) (log st)).

Definition put_file (path : string) (f : File) : M unit :=
  fun st => (Ok tt, mkState (self st) (cwd st) (<[path := f]> (files st)) (log st)).

(** [self.processed_files.extend(paths)] *)
Definition extend_processed_files (paths : list string) : M unit :=
  fun st =>
    let o := self st in
    (Ok tt,
     mkState (mkOptimizer (repo_path o) (original_folder o) (optimized_folder o)
                (processed_files o ++ paths) (sizes_config o))
       (cwd st) (files st) (log st)).

Section WithEnv.
Variable env : Env.

(** An outside call: logged, raising when the environment says so. *)
Definition call (op : Op) : M unit :=
  fun st =>
    match fault env (length (log st)) op with
    | Some e => (Raise e, log_event (Call op (Some e)) st)
    | None => (Ok tt, log_event (Call op None) st)
    end.

(** [print] of a line that carries a file name read from the disk.  When
    the standard output cannot encode the name, [UnicodeEncodeError] is
    raised and the line is not written. *)
Definition print_name (name : string) (m : Msg) : M unit :=
  fun st =>
    match fault env (length (log st)) (OpStdout name) with
    | Some e => (Raise e, log_event (Call (OpStdout name) (Some e)) st)
    | None => (Ok tt, log_event (Print m) st)
    end.

(** A call that answers and does not raise ([os.path.exists],
    [glob.glob]). *)
Definition ask {A} (op : Op) (answer : nat -> A) : M A :=
  fun st => (Ok (answer (length (log st))), log_event (Call op None) st).

Definition os_path_exists (p : string) : M bool :=
  ask (OpExists p) (fun t => path_exists env t p).

Definition glob_glob (pattern : string) : M (list string) :=
  ask (OpGlob pattern) (fun t => glob_result env t pattern).

Definition file_size (f : File) : Z :=
  match f with
  | Encoded format quality im => encoded_size env format quality im
  | Text content => Z.of_nat (String.length content)
  end.

(** [os.path.getsize]: a file the run has written is there; any other
    path is the environment's. *)
Definition os_path_getsize (p : string) : M Z :=
  fun st =>
    match files st !! p with
    | Some f => (Ok (file_size f), log_event (Call (OpGetsize p) None) st)
    | None => (call (OpGetsize p) ;; ret (source_size env p)) st
    end.

Definition os_makedirs (p : string) : M unit := call (OpMakedirs p).

Definition write_text (p content : string) : M unit :=
  call (OpWriteText p content) ;; put_file p (Text content).

Definition os_rename (src dst : string) : M unit := call (OpRename src dst).

Definition os_listdir (p : string) : M (list string) :=
  fun st =>
    (call (OpListdir p) ;; ret (listdir_result env (length (log st)) p)) st.

Definition os_rmdir (p : string) : M unit := call (OpRmdir p).

Definition os_chdir (p : string) : M unit := call (OpChdir p) ;; set_cwd p.

Definition Image_open (p : string) : M Image :=
  call (OpImageOpen p) ;; ret (decoded env p).

Definition Image_convert (im : Image) (m : string) : M Image :=
  call (OpConvert im m) ;; ret (convert im m).

Definition Image_copy (im : Image) : M Image :=
  call (OpCopy im) ;; ret im.

Definition Image_thumbnail (im : Image) (box : Z * Z) : M Image :=
  call (OpThumbnail im box) ;; ret (thumbnail env im box).

(** [im.save(path, format, quality=..., optimize=True)]; a save that
    raises is taken to leave the path as it was. *)
Definition Image_save (im : Image) (path format : string) (quality : Z) : M unit :=
  call (OpSave im path format quality) ;; put_file path (Encoded format quality im).

(** [subprocess.run(argv, check=check)]: the return code, or
    [CalledProcessError] for a non-zero one under [check=True]. *)
Definition subprocess_run (argv : list string) (check : bool) : M Z :=
  fun st =>
    let t := length (log st) in
    match fault env t (OpRun argv) with
    | Some e => (Raise e, log_event (Call (OpRun argv) (Some e)) st)
    | None =>
        let rc := returncode env t argv in
        if check && negb (rc =? 0)
        then (Raise (CalledProcessError argv rc),
              log_event (Call (OpRun argv) (Some (CalledProcessError argv rc))) st)
        else (Ok rc, log_event (Call (OpRun argv) None) st)
    end.

Definition join := os_path_join (platform env).
Definition join3 := os_path_join3 (platform env).

(** *** [GitImageOptimizer] *)

Definition default_sizes_config : list (string * Config) :=
  [ ("thumb", mkConfig (300, 300) 70);
    ("medium", mkConfig (800, 800) 80);
    ("large", mkConfig (1200, 1200) 85) ].

(** [__init__] *)
Definition init (repo : string) : GitImageOptimizer :=
  mkOptimizer repo
    (join3 repo "originales" "Anillos")
    (join3 repo "optimizadas" "Anillos")
    []
    default_sizes_config.

Definition gitignore_content : string :=
"# Imágenes originales (muy pesadas)
originales/
*.png
*.jpg
*.jpeg

# Solo trackear optimizadas
!optimizadas/
optimizadas/**/*.webp
optimizadas/**/*.jpg

# Logs y temporales
*.log
__pycache__/
.DS_Store
Thumbs.db
".

Definition setup_git_structure : M unit :=
  print MsgSetupStart ;;
  o <- gets self ;;
  os_makedirs (original_folder o) ;;
  for_each (map fst (sizes_config o))
    (fun size => os_makedirs (join (optimized_folder o) size)) ;;
  write_text (join (repo_path o) ".gitignore") gitignore_content ;;
  print MsgSetupDone.

(** [os.path.basename]: what follows the last separator. *)
Fixpoint os_path_basename_aux (pf : Platform) (s cur : string) : string :=
  match s with
  | EmptyString => cur
  | String c s' =>
      if is_sep pf c then os_path_basename_aux pf s' ""
      else os_path_basename_aux pf s' (cur +:+ String c "")
  end.

Definition os_path_basename (p : string) : string :=
  os_path_basename_aux (platform env) p "".

Definition move_existing_images : M unit :=
  o <- gets self ;;
  let anillos_path := join (repo_path o) "Anillos" in
  found <- os_path_exists anillos_path ;;
  if found : bool then
    print MsgMoving ;;
    image_files <- glob_glob (join anillos_path "*.png") ;;
    for_each image_files
      (fun image_path =>
         let filename := os_path_basename image_path in
         let destination := join (original_folder o) filename in
         try_except
           (os_rename image_path destination ;;
            print_name filename (MsgMoved filename))
           (fun e => print_name filename (MsgMoveError filename e))) ;;
    try_except
      (entries <- os_listdir anillos_path ;;
       match entries with
       | [] => os_rmdir anillos_path ;; print MsgLegacyRemoved
       | _ => ret tt
       end)
      (fun _ => ret tt)
  else ret tt.

(** [img.mode in ('RGBA', 'LA', 'P')] *)
Definition mode_needs_convert (im : Image) : bool :=
  existsb (String.eqb (mode im)) ["RGBA"; "LA"; "P"].

(** The body of the loop over [self.sizes_config.items()]. *)
Definition optimize_size (filename : string) (img : Image)
    (item : string * Config) : M unit :=
  let '(size_name, config) := item in
  o <- gets self ;;
  img_resized <- Image_copy img ;;
  img_resized <- Image_thumbnail img_resized (cfg_size config) ;;
  let webp_path := join3 (optimized_folder o) size_name (filename +:+ ".webp") in
  Image_save img_resized webp_path "WEBP" (cfg_quality config) ;;
  let jpg_path := join3 (optimized_folder o) size_name (filename +:+ ".jpg") in
  Image_save img_resized jpg_path "JPEG" (cfg_quality config) ;;
  webp_size <- os_path_getsize webp_path ;;
  jpg_size <- os_path_getsize jpg_path ;;
  print (MsgSizeDone size_name webp_size jpg_size) ;;
  extend_processed_files [webp_path; jpg_path].

(** The [try] block of [optimize_image]. *)
Definition optimize_image_try (image_path filename : string) : M bool :=
  img <- Image_open image_path ;;
  img <- (if mode_needs_convert img then Image_convert img "RGB" else ret img) ;;
  o <- gets self ;;
  for_each (sizes_config o) (optimize_size filename img) ;;
  ret true.

Definition optimize_image (image_path : string) : M bool :=
  let filename := path_stem (platform env) image_path in
  original_size <- os_path_getsize image_path ;;
  print_name filename (MsgOptimizing filename original_size) ;;
  try_except
    (optimize_image_try image_path filename)
    (fun e => print (MsgError e) ;; ret false).

(** The loop of [process_all_images], from a given [success_count]. *)
Fixpoint process_loop (image_files : list string) (success_count : nat) : M nat :=
  match image_files with
  | [] => ret success_count
  | image_path :: rest =>
      ok <- optimize_image image_path ;;
      process_loop rest (if ok : bool then S success_count else success_count)
  end.

Definition process_all_images : M bool :=
  print MsgProcessingStart ;;
  o <- gets self ;;
  image_files <- glob_glob (join (original_folder o) "*.png") ;;
  match image_files with
  | [] => print MsgNoImages ;; ret false
  | _ =>
      print (MsgFound (length image_files)) ;;
      success_count <- process_loop image_files 0%nat ;;
      print (MsgProcessed success_count (length image_files)) ;;
      ret (0 <? success_count)%nat
  end.

Definition string_of_nat (n : nat) : string :=
  NilEmpty.string_of_uint (Nat.to_uint n).

Definition commit_message (n : nat) : string :=
  "Optimizar imágenes - " +:+ string_of_nat n +:+ " archivos procesados".

(** The [try] block of [git_commit_and_push]. *)
Definition git_commit_and_push_try : M bool :=
  o <- gets self ;;
  os_chdir (repo_path o) ;;
  subprocess_run ["git"; "add"; "optimizadas/"] true ;;
  subprocess_run ["git"; "add"; ".gitignore"] true ;;
  subprocess_run
    ["git"; "commit"; "-m"; commit_message (length (processed_files o))] true ;;
  t <- gets (fun st => length (log st)) ;;
  rc <- subprocess_run ["git"; "push"] false ;;
  if rc =? 0
  then print MsgPushOk ;; ret true
  else print (MsgPushError (stderr env t ["git"; "push"])) ;; ret false.

Definition git_commit_and_push : M bool :=
  print MsgPublishStart ;;
  try_except git_commit_and_push_try
    (fun e =>
       match e with
       | CalledProcessError _ _ => print (MsgGitError e) ;; ret false
       | Exception _ => print (MsgUnexpected e) ;; ret false
       end).

Definition update_urls_info : M unit := print MsgUrlsInfo.

Definition run_full_optimization : M unit :=
  o <- gets self ;;
  print (MsgBanner (repo_path o)) ;;
  setup_git_structure ;;
  move_existing_images ;;
  processed <- process_all_images ;;
  if processed : bool then
    pushed <- git_commit_and_push ;;
    (if pushed : bool then print MsgCompleted else print MsgNotUploaded) ;;
    update_urls_info ;;
    print MsgTotalTime
  else print MsgCannotProcess.

Definition main_repo_path : string := "C:\Users\Lenovo\Pictures\imglizza".

Definition main : M unit :=
  let repo_path := main_repo_path in
  found <- os_path_exists repo_path ;;
  if found : bool then
    is_repo <- os_path_exists (join repo_path ".git") ;;
    if is_repo : bool then
      set_self (init repo_path) ;;
      run_full_optimization
    else print (MsgNotGitRepo repo_path)
  else print (MsgNoDirectory repo_path).

(** The exit status of the interpreter running [main()]: 0 when [main]
    returns, 1 when an exception escapes it. *)
Definition exit_code (r : Result unit) : Z :=
  match r with
  | Ok _ => 0
  | Raise _ => 1
  end.

End WithEnv.
End Optimizer.

(** ** What a run leaves behind

    Readers of the log and of the state, and the closed form of a run of
    [optimize_image], used to state the properties below. *)

Module Runs.
Import Paths PIL Optimizer.

(** The two encodings of an artifact. *)
Inductive Encoding := WEBP | JPEG.

Definition extension (enc : Encoding) : string :=
  match enc with WEBP => ".webp" | JPEG => ".jpg" end.

Definition format_name (enc : Encoding) : string :=
  match enc with WEBP => "WEBP" | JPEG => "JPEG" end.

(** The path of the artifact of a (stem, profile, encoding) triple under
    an output root. *)
Definition artifact_path (pf : Platform) (root stem profile : string)
    (enc : Encoding) : string :=
  os_path_join3 pf root profile (stem +:+ extension enc).

Definition profile_paths (pf : Platform) (root stem : string)
    (item : string * Config) : list string :=
  [artifact_path pf root stem (fst item) WEBP;
   artifact_path pf root stem (fst item) JPEG].

Definition artifact_paths (pf : Platform) (root stem : string)
    (catalog : list (string * Config)) : list string :=
  flat_map (profile_paths pf root stem) catalog.

(** The directory part [os.path.join] puts before a relative name. *)
Definition dir_prefix (pf : Platform) (root : string) : string :=
  if is_empty root || ends_with_sep pf root then root
  else root +:+ String (sep pf) "".

(** *** Readers of the log *)

(** The paths of the saves that went through, in order. *)
Definition saved_path (ev : Event) : list string :=
  match ev with
  | Call (OpSave _ path _ _) None => [path]
  | _ => []
  end.

Definition saved_paths (evs : list Event) : list string :=
  flat_map saved_path evs.

(** What [git add] has staged, in order: the arguments of the calls
    that went through. *)
Definition staged_path (ev : Event) : list string :=
  match ev with
  | Call (OpRun ("git" :: "add" :: args)) None => args
  | _ => []
  end.

Definition staged_paths (evs : list Event) : list string :=
  flat_map staged_path evs.

(** The messages [git commit -m] was given. *)
Definition commit_message_of (ev : Event) : list string :=
  match ev with
  | Call (OpRun ["git"; "commit"; "-m"; msg]) _ => [msg]
  | _ => []
  end.

Definition commit_messages (evs : list Event) : list string :=
  flat_map commit_message_of evs.

Definition raised (ev : Event) : bool :=
  match ev with
  | Call _ (Some _) => true
  | _ => false
  end.

Definition is_optimizing (ev : Event) : bool :=
  match ev with Print (MsgOptimizing _ _) => true | _ => false end.

Definition is_error (ev : Event) : bool :=
  match ev with Print (MsgError _) => true | _ => false end.

Definition count (f : Event -> bool) (evs : list Event) : nat :=
  length (List.filter f evs).

(** The sources a log shows as generated: every source that is taken up
    prints one [MsgOptimizing] line, and one [MsgError] line when it
    fails. *)
Definition succeeded_sources (evs : list Event) : nat :=
  (count is_optimizing evs - count is_error evs)%nat.

Definition failed_sources (evs : list Event) : nat := count is_error evs.

Definition is_publish_start (ev : Event) : bool :=
  match ev with Print MsgPublishStart => true | _ => false end.

(** [git_commit_and_push] was entered. *)
Definition publish_invoked (evs : list Event) : bool :=
  existsb is_publish_start evs.

Definition is_open_of (path : string) (ev : Event) : bool :=
  match ev with
  | Call (OpImageOpen p) _ => String.eqb p path
  | _ => false
  end.

(** The calls into the image library: decoding, resizing, encoding and
    writing. *)
Definition is_codec_op (op : Op) : bool :=
  match op with
  | OpImageOpen _ | OpConvert _ _ | OpCopy _ | OpThumbnail _ _
  | OpSave _ _ _ _ => true
  | _ => false
  end.

Definition quiet (ev : Event) : bool := negb (raised ev).

(** The calls that no [try] of the program guards: the set-up of the
    folders, the first [os.path.getsize] of [optimize_image], and the
    lines that carry a file name (line 95 is outside the [try], line 80
    is in a handler). *)
Definition unguarded (op : Op) : bool :=
  match op with
  | OpMakedirs _ | OpWriteText _ _ | OpGetsize _ | OpStdout _ => true
  | _ => false
  end.

(** Every call of [evs] into the image library works on [work]: nothing
    is converted, copies and resizes are of [work], and what is saved is
    what [thumbnail] left of a copy of [work]. *)
Definition works_on (env : Env) (work : Image) (evs : list Event) : Prop :=
  forall ev, In ev evs ->
    match ev with
    | Call (OpConvert _ _) _ => False
    | Call (OpCopy im) _ | Call (OpThumbnail im _) _ => im = work
    | Call (OpSave im _ _ _) _ => exists box, im = thumbnail env work box
    | _ => True
    end.

(** *** What the program expects of [Image.thumbnail]

    The behaviour the library documents for the call: the image is shrunk
    in place so that it fits the box, keeping its mode and, within a
    pixel, its aspect; an image that already fits is left alone. *)
Definition shrunk_to_fit (im : Image) (box : Z * Z) (out : Image) : Prop :=
  mode out = mode im /\
  1 <= width out <= Z.min (fst box) (width im) /\
  1 <= height out <= Z.min (snd box) (height im) /\
  (width im <= fst box -> height im <= snd box -> out = im) /\
  (out = im \/
   (height out = snd box /\
    Z.abs (width out * height im - snd box * width im) < height im) \/
   (width out = fst box /\
    Z.abs (height out * width im - fst box * height im) < width im)).

Definition thumbnail_shrinks (env : Env) : Prop :=
  forall im box,
    0 < width im -> 0 < height im -> 0 < fst box -> 0 < snd box ->
    shrunk_to_fit im box (thumbnail env im box).

(** *** The closed form of one profile *)

Inductive SizeStep := AtCopy | AtThumbnail | AtWebp | AtJpeg.

Definition with_processed_files (o : GitImageOptimizer) (l : list string)
    : GitImageOptimizer :=
  mkOptimizer (repo_path o) (original_folder o) (optimized_folder o) l
    (sizes_config o).

Section ClosedForm.
Variable env : Env.
Variable root : string.
Variable filename : string.
Variable img : Image.

Definition webp_of (item : string * Config) : string :=
  artifact_path (platform env) root filename (fst item) WEBP.

Definition jpg_of (item : string * Config) : string :=
  artifact_path (platform env) root filename (fst item) JPEG.

Definition resized (item : string * Config) : Image :=
  thumbnail env img (cfg_size (snd item)).

Definition webp_file (item : string * Config) : File :=
  Encoded "WEBP" (cfg_quality (snd item)) (resized item).

Definition jpg_file (item : string * Config) : File :=
  Encoded "JPEG" (cfg_quality (snd item)) (resized item).

Definition ev_copy (r : option exn) : Event := Call (OpCopy img) r.

Definition ev_thumbnail (item : string * Config) (r : option exn) : Event :=
  Call (OpThumbnail img (cfg_size (snd item))) r.

Definition ev_webp (item : string * Config) (r : option exn) : Event :=
  Call (OpSave (resized item) (webp_of item) "WEBP" (cfg_quality (snd item))) r.

Definition ev_jpg (item : string * Config) (r : option exn) : Event :=
  Call (OpSave (resized item) (jpg_of item) "JPEG" (cfg_quality (snd item))) r.

(** What one turn of the loop logs: all of it, or up to the call that
    raised. *)
Definition size_events (item : string * Config)
    (fail : option (SizeStep * exn)) : list Event :=
  match fail with
  | None =>
      [ev_copy None; ev_thumbnail item None; ev_webp item None; ev_jpg item None;
       Call (OpGetsize (webp_of item)) None;
       Call (OpGetsize (jpg_of item)) None;
       Print (MsgSizeDone (fst item) (file_size env (webp_file item))
                (file_size env (jpg_file item)))]
  | Some (AtCopy, e) => [ev_copy (Some e)]
  | Some (AtThumbnail, e) => [ev_copy None; ev_thumbnail item (Some e)]
  | Some (AtWebp, e) =>
      [ev_copy None; ev_thumbnail item None; ev_webp item (Some e)]
  | Some (AtJpeg, e) =>
      [ev_copy None; ev_thumbnail item None; ev_webp item None;
       ev_jpg item (Some e)]
  end.

Definition size_files (item : string * Config)
    (fail : option (SizeStep * exn)) (m : gmap string File) : gmap string File :=
  match fail with
  | None => <[jpg_of item := jpg_file item]> (<[webp_of item := webp_file item]> m)
  | Some (AtJpeg, _) => <[webp_of item := webp_file item]> m
  | Some _ => m
  end.

Definition size_self (item : string * Config)
    (fail : option (SizeStep * exn)) (o : GitImageOptimizer) : GitImageOptimizer :=
  match fail with
  | None => with_processed_files o (processed_files o ++ [webp_of item; jpg_of item])
  | Some _ => o
  end.

(** The state after one turn of the loop. *)
Definition after_size (item : string * Config)
    (fail : option (SizeStep * exn)) (st : State) : State :=
  mkState (size_self item fail (self st)) (cwd st)
    (size_files item fail (files st))
    (log st ++ size_events item fail).

(** The state after the turns of [items], none failing. *)
Definition after_sizes (items : list (string * Config)) (st : State) : State :=
  fold_left (fun s item => after_size item None s) items st.

Definition size_result (fail : option (SizeStep * exn)) : Result unit :=
  match fail with
  | None => Ok tt
  | Some (_, e) => Raise e
  end.

End ClosedForm.

(** *** The closed form of [optimize_image] *)

(** How the [try] block ended. *)
Inductive TryOutcome :=
| FailOpen (e : exn)
| FailConvert (e : exn)
| FailSize (done : list (string * Config)) (item : string * Config)
    (rest : list (string * Config)) (step : SizeStep) (e : exn)
| Completed.

Definition add_log (evs : list Event) (st : State) : State :=
  mkState (self st) (cwd st) (files st) (log st ++ evs).

Section ClosedFormImage.
Variable env : Env.
Variable image_path : string.

Definition stem : string := path_stem (platform env) image_path.

Definition img0 : Image := decoded env image_path.

(** The image the loop works on. *)
Definition working_image : Image :=
  if mode_needs_convert img0 then convert img0 "RGB" else img0.

Definition convert_events (r : option exn) : list Event :=
  if mode_needs_convert img0 then [Call (OpConvert img0 "RGB") r] else [].

Definition after_try (out : TryOutcome) (st : State) : State :=
  let root := optimized_folder (self st) in
  match out with
  | FailOpen e => add_log [Call (OpImageOpen image_path) (Some e)] st
  | FailConvert e =>
      add_log [Call (OpImageOpen image_path) None;
               Call (OpConvert img0 "RGB") (Some e)] st
  | FailSize done item _ step e =>
      after_size env root stem working_image item (Some (step, e))
        (after_sizes env root stem working_image done
           (add_log (Call (OpImageOpen image_path) None :: convert_events None) st))
  | Completed =>
      after_sizes env root stem working_image (sizes_config (self st))
        (add_log (Call (OpImageOpen image_path) None :: convert_events None) st)
  end.

Definition try_result (out : TryOutcome) : Result bool :=
  match out with
  | FailOpen e | FailConvert e | FailSize _ _ _ _ e => Raise e
  | Completed => Ok true
  end.

(** An outcome that can occur with a catalog. *)
Definition try_possible (out : TryOutcome) (catalog : list (string * Config))
    : Prop :=
  match out with
  | FailConvert _ => mode_needs_convert img0 = true
  | FailSize done item rest _ _ => catalog = done ++ item :: rest
  | _ => True
  end.

(** How [optimize_image] ended: the first [os.path.getsize] raised, the
    [try] block ran, or the line that names the source raised. *)
Inductive Outcome :=
| StatRaised (e : exn)
| Tried (original_size : Z) (out : TryOutcome)
| NameRaised (original_size : Z) (e : exn).

Definition after_optimize (out : Outcome) (st : State) : State :=
  match out with
  | StatRaised e => add_log [Call (OpGetsize image_path) (Some e)] st
  | NameRaised _ e =>
      add_log [Call (OpGetsize image_path) None; Call (OpStdout stem) (Some e)] st
  | Tried sz t =>
      let st1 :=
        after_try t
          (add_log [Call (OpGetsize image_path) None;
                    Print (MsgOptimizing stem sz)] st) in
      match try_result t with
      | Raise e => add_log [Print (MsgError e)] st1
      | Ok _ => st1
      end
  end.

Definition optimize_result (out : Outcome) : Result bool :=
  match out with
  | StatRaised e | NameRaised _ e => Raise e
  | Tried _ t =>
      match try_result t with
      | Raise _ => Ok false
      | Ok b => Ok b
      end
  end.

Definition possible (out : Outcome) (catalog : list (string * Config)) : Prop :=
  match out with
  | StatRaised _ | NameRaised _ _ => True
  | Tried _ t => try_possible t catalog
  end.

(** What the environment did, at the moments of the calls, for a run
    from a log of [t] events to end as [out]. *)
Definition try_caused (t : nat) (out : TryOutcome) : Prop :=
  let opened := fault env (t + 2) (OpImageOpen image_path) in
  let converted := fault env (t + 3) (OpConvert img0 "RGB") in
  match out with
  | FailOpen e => opened = Some e
  | FailConvert e => opened = None /\ converted = Some e
  | FailSize _ _ _ _ _ | Completed =>
      opened = None /\ (mode_needs_convert img0 = true -> converted = None)
  end.

Definition caused (t : nat) (out : Outcome) : Prop :=
  match out with
  | StatRaised e => fault env t (OpGetsize image_path) = Some e
  | NameRaised _ e => fault env (t + 1) (OpStdout stem) = Some e
  | Tried _ out' => fault env (t + 1) (OpStdout stem) = None /\ try_caused t out'
  end.

(** The events of a run of [optimize_image], for an output root and a
    catalog. *)
Definition sizes_events (root : string) (items : list (string * Config))
    : list Event :=
  flat_map (fun item => size_events env root stem working_image item None) items.

Definition try_events (root : string) (catalog : list (string * Config))
    (out : TryOutcome) : list Event :=
  match out with
  | FailOpen e => [Call (OpImageOpen image_path) (Some e)]
  | FailConvert e =>
      [Call (OpImageOpen image_path) None; Call (OpConvert img0 "RGB") (Some e)]
  | FailSize done item _ step e =>
      Call (OpImageOpen image_path) None :: convert_events None
      ++ sizes_events root done
      ++ size_events env root stem working_image item (Some (step, e))
  | Completed =>
      Call (OpImageOpen image_path) None :: convert_events None
      ++ sizes_events root catalog
  end.

Definition optimize_events (root : string) (catalog : list (string * Config))
    (out : Outcome) : list Event :=
  match out with
  | StatRaised e => [Call (OpGetsize image_path) (Some e)]
  | NameRaised _ e =>
      [Call (OpGetsize image_path) None; Call (OpStdout stem) (Some e)]
  | Tried sz t =>
      [Call (OpGetsize image_path) None; Print (MsgOptimizing stem sz)]
      ++ try_events root catalog t
      ++ match try_result t with
         | Raise e => [Print (MsgError e)]
         | Ok _ => []
         end
  end.

(** The profiles whose two artifacts were written and recorded. *)
Definition completed (catalog : list (string * Config)) (out : Outcome)
    : list (string * Config) :=
  match out with
  | Tried _ Completed => catalog
  | Tried _ (FailSize done _ _ _ _) => done
  | _ => []
  end.

(** The artifact written without being recorded: the WebP of the profile
    whose JPEG failed. *)
Definition unrecorded (root : string) (out : Outcome) : list string :=
  match out with
  | Tried _ (FailSize _ item _ AtJpeg _) =>
      [artifact_path (platform env) root stem (fst item) WEBP]
  | _ => []
  end.

End ClosedFormImage.

(** The events that tell nothing about sources or publication. *)
Definition background (ev : Event) : bool :=
  match ev with
  | Print (MsgOptimizing _ _) | Print (MsgError _) | Print MsgPublishStart => false
  | _ => true
  end.

(** [m] only appends events that satisfy [P] to the log. *)
Definition emits (P : Event -> bool) {A} (m : M A) : Prop :=
  forall st, exists delta,
    log (snd (m st)) = log st ++ delta /\ forallb P delta = true.

(** Every event [m] appends to the log is one [Q] accepts at its time;
    the time of an event is the length of the log when it is made. *)
Definition traced (Q : nat -> Event -> Prop) {A} (m : M A) : Prop :=
  forall st, exists delta,
    log (snd (m st)) = log st ++ delta /\
    forall i ev, delta !! i = Some ev -> Q (length (log st) + i)%nat ev.

(** A call into the image library raises what the environment has it
    raise at that time, and goes through when it has it raise nothing. *)
Definition as_the_library_says (env : Env) (t : nat) (ev : Event) : Prop :=
  match ev with
  | Call op r => is_codec_op op = true -> r = fault env t op
  | Print _ => True
  end.

(** [m] returns: no exception escapes it. *)
Definition returns {A} (m : M A) : Prop :=
  forall st, exists a, fst (m st) = Ok a.

Definition is_chdir (ev : Event) : bool :=
  match ev with Call (OpChdir _) _ => true | _ => false end.

(** *** The closed form of [git_commit_and_push] *)

Inductive PublishStep := AtChdir | AtAddOutput | AtAddIgnore | AtCommit | AtPush.

(** How the publication ended: a step raised, the push came back with a
    non-zero code, or the push went through. *)
Inductive PublishOutcome :=
| PublishRaised (step : PublishStep) (e : exn)
| PushRejected (err : string)
| Pushed.

Definition handler_line (e : exn) : Event :=
  match e with
  | CalledProcessError _ _ => Print (MsgGitError e)
  | Exception _ => Print (MsgUnexpected e)
  end.

Definition publish_events (o : GitImageOptimizer) (out : PublishOutcome)
    : list Event :=
  let chdir := Call (OpChdir (repo_path o)) in
  let add_output := Call (OpRun ["git"; "add"; "optimizadas/"]) in
  let add_ignore := Call (OpRun ["git"; "add"; ".gitignore"]) in
  let commit :=
    Call (OpRun ["git"; "commit"; "-m";
                 commit_message (length (processed_files o))]) in
  let push := Call (OpRun ["git"; "push"]) in
  Print MsgPublishStart ::
  match out with
  | PublishRaised AtChdir e => [chdir (Some e); handler_line e]
  | PublishRaised AtAddOutput e =>
      [chdir None; add_output (Some e); handler_line e]
  | PublishRaised AtAddIgnore e =>
      [chdir None; add_output None; add_ignore (Some e); handler_line e]
  | PublishRaised AtCommit e =>
      [chdir None; add_output None; add_ignore None; commit (Some e);
       handler_line e]
  | PublishRaised AtPush e =>
      [chdir None; add_output None; add_ignore None; commit None;
       push (Some e); handler_line e]
  | PushRejected err =>
      [chdir None; add_output None; add_ignore None; commit None; push None;
       Print (MsgPushError err)]
  | Pushed =>
      [chdir None; add_output None; add_ignore None; commit None; push None;
       Print MsgPushOk]
  end.

Definition after_publish (out : PublishOutcome) (st : State) : State :=
  mkState (self st)
    (match out with
     | PublishRaised AtChdir _ => cwd st
     | _ => repo_path (self st)
     end)
    (files st)
    (log st ++ publish_events (self st) out).

Definition publish_result (out : PublishOutcome) : bool :=
  match out with
  | Pushed => true
  | _ => false
  end.

(** What [subprocess.run(argv, check=True)] raises at time [t]: what the
    call itself raises, or [CalledProcessError] for a non-zero return
    code. *)
Definition run_raises (env : Env) (t : nat) (argv : list string) : option exn :=
  match fault env t (OpRun argv) with
  | Some e => Some e
  | None =>
      if returncode env t argv =? 0 then None
      else Some (CalledProcessError argv (returncode env t argv))
  end.

(** What the environment did for a publication started at time [t] to
    end as [out]: the opening line is printed at [t], and the five steps
    are made at the next five times. *)
Definition publish_caused (env : Env) (o : GitImageOptimizer) (t : nat)
    (out : PublishOutcome) : Prop :=
  let chdir := fault env (t + 1) (OpChdir (repo_path o)) in
  let add_output := run_raises env (t + 2) ["git"; "add"; "optimizadas/"] in
  let add_ignore := run_raises env (t + 3) ["git"; "add"; ".gitignore"] in
  let commit :=
    run_raises env (t + 4)
      ["git"; "commit"; "-m"; commit_message (length (processed_files o))] in
  let push := fault env (t + 5) (OpRun ["git"; "push"]) in
  let code := returncode env (t + 5) ["git"; "push"] in
  match out with
  | PublishRaised AtChdir e => chdir = Some e
  | PublishRaised AtAddOutput e => chdir = None /\ add_output = Some e
  | PublishRaised AtAddIgnore e =>
      chdir = None /\ add_output = None /\ add_ignore = Some e
  | PublishRaised AtCommit e =>
      chdir = None /\ add_output = None /\ add_ignore = None /\ commit = Some e
  | PublishRaised AtPush e =>
      chdir = None /\ add_output = None /\ add_ignore = None /\ commit = None /\
      push = Some e
  | PushRejected err =>
      chdir = None /\ add_output = None /\ add_ignore = None /\ commit = None /\
      push = None /\ code <> 0 /\ err = stderr env (t + 5) ["git"; "push"]
  | Pushed =>
      chdir = None /\ add_output = None /\ add_ignore = None /\ commit = None /\
      push = None /\ code = 0
  end.

End Runs.

(** ** Sample environments

    Concrete worlds on which the properties are exercised. *)

Module Examples.
Import Paths PIL Optimizer Runs.

(** *** A resizer for the sample worlds

    It shrinks an image into a box with exact arithmetic, along the lines
    of [Image.thumbnail]; it stands for the library in the worlds below
    and is not claimed to give the library's sizes. *)

(** The nearer of the two integers around [number], at least 1. *)
Definition round_aspect (number : Q) (key : Z -> Q) : Z :=
  let lo := Qfloor number in
  let hi := Qceiling number in
  Z.max (if Qle_bool (key lo) (key hi) then lo else hi) 1.

(** The size for an image of size [(w, h)] and a box [(x, y)]; [None] is
    "leave the image alone". *)
Definition preserve_aspect_ratio (w h x y : Z) : option (Z * Z) :=
  if (x >=? w) && (y >=? h) then None
  else
    let aspect := (inject_Z w / inject_Z h)%Q in
    if Qle_bool aspect (inject_Z x / inject_Z y)%Q
    then
      Some (round_aspect (inject_Z y * aspect)%Q
              (fun n => Qabs (aspect - inject_Z n / inject_Z y)%Q), y)
    else
      Some (x, round_aspect (inject_Z x / aspect)%Q
              (fun n => if n =? 0 then 0%Q
                        else Qabs (aspect - inject_Z x / inject_Z n)%Q)).

(** The size the image is left with. *)
Definition shrink_size (w h : Z) (box : Z * Z) : Z * Z :=
  match preserve_aspect_ratio w h (fst box) (snd box) with
  | None => (w, h)
  | Some final_size => final_size
  end.

(** The image after the resize: the new size, the same mode. *)
Definition shrink (im : Image) (box : Z * Z) : Image :=
  let '(w, h) := shrink_size (width im) (height im) box in
  mkImage (mode im) w h.

Definition sources_folder : string :=
  os_path_join3 Windows main_repo_path "originales" "Anillos".

Definition sources_pattern : string := os_path_join Windows sources_folder "*.png".

(** A Windows world whose source folder lists [sources], where every
    image decodes to [img] and the calls of [faults] raise. *)
Definition world (faults : Op -> option exn) (sources : list string)
    (img : Image) : Env :=
  mkEnv Windows
    (fun _ op => faults op)
    (fun _ _ => true)
    (fun _ pattern => if String.eqb pattern sources_pattern then sources else [])
    (fun _ _ => [])
    (fun _ => 2000000)
    (fun _ _ _ => 10000)
    (fun _ => img)
    shrink
    (fun _ _ => 0)
    (fun _ _ => "").

Definition no_faults (op : Op) : option exn := None.

Definition source_a : string := os_path_join Windows sources_folder "a.png".
Definition source_b : string := os_path_join Windows sources_folder "b.png".

Definition rgba_photo : Image := mkImage "RGBA" 4000 3000.
Definition rgb_icon : Image := mkImage "RGB" 200 100.
Definition gray16_scan : Image := mkImage "I" 4000 3000.

(** All goes well, one source. *)
Definition calm : Env := world no_faults [source_a] rgba_photo.

(** No source in the folder. *)
Definition empty_folder : Env := world no_faults [] rgba_photo.

(** A 16-bit grayscale source: the WebP encoder takes it, the JPEG encoder
    refuses the mode. *)
Definition jpeg_refuses (op : Op) : option exn :=
  match op with
  | OpSave _ _ "JPEG" _ => Some (Exception "cannot write mode I as JPEG")
  | _ => None
  end.

Definition gray16 : Env := world jpeg_refuses [source_a] gray16_scan.

(** [a.png] is a dangling link: listed by [glob], refused by [stat]. *)
Definition dangling_a (op : Op) : option exn :=
  match op with
  | OpGetsize p =>
      if String.eqb p source_a then Some (Exception "No such file or directory")
      else None
  | _ => None
  end.

Definition dangling : Env := world dangling_a [source_a; source_b] rgba_photo.

(** [a.png] is listed and can be measured, but is not an image. *)
Definition corrupt_a (op : Op) : option exn :=
  match op with
  | OpImageOpen p =>
      if String.eqb p source_a then Some (Exception "cannot identify image file")
      else None
  | _ => None
  end.

Definition corrupt : Env := world corrupt_a [source_a; source_b] rgba_photo.

(** The repository directory cannot be entered. *)
Definition chdir_refused (op : Op) : option exn :=
  match op with
  | OpChdir _ => Some (Exception "No such file or directory")
  | _ => None
  end.

Definition locked_out : Env := world chdir_refused [source_a] rgba_photo.

(** The remote rejects the push. *)
Definition push_rejected : Env :=
  mkEnv Windows (fun _ _ => None) (fun _ _ => true)
    (fun _ pattern => if String.eqb pattern sources_pattern then [source_a] else [])
    (fun _ _ => []) (fun _ => 2000000) (fun _ _ _ => 10000) (fun _ => rgba_photo)
    shrink
    (fun _ argv => if decide (argv = ["git"; "push"]) then 1 else 0)
    (fun _ _ => "rejected").

(** The repository is not one: [git add] comes back with 128. *)
Definition add_refused : Env :=
  mkEnv Windows (fun _ _ => None) (fun _ _ => true)
    (fun _ pattern => if String.eqb pattern sources_pattern then [source_a] else [])
    (fun _ _ => []) (fun _ => 2000000) (fun _ _ _ => 10000) (fun _ => rgba_photo)
    shrink
    (fun _ argv => if decide (argv = ["git"; "add"; "optimizadas/"]) then 128 else 0)
    (fun _ _ => "").

(** The legacy folder holds two files, and the standard output cannot
    encode the name of the first. *)
Definition legacy_folder : string := os_path_join Windows main_repo_path "Anillos".
Definition legacy_a : string := os_path_join Windows legacy_folder "a.png".
Definition legacy_b : string := os_path_join Windows legacy_folder "b.png".

Definition name_refused (op : Op) : option exn :=
  match op with
  | OpStdout name =>
      if String.eqb name "a.png"
      then Some (Exception "'utf-8' codec can't encode character")
      else None
  | _ => None
  end.

Definition unprintable : Env :=
  mkEnv Windows (fun _ op => name_refused op) (fun _ _ => true)
    (fun _ pattern =>
       if String.eqb pattern (os_path_join Windows legacy_folder "*.png")
       then [legacy_a; legacy_b] else [])
    (fun _ _ => []) (fun _ => 2000000) (fun _ _ _ => 10000) (fun _ => rgba_photo)
    shrink (fun _ _ => 0) (fun _ _ => "").

(** A fresh process: nothing written, nothing logged. *)
Definition fresh (env : Env) (dir : string) : State :=
  mkState (init env main_repo_path) dir ∅ [].

(** Where the thumbnail WebP of [a.png] goes. *)
Definition thumb_webp_a : string :=
  artifact_path Windows (os_path_join3 Windows main_repo_path "optimizadas" "Anillos")
    "a" "thumb" WEBP.

(** Where the medium artifacts of [a.png] go. *)
Definition medium_webp_a : string :=
  artifact_path Windows (os_path_join3 Windows main_repo_path "optimizadas" "Anillos")
    "a" "medium" WEBP.

Definition medium_jpg_a : string :=
  artifact_path Windows (os_path_join3 Windows main_repo_path "optimizadas" "Anillos")
    "a" "medium" JPEG.

(** The disk fills up while the medium JPEG of [a.png] is written. *)
Definition disk_fills (op : Op) : option exn :=
  match op with
  | OpSave _ p _ _ =>
      if String.eqb p medium_jpg_a then Some (Exception "No space left on device")
      else None
  | _ => None
  end.

Definition disk_full : Env := world disk_fills [source_a] rgba_photo.

End Examples.

(** ** More readers of the log, and the closed forms of the set-up and
    of the relocation *)

Module Traces.
Import Paths PIL Optimizer Runs.

(** The paths [Image.open] was called on, in order. *)
Definition opened_path (ev : Event) : list string :=
  match ev with
  | Call (OpImageOpen p) _ => [p]
  | _ => []
  end.

Definition opened_paths (evs : list Event) : list string :=
  flat_map opened_path evs.

(** The moves [os.rename] was asked for, in order. *)
Definition rename_attempt (ev : Event) : list (string * string) :=
  match ev with
  | Call (OpRename src dst) _ => [(src, dst)]
  | _ => []
  end.

Definition rename_attempts (evs : list Event) : list (string * string) :=
  flat_map rename_attempt evs.

Definition is_save (ev : Event) : bool :=
  match ev with Call (OpSave _ _ _ _) _ => true | _ => false end.

Definition is_rmdir (ev : Event) : bool :=
  match ev with Call (OpRmdir _) _ => true | _ => false end.

(** The events of [setup_git_structure] and of [move_existing_images]. *)
Definition housekeeping (ev : Event) : bool :=
  match ev with
  | Call (OpMakedirs _) _ | Call (OpWriteText _ _) _ | Call (OpExists _) _
  | Call (OpGlob _) _ | Call (OpRename _ _) _ | Call (OpListdir _) _
  | Call (OpRmdir _) _ | Call (OpStdout _) _ => true
  | Print MsgSetupStart | Print MsgSetupDone | Print MsgMoving
  | Print (MsgMoved _) | Print (MsgMoveError _ _) | Print MsgLegacyRemoved => true
  | _ => false
  end.

(** The calls of [optimize_image]. *)
Definition generation_op (op : Op) : bool :=
  match op with
  | OpGetsize _ | OpStdout _ | OpImageOpen _ | OpConvert _ _ | OpCopy _
  | OpThumbnail _ _ | OpSave _ _ _ _ => true
  | _ => false
  end.

(** The events of [process_all_images]. *)
Definition generation (ev : Event) : bool :=
  match ev with
  | Call (OpGlob _) _ => true
  | Call op _ => generation_op op
  | Print MsgProcessingStart | Print MsgNoImages | Print (MsgFound _)
  | Print (MsgOptimizing _ _) | Print (MsgSizeDone _ _ _) | Print (MsgError _)
  | Print (MsgProcessed _ _) => true
  | _ => false
  end.

(** The last lines of [run_full_optimization] after a publication. *)
Definition closing_lines (pushed : bool) : list Event :=
  [Print (if pushed then MsgCompleted else MsgNotUploaded);
   Print MsgUrlsInfo; Print MsgTotalTime].

(** The summary lines of [process_all_images]. *)
Definition summary_line (ev : Event) : list (nat * nat) :=
  match ev with
  | Print (MsgProcessed success_count total) => [(success_count, total)]
  | _ => []
  end.

Definition summary_lines (evs : list Event) : list (nat * nat) :=
  flat_map summary_line evs.

(** The calls of [setup_git_structure], in order. *)
Definition setup_calls (pf : Platform) (o : GitImageOptimizer) : list Op :=
  OpMakedirs (original_folder o)
  :: map (fun size => OpMakedirs (os_path_join pf (optimized_folder o) size))
       (map fst (sizes_config o))
  ++ [OpWriteText (os_path_join pf (repo_path o) ".gitignore") gitignore_content].

Definition went_through (op : Op) : Event := Call op None.

(** How the move of one file ended.  The line of a file carries its
    name, so printing it can raise: after a move that went through, where
    the handler takes over, and in the handler, from where the exception
    escapes. *)
Inductive MoveOutcome :=
| MoveDone
| MoveFailed (e : exn)
| MoveUntold (e : exn)
| FailedUntold (e e' : exn)
| MoveUntoldTwice (e e' : exn).

Definition move_raises (m : MoveOutcome) : option exn :=
  match m with
  | FailedUntold _ e' | MoveUntoldTwice _ e' => Some e'
  | _ => None
  end.

Definition move_result (m : MoveOutcome) : Result unit :=
  match move_raises m with
  | Some e => Raise e
  | None => Ok tt
  end.

(** What one file of the legacy folder logs: the move, then its line or
    the lines that could not be printed. *)
Definition move_events (pf : Platform) (o : GitImageOptimizer)
    (item : string * MoveOutcome) : list Event :=
  let '(image_path, m) := item in
  let filename := os_path_basename_aux pf image_path "" in
  let rename :=
    Call (OpRename image_path (os_path_join pf (original_folder o) filename)) in
  let line := Call (OpStdout filename) in
  match m with
  | MoveDone => [rename None; Print (MsgMoved filename)]
  | MoveFailed e => [rename (Some e); Print (MsgMoveError filename e)]
  | MoveUntold e =>
      [rename None; line (Some e); Print (MsgMoveError filename e)]
  | FailedUntold e e' => [rename (Some e); line (Some e')]
  | MoveUntoldTwice e e' => [rename None; line (Some e); line (Some e')]
  end.

(** How the removal of the legacy folder ended. *)
Inductive Cleanup :=
| ListdirRaised (e : exn)
| StillFull
| RmdirRaised (e : exn)
| Removed.

Definition cleanup_events (anillos_path : string) (c : Cleanup) : list Event :=
  match c with
  | ListdirRaised e => [Call (OpListdir anillos_path) (Some e)]
  | StillFull => [Call (OpListdir anillos_path) None]
  | RmdirRaised e =>
      [Call (OpListdir anillos_path) None; Call (OpRmdir anillos_path) (Some e)]
  | Removed =>
      [Call (OpListdir anillos_path) None; Call (OpRmdir anillos_path) None;
       Print MsgLegacyRemoved]
  end.

(** The files after a sequence of profiles, by themselves. *)
Definition written (env : Env) (root filename : string) (img : Image)
    (items : list (string * Config)) (m : gmap string File) : gmap string File :=
  fold_left (fun m item => size_files env root filename img item None m) items m.

End Traces.

(** * Properties *)

#[local] Arguments String.append : simpl nomatch.

(** ** Facts about paths *)

Module PathFacts.
Import Paths PIL Optimizer Runs.

Lemma app_assoc_string (a b c : string) : (a +:+ b) +:+ c = a +:+ (b +:+ c).
Proof. induction a as [|x a IH]; simpl; [reflexivity | by rewrite IH]. Qed.

Lemma no_sep_app pf a b : no_sep pf (a +:+ b) = no_sep pf a && no_sep pf b.
Proof.
  induction a as [|c a IH]; simpl; [reflexivity|].
  rewrite IH. by rewrite andb_assoc.
Qed.

Lemma name_aux_no_sep pf s : forall cur last,
  no_sep pf cur = true -> no_sep pf last = true ->
  no_sep pf (name_aux pf s cur last) = true.
Proof.
  induction s as [|c s IH]; intros cur last Hc Hl; simpl.
  - by destruct (is_component cur).
  - destruct (is_sep pf c) eqn:Hs.
    + apply IH; [reflexivity|]. by destruct (is_component cur).
    + apply IH; [|assumption]. rewrite no_sep_app, Hc. simpl. by rewrite Hs.
Qed.

Lemma substring_no_sep pf s : forall n,
  no_sep pf s = true -> no_sep pf (substring 0 n s) = true.
Proof.
  induction s as [|c s IH]; intros [|n] H; simpl in *; try reflexivity.
  apply andb_true_iff in H as [H1 H2]. by rewrite H1, IH.
Qed.

Lemma path_stem_no_sep pf p : no_sep pf (path_stem pf p) = true.
Proof.
  unfold path_stem, stem_of_name.
  pose proof (name_aux_no_sep pf p "" "" eq_refl eq_refl) as H.
  fold (path_name pf p) in H.
  destruct (rfind_dot _ _ _); [|assumption].
  destruct (_ && _); [|assumption]. by apply substring_no_sep.
Qed.

Lemma starts_with_sep_app pf a b :
  no_sep pf a = true -> starts_with_sep pf b = false ->
  starts_with_sep pf (a +:+ b) = false.
Proof.
  destruct a as [|c a]; simpl; [tauto|]. intros H _.
  apply andb_true_iff in H as [H _]. by apply negb_true_iff.
Qed.

Lemma ends_with_sep_app pf a b :
  is_empty b = false -> ends_with_sep pf (a +:+ b) = ends_with_sep pf b.
Proof.
  intros Hb. induction a as [|c a IH]; simpl; [reflexivity|].
  rewrite IH. destruct (a +:+ b) eqn:E; [|reflexivity].
  destruct a; simpl in E; [subst b|]; discriminate.
Qed.

Lemma is_empty_app a b : is_empty b = false -> is_empty (a +:+ b) = false.
Proof. destruct a; simpl; auto. Qed.

Lemma join_relative pf root name :
  starts_with_sep pf name = false ->
  os_path_join pf root name = dir_prefix pf root +:+ name.
Proof.
  intros H. unfold os_path_join, dir_prefix. rewrite H.
  destruct (_ || _); [reflexivity|]. by rewrite app_assoc_string.
Qed.

Lemma join3_relative pf root name file :
  starts_with_sep pf name = false -> is_empty name = false ->
  ends_with_sep pf name = false -> starts_with_sep pf file = false ->
  os_path_join3 pf root name file =
    dir_prefix pf root +:+ name +:+ String (sep pf) file.
Proof.
  intros H1 H2 H3 H4. unfold os_path_join3.
  rewrite (join_relative pf root name H1).
  unfold os_path_join. rewrite H4, is_empty_app, ends_with_sep_app, H3 by assumption.
  simpl. by rewrite app_assoc_string.
Qed.

End PathFacts.

(** ** Facts about the resizer of the sample worlds *)

Module ShrinkFacts.
Import Paths PIL Optimizer Runs Examples.

Lemma round_aspect_cases number key :
  round_aspect number key = Z.max (Qfloor number) 1 \/
  round_aspect number key = Z.max (Qceiling number) 1.
Proof. unfold round_aspect. destruct (Qle_bool _ _); auto. Qed.

Lemma Qfloor_quot a b : 0 < b -> Qfloor (inject_Z a / inject_Z b) = a / b.
Proof. intros _. symmetry. apply Zdiv_Qdiv. Qed.

Lemma Qceiling_quot a b : 0 < b -> Qceiling (inject_Z a / inject_Z b) = - ((- a) / b).
Proof.
  intros Hb. unfold Qceiling. f_equal.
  rewrite <- Qfloor_quot by assumption.
  apply Qfloor_comp. rewrite inject_Z_opp. field.
  intros H. apply (inject_Z_injective b 0) in H. lia.
Qed.

Lemma inject_Z_nonzero z : z <> 0 -> ~ (inject_Z z == 0)%Q.
Proof. intros Hz H. apply (inject_Z_injective z 0) in H. contradiction. Qed.

Lemma wide_number w h y :
  0 < h -> (inject_Z y * (inject_Z w / inject_Z h) == inject_Z (y * w) / inject_Z h)%Q.
Proof. intros. rewrite inject_Z_mult. field. apply inject_Z_nonzero. lia. Qed.

Lemma tall_number w h x :
  0 < h -> 0 < w -> (inject_Z x / (inject_Z w / inject_Z h) == inject_Z (x * h) / inject_Z w)%Q.
Proof. intros. rewrite inject_Z_mult. field. split; apply inject_Z_nonzero; lia. Qed.

Lemma aspect_le_iff w h x y :
  0 < h -> 0 < y ->
  Qle_bool (inject_Z w / inject_Z h) (inject_Z x / inject_Z y) = true <-> w * y <= x * h.
Proof.
  intros Hh Hy. rewrite Qle_bool_iff.
  assert (E1 : (inject_Z w / inject_Z h == w # Z.to_pos h)%Q).
  { rewrite (Qmake_Qdiv w (Z.to_pos h)). rewrite Z2Pos.id by lia. reflexivity. }
  assert (E2 : (inject_Z x / inject_Z y == x # Z.to_pos y)%Q).
  { rewrite (Qmake_Qdiv x (Z.to_pos y)). rewrite Z2Pos.id by lia. reflexivity. }
  rewrite E1, E2. unfold Qle. simpl. rewrite !Z2Pos.id by lia. lia.
Qed.

Lemma floor_ceil_bounds a b :
  0 < b -> 0 < a ->
  let f := a / b in let c := - ((- a) / b) in
  0 <= f /\ f <= c /\ f * b <= a /\ a < (f + 1) * b /\ a <= c * b /\ (c - 1) * b < a.
Proof.
  intros Hb Ha f c.
  pose proof (Z.div_mod a b ltac:(lia)) as E1.
  pose proof (Z.mod_pos_bound a b Hb) as B1.
  pose proof (Z.div_mod (- a) b ltac:(lia)) as E2.
  pose proof (Z.mod_pos_bound (- a) b Hb) as B2.
  subst f c. split; [apply Z.div_pos; lia|]. nia.
Qed.

Lemma shrink_size_spec w h x y :
  0 < w -> 0 < h -> 0 < x -> 0 < y ->
  let '(w', h') := shrink_size w h (x, y) in
  (1 <= w' <= Z.min x w) /\ (1 <= h' <= Z.min y h) /\
  (w <= x -> h <= y -> w' = w /\ h' = h) /\
  ((w' = w /\ h' = h) \/
   (h' = y /\ Z.abs (w' * h - y * w) < h) \/
   (w' = x /\ Z.abs (h' * w - x * h) < w)).
Proof.
  intros Hw Hh Hx Hy. unfold shrink_size, preserve_aspect_ratio. simpl fst; simpl snd.
  destruct ((x >=? w) && (y >=? h)) eqn:Hfit.
  - apply andb_true_iff in Hfit as [H1 H2].
    apply Z.geb_le in H1, H2. repeat split; lia.
  - assert (Hbig : x < w \/ y < h).
    { apply andb_false_iff in Hfit as [H|H]; rewrite Z.geb_leb in H;
        apply Z.leb_gt in H; lia. }
    destruct (Qle_bool _ _) eqn:Hasp.
    + apply aspect_le_iff in Hasp; try assumption.
      pose proof (floor_ceil_bounds (y * w) h Hh ltac:(nia)) as B. simpl in B.
      set (r := round_aspect _ _).
      assert (Hr : r = Z.max ((y * w) / h) 1 \/ r = Z.max (- ((- (y * w)) / h)) 1).
      { subst r. destruct (round_aspect_cases
          (inject_Z y * (inject_Z w / inject_Z h))%Q
          (fun n => Qabs (inject_Z w / inject_Z h - inject_Z n / inject_Z y)%Q)) as [E|E];
          rewrite E; [left|right]; f_equal.
        - rewrite (Qfloor_comp _ _ (wide_number w h y Hh)). apply Qfloor_quot; assumption.
        - rewrite (Qceiling_comp _ _ (wide_number w h y Hh)). apply Qceiling_quot; assumption. }
      clearbody r.
      assert (Hyh : y < h) by nia.
      assert (Hc : - ((- (y * w)) / h) <= Z.min x w) by nia.
      repeat split; lia.
    + assert (Hasp' : ~ w * y <= x * h).
      { intros H. apply (aspect_le_iff w h x y Hh Hy) in H. congruence. }
      pose proof (floor_ceil_bounds (x * h) w Hw ltac:(nia)) as B. simpl in B.
      set (r := round_aspect _ _).
      assert (Hr : r = Z.max ((x * h) / w) 1 \/ r = Z.max (- ((- (x * h)) / w)) 1).
      { subst r. destruct (round_aspect_cases
          (inject_Z x / (inject_Z w / inject_Z h))%Q
          (fun n => if n =? 0 then 0%Q
                    else Qabs (inject_Z w / inject_Z h - inject_Z x / inject_Z n)%Q)) as [E|E];
          rewrite E; [left|right]; f_equal.
        - rewrite (Qfloor_comp _ _ (tall_number w h x Hh Hw)). apply Qfloor_quot; assumption.
        - rewrite (Qceiling_comp _ _ (tall_number w h x Hh Hw)). apply Qceiling_quot; assumption. }
      clearbody r.
      assert (Hxw : x < w) by nia.
      assert (Hc : - ((- (x * h)) / w) <= Z.min y h) by nia.
      repeat split; lia.
Qed.

Lemma shrink_shrinks im box :
  0 < width im -> 0 < height im -> 0 < fst box -> 0 < snd box ->
  shrunk_to_fit im box (shrink im box).
Proof.
  intros Hw Hh Hx Hy. destruct box as [x y]. cbn [fst snd] in *.
  pose proof (shrink_size_spec (width im) (height im) x y Hw Hh Hx Hy) as Hspec.
  unfold shrunk_to_fit, shrink. destruct (shrink_size _ _ _) as [w' h'].
  cbn [mode width height fst snd].
  destruct Hspec as (B1 & B2 & Hfit & Hasp).
  split; [reflexivity|]. split; [exact B1|]. split; [exact B2|].
  assert (Hsame : w' = width im -> h' = height im ->
                  mkImage (mode im) w' h' = im).
  { intros -> ->. by destruct im. }
  split.
  - intros H1 H2. destruct (Hfit H1 H2) as [E1 E2]. by apply Hsame.
  - destruct Hasp as [[E1 E2]|[H|H]]; [left; by apply Hsame | right; by left | right; by right].
Qed.

Example shrink_of_a_photo :
  shrink_size 4000 3000 (300, 300) = (300, 225) /\
  shrink_size 4000 3000 (1200, 1200) = (1200, 900).
Proof. split; reflexivity. Qed.

Example shrink_of_an_icon : shrink_size 200 100 (300, 300) = (200, 100).
Proof. reflexivity. Qed.

Example shrink_of_a_strip :
  shrink_size 10000 1 (300, 300) = (300, 1) /\
  shrink_size 3 1000 (300, 300) = (1, 300).
Proof. split; reflexivity. Qed.

End ShrinkFacts.

(** ** The closed form of [optimize_image] *)

Module RunFacts.
Import Paths PIL Optimizer Runs PathFacts.

Lemma append_inv_head (a b c : string) : a +:+ b = a +:+ c -> b = c.
Proof. apply String.app_inj. Qed.

Lemma starts_with_sep_ext pf filename :
  starts_with_sep pf (filename +:+ ".webp") = starts_with_sep pf (filename +:+ ".jpg").
Proof. destruct filename; [by destruct pf | reflexivity]. Qed.

Lemma join_inv pf x a b :
  starts_with_sep pf a = starts_with_sep pf b ->
  os_path_join pf x a = os_path_join pf x b -> a = b.
Proof.
  unfold os_path_join. intros ->.
  destruct (starts_with_sep pf b); [done|].
  destruct (_ || _); intros H; apply append_inv_head in H; congruence.
Qed.

Lemma webp_ne_jpg pf root filename name :
  artifact_path pf root filename name WEBP <> artifact_path pf root filename name JPEG.
Proof.
  unfold artifact_path, os_path_join3. simpl extension. intros H.
  apply join_inv in H; [|apply starts_with_sep_ext].
  apply append_inv_head in H. discriminate.
Qed.

Ltac case_fault e :=
  match goal with
  | |- context [match fault ?en ?t ?op with _ => _ end] =>
      destruct (fault en t op) as [e|] eqn:?
  end.

Ltac case_fault_eq e H :=
  match goal with
  | |- context [match fault ?en ?t ?op with _ => _ end] =>
      destruct (fault en t op) as [e|] eqn:H
  end.

Ltac run_monad :=
  cbv beta iota zeta delta
    [bind ret raise gets try_except call ask print log_event set_cwd set_self
     put_file extend_processed_files log self cwd files
     Image_open Image_copy Image_convert Image_thumbnail Image_save
     os_makedirs write_text os_rename os_listdir os_rmdir os_chdir
     os_path_exists glob_glob].

Ltac run_steps :=
  cbv beta iota zeta delta
    [bind ret raise gets try_except call ask print log_event set_cwd set_self
     put_file extend_processed_files
     os_makedirs write_text os_rename os_listdir os_rmdir os_chdir
     os_path_exists glob_glob];
  cbn [log self cwd files fst snd].

Lemma optimize_size_run env filename img item st :
  exists fail,
    optimize_size env filename img item st =
      (size_result fail,
       after_size env (optimized_folder (self st)) filename img item fail st).
Proof.
  destruct item as [name cfg].
  unfold optimize_size. run_monad.
  case_fault e.
  { exists (Some (AtCopy, e)). reflexivity. }
  case_fault e.
  { exists (Some (AtThumbnail, e)). unfold after_size. cbn. by rewrite <- !app_assoc. }
  case_fault e.
  { exists (Some (AtWebp, e)). unfold after_size. cbn. by rewrite <- !app_assoc. }
  case_fault e.
  { exists (Some (AtJpeg, e)). unfold after_size. cbn. by rewrite <- !app_assoc. }
  exists None.
  unfold os_path_getsize. run_monad.
  rewrite lookup_insert_ne by (apply not_eq_sym, webp_ne_jpg).
  rewrite lookup_insert_eq. run_monad.
  rewrite lookup_insert_eq.
  unfold after_size. cbn. by rewrite <- !app_assoc.
Qed.

Lemma root_after_size env root filename img item fail st :
  optimized_folder (self (after_size env root filename img item fail st)) =
  optimized_folder (self st).
Proof. by destruct fail as [[[] ?]|]. Qed.

Lemma for_each_sizes_run env filename img items : forall st,
  let root := optimized_folder (self st) in
  for_each items (optimize_size env filename img) st =
    (Ok tt, after_sizes env root filename img items st) \/
  exists done item rest step e,
    items = done ++ item :: rest /\
    for_each items (optimize_size env filename img) st =
      (Raise e,
       after_size env root filename img item (Some (step, e))
         (after_sizes env root filename img done st)).
Proof.
  induction items as [|item items IH]; intros st root; [by left|].
  assert (E : for_each (item :: items) (optimize_size env filename img) st =
              match optimize_size env filename img item st with
              | (Ok _, st') => for_each items (optimize_size env filename img) st'
              | (Raise e, st') => (Raise e, st')
              end) by reflexivity.
  rewrite E. clear E.
  destruct (optimize_size_run env filename img item st) as [fail ->].
  fold root. destruct fail as [[step e]|]; simpl size_result.
  - right. exists [], item, items, step, e. split; reflexivity.
  - specialize (IH (after_size env root filename img item None st)).
    rewrite root_after_size in IH. fold root in IH.
    destruct IH as [IH | (done & it & rest & step & e & -> & IH)].
    + left. exact IH.
    + right. exists (item :: done), it, rest, step, e. split; [reflexivity | exact IH].
Qed.

Lemma optimize_image_try_run env image_path st t :
  length (log st) = (t + 2)%nat ->
  exists out,
    try_possible env image_path out (sizes_config (self st)) /\
    try_caused env image_path t out /\
    optimize_image_try env image_path (stem env image_path) st =
      (try_result out, after_try env image_path out st).
Proof.
  intros Ht. unfold optimize_image_try. run_monad.
  assert (Hnext : length (log st ++ [Call (OpImageOpen image_path) None]) = (t + 3)%nat).
  { rewrite length_app. cbn [length]. lia. }
  case_fault_eq e Hopen;
    (match type of Hopen with _ = ?r =>
       change (fault env (length (log st)) (OpImageOpen image_path) = r) in Hopen end);
    rewrite Ht in Hopen.
  { exists (FailOpen e). split; [exact I|]. split; [exact Hopen | reflexivity]. }
  fold (img0 env image_path).
  destruct (mode_needs_convert (img0 env image_path)) eqn:Hmode.
  - run_monad.
    case_fault_eq e Hconv;
      (match type of Hconv with _ = ?r =>
         change (fault env (length (log st ++ [Call (OpImageOpen image_path) None]))
                   (OpConvert (img0 env image_path) "RGB") = r) in Hconv end);
      rewrite Hnext in Hconv.
    { exists (FailConvert e). split; [exact Hmode|]. split; [by split|].
      unfold after_try, add_log. cbn. by rewrite <- !app_assoc. }
    match goal with |- context [for_each ?l ?b ?s] =>
      destruct (for_each_sizes_run env (stem env image_path)
                  (convert (img0 env image_path) "RGB") l s)
        as [H | (done & it & rest & step & e & Hl & H)] end.
    + exists Completed. split; [exact I|]. split; [by split|].
      cbn in H. rewrite H. unfold after_try, add_log, working_image, convert_events.
      rewrite Hmode. cbn. by rewrite <- !app_assoc.
    + exists (FailSize done it rest step e). split; [exact Hl|]. split; [by split|].
      cbn in H. rewrite H. unfold after_try, add_log, working_image, convert_events.
      rewrite Hmode. cbn. by rewrite <- !app_assoc.
  - run_monad.
    match goal with |- context [for_each ?l ?b ?s] =>
      destruct (for_each_sizes_run env (stem env image_path)
                  (img0 env image_path) l s)
        as [H | (done & it & rest & step & e & Hl & H)] end.
    + exists Completed. split; [exact I|]. split; [split; [exact Hopen | intros Hm; rewrite Hmode in Hm; discriminate Hm]|].
      cbn in H. rewrite H. unfold after_try, add_log, working_image, convert_events.
      rewrite Hmode. cbn. by rewrite ?app_nil_r.
    + exists (FailSize done it rest step e). split; [exact Hl|].
      split; [split; [exact Hopen | intros Hm; rewrite Hmode in Hm; discriminate Hm]|].
      cbn in H. rewrite H. unfold after_try, add_log, working_image, convert_events.
      rewrite Hmode. cbn. by rewrite ?app_nil_r.
Qed.

Lemma optimize_image_run env image_path st :
  exists out,
    possible env image_path out (sizes_config (self st)) /\
    caused env image_path (length (log st)) out /\
    optimize_image env image_path st =
      (optimize_result out, after_optimize env image_path out st).
Proof.
  unfold optimize_image.
  set (filename := path_stem (platform env) image_path).
  assert (Hstat :
    (exists e, fault env (length (log st)) (OpGetsize image_path) = Some e /\
               os_path_getsize env image_path st =
                 (Raise e, add_log [Call (OpGetsize image_path) (Some e)] st)) \/
    (exists sz, os_path_getsize env image_path st =
                 (Ok sz, add_log [Call (OpGetsize image_path) None] st))).
  { unfold os_path_getsize. destruct (files st !! image_path) as [f|].
    - right. by exists (file_size env f).
    - run_monad.
      case_fault_eq e Hf; [left; by exists e | right; by eexists]. }
  destruct Hstat as [(e & Hf & H) | [sz H]].
  - exists (StatRaised e). split; [exact I|]. split; [exact Hf|].
    unfold bind at 1. by rewrite H.
  - unfold bind at 1. rewrite H. unfold bind at 1, print_name at 1.
    assert (Hlen : length (log (add_log [Call (OpGetsize image_path) None] st)) =
                   (length (log st) + 1)%nat).
    { cbn [add_log log]. rewrite length_app. reflexivity. }
    destruct (fault env _ (OpStdout filename)) as [e|] eqn:Hname; rewrite Hlen in Hname.
    { exists (NameRaised sz e). split; [exact I|]. split; [exact Hname|].
      unfold optimize_result, after_optimize, log_event, add_log, stem. cbn.
      by rewrite <- app_assoc. }
    unfold try_except.
    match goal with |- context [optimize_image_try env image_path filename ?s] =>
      destruct (optimize_image_try_run env image_path s (length (log st)))
        as (t & Hp & Hc & Ht) end.
    { cbn [log_event add_log log]. rewrite !length_app. cbn [length]. lia. }
    fold filename in Ht. unfold stem in Ht. fold filename in Ht. rewrite Ht.
    exists (Tried sz t). split; [exact Hp|]. split; [by split|].
    unfold optimize_result, after_optimize.
    assert (Hst : log_event (Print (MsgOptimizing filename sz))
                    (add_log [Call (OpGetsize image_path) None] st) =
                  add_log [Call (OpGetsize image_path) None;
                           Print (MsgOptimizing (stem env image_path) sz)] st).
    { unfold log_event, add_log. cbn. by rewrite <- app_assoc. }
    rewrite Hst.
    destruct (try_result t) as [b|e]; reflexivity.
Qed.

(** Projections of the closed form. *)

Lemma log_after_size env root filename img item fail st :
  log (after_size env root filename img item fail st) =
  log st ++ size_events env root filename img item fail.
Proof. reflexivity. Qed.

Lemma log_after_sizes env root filename img items : forall st,
  log (after_sizes env root filename img items st) =
  log st ++ flat_map (fun item => size_events env root filename img item None) items.
Proof.
  induction items as [|item items IH]; intros st; simpl.
  - by rewrite app_nil_r.
  - rewrite IH, log_after_size. by rewrite <- app_assoc.
Qed.

Lemma log_after_try env image_path out st :
  log (after_try env image_path out st) =
  log st ++ try_events env image_path (optimized_folder (self st))
              (sizes_config (self st)) out.
Proof.
  destruct out as [e|e|done item rest step e|]; cbn [after_try try_events].
  - reflexivity.
  - reflexivity.
  - rewrite log_after_size, log_after_sizes. cbn [log add_log].
    unfold sizes_events. by rewrite <- !app_assoc.
  - rewrite log_after_sizes. cbn [log add_log].
    unfold sizes_events. by rewrite <- !app_assoc.
Qed.

Lemma log_after_optimize env image_path out st :
  log (after_optimize env image_path out st) =
  log st ++ optimize_events env image_path (optimized_folder (self st))
              (sizes_config (self st)) out.
Proof.
  destruct out as [e|sz t|sz e]; [reflexivity| |reflexivity].
  cbn [after_optimize optimize_events].
  assert (H := log_after_try env image_path t
            (add_log [Call (OpGetsize image_path) None;
                      Print (MsgOptimizing (stem env image_path) sz)] st)).
  cbn [self add_log log] in H.
  destruct (try_result t); cbn [log add_log]; rewrite H;
    by rewrite <- ?app_assoc, ?app_nil_r.
Qed.

(** Projections of the state after a run. *)

Lemma with_processed_files_id o : with_processed_files o (processed_files o) = o.
Proof. by destruct o. Qed.

Lemma self_after_sizes env root filename img items : forall st,
  self (after_sizes env root filename img items st) =
  with_processed_files (self st)
    (processed_files (self st) ++ artifact_paths (platform env) root filename items).
Proof.
  induction items as [|item items IH]; intros st; simpl.
  - by rewrite app_nil_r, with_processed_files_id.
  - rewrite IH. cbn [after_size self size_self]. unfold with_processed_files at 1 2 3.
    cbn. unfold with_processed_files. by rewrite <- app_assoc.
Qed.

Lemma cwd_after_sizes env root filename img items : forall st,
  cwd (after_sizes env root filename img items st) = cwd st.
Proof. induction items as [|item items IH]; intros st; simpl; [done|]. by rewrite IH. Qed.

Lemma self_after_optimize env image_path out st :
  self (after_optimize env image_path out st) =
  with_processed_files (self st)
    (processed_files (self st) ++
     artifact_paths (platform env) (optimized_folder (self st)) (stem env image_path)
       (completed (sizes_config (self st)) out)).
Proof.
  assert (E0 : self st = with_processed_files (self st) (processed_files (self st) ++ [])).
  { by rewrite app_nil_r, with_processed_files_id. }
  destruct out as [e|sz [e|e|done item rest step e|]|sz e]; cbn [completed artifact_paths flat_map];
    try exact E0.
  - cbn [after_optimize try_result add_log self after_try after_size size_self].
    by rewrite self_after_sizes.
  - cbn [after_optimize try_result add_log self after_try].
    by rewrite self_after_sizes.
Qed.

Lemma cwd_after_optimize env image_path out st :
  cwd (after_optimize env image_path out st) = cwd st.
Proof.
  destruct out as [e|sz [e|e|done item rest step e|]|sz e]; try reflexivity.
  - cbn [after_optimize try_result add_log cwd after_try after_size].
    by rewrite cwd_after_sizes.
  - cbn [after_optimize try_result add_log cwd after_try].
    by rewrite cwd_after_sizes.
Qed.

Lemma saved_paths_app l1 l2 : saved_paths (l1 ++ l2) = saved_paths l1 ++ saved_paths l2.
Proof. apply flat_map_app. Qed.

Lemma saved_paths_sizes env image_path root items :
  saved_paths (sizes_events env image_path root items) =
  artifact_paths (platform env) root (stem env image_path) items.
Proof.
  induction items as [|item items IH]; [reflexivity|].
  unfold sizes_events in *. cbn [flat_map]. rewrite saved_paths_app, IH. reflexivity.
Qed.

Lemma saved_paths_convert env image_path r :
  saved_paths (convert_events env image_path r) = [].
Proof. unfold convert_events. by destruct (mode_needs_convert _). Qed.

Lemma saved_paths_optimize env image_path root catalog out :
  saved_paths (optimize_events env image_path root catalog out) =
  artifact_paths (platform env) root (stem env image_path) (completed catalog out)
  ++ unrecorded env image_path root out.
Proof.
  destruct out as [e|sz [e|e|done item rest step e|]|sz e]; try reflexivity.
  - cbn [optimize_events try_events try_result completed unrecorded].
    rewrite !saved_paths_app. cbn [saved_paths flat_map saved_path app].
    rewrite saved_paths_app, saved_paths_convert, saved_paths_app, saved_paths_sizes.
    cbn [app]. rewrite app_nil_r. f_equal. by destruct step.
  - cbn [optimize_events try_events try_result completed unrecorded].
    rewrite !saved_paths_app. cbn [saved_paths flat_map saved_path app].
    rewrite saved_paths_app, saved_paths_convert, saved_paths_sizes.
    cbn [app]. by rewrite !app_nil_r.
Qed.

Lemma dom_after_sizes env root filename img items : forall st,
  dom (files (after_sizes env root filename img items st)) =
  dom (files st) ∪ list_to_set (artifact_paths (platform env) root filename items).
Proof.
  induction items as [|item items IH]; intros st; simpl.
  - set_solver.
  - rewrite IH. cbn [after_size files size_files]. rewrite !dom_insert_L.
    unfold webp_of, jpg_of. set_solver.
Qed.

Lemma dom_after_optimize env image_path out st :
  dom (files (after_optimize env image_path out st)) =
  dom (files st) ∪
  list_to_set (saved_paths (optimize_events env image_path
                 (optimized_folder (self st)) (sizes_config (self st)) out)).
Proof.
  rewrite saved_paths_optimize.
  destruct out as [e|sz [e|e|done item rest step e|]|sz e];
    cbn [completed unrecorded artifact_paths flat_map app list_to_set];
    try (cbn; set_solver).
  - cbn [after_optimize try_result add_log files after_try after_size self].
    destruct step; cbn [size_files]; rewrite ?dom_insert_L, dom_after_sizes;
      cbn [files add_log]; unfold webp_of; set_solver.
  - cbn [after_optimize try_result add_log files after_try self].
    rewrite dom_after_sizes. cbn [files add_log]. set_solver.
Qed.

(** Events of the closed form. *)

Lemma in_convert_events env image_path r ev :
  In ev (convert_events env image_path r) ->
  mode_needs_convert (img0 env image_path) = true /\
  ev = Call (OpConvert (img0 env image_path) "RGB") r.
Proof.
  unfold convert_events. destruct (mode_needs_convert _); simpl; [|tauto].
  intros [<-|[]]. by split.
Qed.

Lemma save_in_size_events env root filename img item fail im path fmt q o :
  In (Call (OpSave im path fmt q) o) (size_events env root filename img item fail) ->
  exists enc,
    im = thumbnail env img (cfg_size (snd item)) /\
    path = artifact_path (platform env) root filename (fst item) enc /\
    fmt = format_name enc /\ q = cfg_quality (snd item).
Proof.
  destruct fail as [[[] e]|]; simpl; intros H;
    repeat (destruct H as [H|H]; [try discriminate H | ]); try contradiction;
    injection H as <- <- <- <- <-;
    first [ by exists WEBP | by exists JPEG ].
Qed.

Lemma save_in_optimize_events env image_path root catalog out im path fmt q o :
  possible env image_path out catalog ->
  In (Call (OpSave im path fmt q) o) (optimize_events env image_path root catalog out) ->
  exists item enc,
    In item catalog /\
    im = thumbnail env (working_image env image_path) (cfg_size (snd item)) /\
    path = artifact_path (platform env) root (stem env image_path) (fst item) enc /\
    fmt = format_name enc /\ q = cfg_quality (snd item).
Proof.
  intros Hsplit Hin.
  assert (Hsizes : forall items,
    (forall it, In it items -> In it catalog) ->
    In (Call (OpSave im path fmt q) o) (sizes_events env image_path root items) ->
    exists item enc,
      In item catalog /\
      im = thumbnail env (working_image env image_path) (cfg_size (snd item)) /\
      path = artifact_path (platform env) root (stem env image_path) (fst item) enc /\
      fmt = format_name enc /\ q = cfg_quality (snd item)).
  { intros items Hsub H. unfold sizes_events in H. apply in_flat_map in H as (it & Hit & H).
    apply save_in_size_events in H as (enc & ?). exists it, enc. split; [by apply Hsub|done]. }
  destruct out as [e|sz t|sz e]; simpl in Hin.
  { destruct Hin as [H|[]]. discriminate H. }
  2:{ destruct Hin as [H|[H|[]]]; discriminate H. }
  destruct Hin as [H|[H|Hin]]; try discriminate H.
  apply in_app_or in Hin as [Hin|Hin].
  2:{ destruct (try_result t); simpl in Hin; [contradiction|].
      destruct Hin as [H|[]]. discriminate H. }
  destruct t as [e|e|done item rest step e|]; simpl in Hin.
  - destruct Hin as [H|[]]. discriminate H.
  - destruct Hin as [H|[H|[]]]; discriminate H.
  - destruct Hin as [H|Hin]; [discriminate H|].
    apply in_app_or in Hin as [Hin|Hin].
    { apply in_convert_events in Hin as [_ H]. discriminate H. }
    cbn [possible try_possible] in Hsplit. subst catalog.
    apply in_app_or in Hin as [Hin|Hin].
    + apply (Hsizes done); [|exact Hin]. intros it Hit. apply in_or_app. by left.
    + apply (save_in_size_events env root _ _ item (Some (step, e))) in Hin as (enc & ?).
      exists item, enc.
      split; [|done]. apply in_or_app. right. by left.
  - destruct Hin as [H|Hin]; [discriminate H|].
    apply in_app_or in Hin as [Hin|Hin].
    { apply in_convert_events in Hin as [_ H]. discriminate H. }
    by apply (Hsizes catalog).
Qed.

Lemma save_after_thumbnail_size env root filename img item fail im path fmt q o :
  In (Call (OpSave im path fmt q) o) (size_events env root filename img item fail) ->
  exists before after,
    size_events env root filename img item fail =
      before ++ Call (OpSave im path fmt q) o :: after /\
    In (Call (OpThumbnail img (cfg_size (snd item))) None) before.
Proof.
  destruct fail as [[[] e]|]; simpl; intros H;
    repeat (destruct H as [H|H]; [try discriminate H | ]); try contradiction;
    injection H as <- <- <- <- <-;
    first
      [ by eexists [_; _], _; split; [reflexivity | right; left]
      | by eexists [_; _; _], _; split; [reflexivity | right; left] ].
Qed.

Lemma save_after_thumbnail_loop env image_path root catalog items tail im path fmt q o :
  (forall it, In it items -> In it catalog) ->
  (tail = [] \/
   exists item fail,
     In item catalog /\
     tail = size_events env root (stem env image_path) (working_image env image_path)
              item fail) ->
  In (Call (OpSave im path fmt q) o) (sizes_events env image_path root items ++ tail) ->
  exists item enc,
    In item catalog /\
    im = thumbnail env (working_image env image_path) (cfg_size (snd item)) /\
    path = artifact_path (platform env) root (stem env image_path) (fst item) enc /\
    exists before after,
      sizes_events env image_path root items ++ tail =
        before ++ Call (OpSave im path fmt q) o :: after /\
      In (Call (OpThumbnail (working_image env image_path) (cfg_size (snd item))) None)
        before.
Proof.
  intros Hsub Htail Hin.
  assert (Hone : forall item fail l,
    In item catalog ->
    l = size_events env root (stem env image_path) (working_image env image_path)
          item fail ->
    In (Call (OpSave im path fmt q) o) l ->
    exists item enc,
      In item catalog /\
      im = thumbnail env (working_image env image_path) (cfg_size (snd item)) /\
      path = artifact_path (platform env) root (stem env image_path) (fst item) enc /\
      exists before after,
        l = before ++ Call (OpSave im path fmt q) o :: after /\
        In (Call (OpThumbnail (working_image env image_path) (cfg_size (snd item))) None)
          before).
  { intros item fail l Hitem -> H.
    destruct (save_in_size_events _ _ _ _ _ _ _ _ _ _ _ H) as (enc & ? & ? & _).
    destruct (save_after_thumbnail_size _ _ _ _ _ _ _ _ _ _ _ H)
      as (before & after & E & Hb).
    exists item, enc. split; [done|]. split; [done|]. split; [done|].
    by exists before, after. }
  unfold sizes_events in *.
  induction items as [|it items IH]; cbn [flat_map app] in Hin |- *.
  - destruct Htail as [->|(item & fail & Hitem & Htail)]; [destruct Hin|].
    exact (Hone item fail tail Hitem Htail Hin).
  - rewrite <- app_assoc in Hin |- *. apply in_app_or in Hin as [H|H].
    + destruct (Hone it None _ ltac:(apply Hsub; by left) eq_refl H)
        as (item & enc & ? & ? & ? & before & after & E & Hb).
      exists item, enc. split; [done|]. split; [done|]. split; [done|].
      eexists before, (after ++ _). split; [|exact Hb].
      rewrite E, <- app_assoc. cbn [app]. reflexivity.
    + destruct IH as (item & enc & ? & ? & ? & before & after & E & Hb);
        [intros ? ?; apply Hsub; by right | exact H |].
      exists item, enc. split; [done|]. split; [done|]. split; [done|].
      eexists (_ ++ before), after. split; [|apply in_app_iff; right; exact Hb].
      rewrite E, <- app_assoc. reflexivity.
Qed.

Lemma save_after_thumbnail env image_path root catalog out im path fmt q o :
  possible env image_path out catalog ->
  In (Call (OpSave im path fmt q) o) (optimize_events env image_path root catalog out) ->
  exists item enc,
    In item catalog /\
    im = thumbnail env (working_image env image_path) (cfg_size (snd item)) /\
    path = artifact_path (platform env) root (stem env image_path) (fst item) enc /\
    exists before after,
      optimize_events env image_path root catalog out =
        before ++ Call (OpSave im path fmt q) o :: after /\
      In (Call (OpThumbnail (working_image env image_path) (cfg_size (snd item))) None)
        before.
Proof.
  intros Hp Hin.
  assert (Hwrap : forall head l line,
    (forall ev, In ev head -> match ev with Call (OpSave _ _ _ _) _ => False | _ => True end) ->
    (forall ev, In ev line -> match ev with Call (OpSave _ _ _ _) _ => False | _ => True end) ->
    In (Call (OpSave im path fmt q) o) (head ++ l ++ line) ->
    (In (Call (OpSave im path fmt q) o) l ->
     exists item enc,
       In item catalog /\
       im = thumbnail env (working_image env image_path) (cfg_size (snd item)) /\
       path = artifact_path (platform env) root (stem env image_path) (fst item) enc /\
       exists before after,
         l = before ++ Call (OpSave im path fmt q) o :: after /\
         In (Call (OpThumbnail (working_image env image_path) (cfg_size (snd item))) None)
           before) ->
    exists item enc,
      In item catalog /\
      im = thumbnail env (working_image env image_path) (cfg_size (snd item)) /\
      path = artifact_path (platform env) root (stem env image_path) (fst item) enc /\
      exists before after,
        head ++ l ++ line = before ++ Call (OpSave im path fmt q) o :: after /\
        In (Call (OpThumbnail (working_image env image_path) (cfg_size (snd item))) None)
          before).
  { intros head l line Hhead Hline H Hl.
    rewrite !in_app_iff in H. destruct H as [H|[H|H]].
    - destruct (Hhead _ H).
    - destruct (Hl H) as (item & enc & ? & ? & ? & before & after & E & Hb).
      exists item, enc. split; [done|]. split; [done|]. split; [done|].
      exists (head ++ before), (after ++ line). split; [|apply in_app_iff; by right].
      rewrite E, <- !app_assoc. reflexivity.
    - destruct (Hline _ H). }
  assert (Hconv : forall ev, In ev (convert_events env image_path None) ->
            match ev with Call (OpSave _ _ _ _) _ => False | _ => True end).
  { intros ev H. by apply in_convert_events in H as [_ ->]. }
  destruct out as [e|sz t|sz e].
  { destruct Hin as [H|[]]. discriminate H. }
  2:{ destruct Hin as [H|[H|[]]]; discriminate H. }
  destruct t as [e|e|done item rest step e|]; cbn [possible try_possible] in Hp.
  - cbn in Hin. destruct Hin as [H|[H|[H|[H|[]]]]]; discriminate H.
  - cbn in Hin. destruct Hin as [H|[H|[H|[H|[H|[]]]]]]; discriminate H.
  - cbn [optimize_events try_events try_result] in Hin |- *.
    set (head := [Call (OpGetsize image_path) None;
                  Print (MsgOptimizing (stem env image_path) sz);
                  Call (OpImageOpen image_path) None]
                 ++ convert_events env image_path None).
    set (l := sizes_events env image_path root done ++
              size_events env root (stem env image_path) (working_image env image_path)
                item (Some (step, e))).
    assert (E : [Call (OpGetsize image_path) None;
                 Print (MsgOptimizing (stem env image_path) sz)] ++
                (Call (OpImageOpen image_path) None
                 :: convert_events env image_path None ++ l) ++ [Print (MsgError e)] =
                head ++ l ++ [Print (MsgError e)]).
    { subst head. cbn [app]. by rewrite <- !app_assoc. }
    subst l. rewrite E in Hin |- *.
    apply Hwrap; [| |exact Hin|].
    + intros ev H. apply in_app_or in H as [H|H]; [|by apply Hconv].
      destruct H as [<-|[<-|[<-|[]]]]; exact I.
    + intros ev [<-|[]]. exact I.
    + apply (save_after_thumbnail_loop env image_path root catalog done).
      * intros it Hit. rewrite Hp. apply in_app_iff. by left.
      * right. exists item, (Some (step, e)). split; [|reflexivity].
        rewrite Hp. apply in_app_iff. right. by left.
  - cbn [optimize_events try_events try_result] in Hin |- *.
    set (head := [Call (OpGetsize image_path) None;
                  Print (MsgOptimizing (stem env image_path) sz);
                  Call (OpImageOpen image_path) None]
                 ++ convert_events env image_path None).
    assert (E : [Call (OpGetsize image_path) None;
                 Print (MsgOptimizing (stem env image_path) sz)] ++
                (Call (OpImageOpen image_path) None
                 :: convert_events env image_path None
                 ++ sizes_events env image_path root catalog) ++ [] =
                head ++ (sizes_events env image_path root catalog ++ []) ++ []).
    { subst head. cbn [app]. by rewrite <- !app_assoc, !app_nil_r. }
    rewrite E in Hin |- *.
    apply Hwrap; [| |exact Hin|].
    + intros ev H. apply in_app_or in H as [H|H]; [|by apply Hconv].
      destruct H as [<-|[<-|[<-|[]]]]; exact I.
    + intros ev [].
    + apply (save_after_thumbnail_loop env image_path root catalog catalog);
        [done | by left].
Qed.

(** The run of [optimize_image], with its log. *)
Lemma optimize_image_closed env image_path st :
  exists out,
    possible env image_path out (sizes_config (self st)) /\
    fst (optimize_image env image_path st) = optimize_result out /\
    snd (optimize_image env image_path st) = after_optimize env image_path out st /\
    log (snd (optimize_image env image_path st)) =
      log st ++ optimize_events env image_path (optimized_folder (self st))
                  (sizes_config (self st)) out.
Proof.
  destruct (optimize_image_run env image_path st) as (out & Hp & _ & E).
  exists out. rewrite E. cbn [fst snd]. repeat split; [exact Hp|].
  apply log_after_optimize.
Qed.

(** The same, with what the environment did. *)
Lemma optimize_image_caused env image_path st :
  exists out,
    possible env image_path out (sizes_config (self st)) /\
    caused env image_path (length (log st)) out /\
    fst (optimize_image env image_path st) = optimize_result out /\
    snd (optimize_image env image_path st) = after_optimize env image_path out st /\
    log (snd (optimize_image env image_path st)) =
      log st ++ optimize_events env image_path (optimized_folder (self st))
                  (sizes_config (self st)) out.
Proof.
  destruct (optimize_image_run env image_path st) as (out & Hp & Hc & E).
  exists out. rewrite E. cbn [fst snd]. repeat split; [exact Hp | exact Hc |].
  apply log_after_optimize.
Qed.

Lemma artifact_paths_length pf root stem_ catalog :
  length (artifact_paths pf root stem_ catalog) = (length catalog * 2)%nat.
Proof. induction catalog as [|item catalog IH]; simpl; [done|]. by rewrite IH. Qed.

(** Where the six artifacts of the default catalog go. *)
Lemma default_artifact_path pf root stem_ name enc :
  In name (map fst default_sizes_config) ->
  no_sep pf stem_ = true ->
  artifact_path pf root stem_ name enc =
    dir_prefix pf root +:+ name +:+ String (sep pf) (stem_ +:+ extension enc).
Proof.
  intros Hname Hstem. unfold artifact_path.
  assert (Hext : starts_with_sep pf (extension enc) = false) by (by destruct enc, pf).
  pose proof (starts_with_sep_app pf stem_ (extension enc) Hstem Hext) as Hfile.
  simpl in Hname.
  destruct Hname as [<-|[<-|[<-|[]]]];
    (rewrite join3_relative; [reflexivity | by destruct pf .. | exact Hfile]).
Qed.

Lemma init_optimized_folder env repo :
  dir_prefix (platform env) (optimized_folder (init env repo)) =
  optimized_folder (init env repo) +:+ String (sep (platform env)) "".
Proof.
  unfold init, optimized_folder, join3.
  rewrite join3_relative by (by destruct (platform env)).
  unfold dir_prefix at 1.
  rewrite is_empty_app by (by rewrite is_empty_app).
  rewrite ends_with_sep_app by (by rewrite is_empty_app).
  rewrite ends_with_sep_app by done.
  by destruct (platform env).
Qed.

Lemma default_artifact_paths_NoDup pf root stem_ :
  no_sep pf stem_ = true ->
  NoDup (artifact_paths pf root stem_ default_sizes_config).
Proof.
  intros Hstem. unfold artifact_paths, default_sizes_config, profile_paths.
  cbn [flat_map app fst].
  rewrite !default_artifact_path by (simpl; tauto).
  assert (Hinj : forall a b : string,
    dir_prefix pf root +:+ a = dir_prefix pf root +:+ b -> a = b)
    by (intros a b; apply append_inv_head).
  assert (Hext : stem_ +:+ ".webp" <> stem_ +:+ ".jpg").
  { intros H. apply append_inv_head in H. discriminate. }
  repeat (apply NoDup_cons; split;
    [ rewrite ?elem_of_cons, elem_of_nil;
      intros H; repeat (destruct H as [H|H]); try contradiction;
      apply Hinj in H; simpl in H; try discriminate H;
      injection H as H; congruence
    | ]).
  apply NoDup_nil_2.
Qed.

(** The shape of the log of a run. *)

Lemma quiet_sizes_events env image_path root items :
  forallb quiet (sizes_events env image_path root items) = true.
Proof.
  induction items as [|item items IH]; [reflexivity|].
  unfold sizes_events in *. cbn [flat_map]. rewrite forallb_app, IH. reflexivity.
Qed.

Lemma quiet_convert_events env image_path :
  forallb quiet (convert_events env image_path None) = true.
Proof. unfold convert_events. by destruct (mode_needs_convert _). Qed.

Lemma size_events_failed env root filename img item step e :
  exists pre op,
    is_codec_op op = true /\
    size_events env root filename img item (Some (step, e)) = pre ++ [Call op (Some e)] /\
    forallb quiet pre = true.
Proof.
  destruct step; cbn [size_events].
  - by exists [], (OpCopy img).
  - by exists [ev_copy img None], (OpThumbnail img (cfg_size (snd item))).
  - eexists [ev_copy img None; ev_thumbnail img item None], _.
    split; [|split; [reflexivity|reflexivity]]. reflexivity.
  - eexists [ev_copy img None; ev_thumbnail img item None; _], _.
    split; [|split; [reflexivity|reflexivity]]. reflexivity.
Qed.

Lemma optimize_events_shape env image_path root catalog out :
  let delta := optimize_events env image_path root catalog out in
  match optimize_result out with
  | Ok true => forallb quiet delta = true
  | Ok false =>
      exists pre op e,
        is_codec_op op = true /\
        delta = pre ++ [Call op (Some e); Print (MsgError e)] /\
        forallb quiet pre = true
  | Raise e =>
      exists pre op,
        unguarded op = true /\
        delta = pre ++ [Call op (Some e)] /\
        forallb quiet pre = true
  end.
Proof.
  destruct out as [e|sz [e|e|done item rest step e|]|sz e]; cbn [optimize_result try_result].
  6:{ by exists [Call (OpGetsize image_path) None], (OpStdout (stem env image_path)). }
  - by exists [], (OpGetsize image_path).
  - by exists [Call (OpGetsize image_path) None;
               Print (MsgOptimizing (stem env image_path) sz)],
        (OpImageOpen image_path), e.
  - by exists [Call (OpGetsize image_path) None;
               Print (MsgOptimizing (stem env image_path) sz);
               Call (OpImageOpen image_path) None],
        (OpConvert (img0 env image_path) "RGB"), e.
  - destruct (size_events_failed env root (stem env image_path)
                (working_image env image_path) item step e) as (pre & op & Hop & E & Hq).
    exists ([Call (OpGetsize image_path) None;
             Print (MsgOptimizing (stem env image_path) sz);
             Call (OpImageOpen image_path) None]
            ++ convert_events env image_path None
            ++ sizes_events env image_path root done ++ pre), op, e.
    split; [exact Hop|]. split.
    + cbn [optimize_events try_events try_result]. rewrite E.
      cbn [app]. by rewrite <- !app_assoc.
    + cbn [app forallb quiet raised negb andb].
      by rewrite !forallb_app, quiet_convert_events, quiet_sizes_events, Hq.
  - cbn [optimize_events try_events try_result].
    cbn [app forallb quiet raised negb andb].
    by rewrite !forallb_app, quiet_convert_events, quiet_sizes_events.
Qed.

Lemma quiet_not_raised l op e :
  forallb quiet l = true -> ~ In (Call op (Some e)) l.
Proof.
  intros Hq Hin. rewrite forallb_forall in Hq. apply Hq in Hin. discriminate Hin.
Qed.

Lemma saved_short env image_path root catalog out :
  possible env image_path out catalog -> catalog <> [] ->
  optimize_result out <> Ok true ->
  (length (saved_paths (optimize_events env image_path root catalog out)) <
   length (artifact_paths (platform env) root (stem env image_path) catalog))%nat.
Proof.
  intros Hp Hne Hres. rewrite saved_paths_optimize, length_app, !artifact_paths_length.
  assert (Hpos : (0 < length catalog)%nat) by (destruct catalog; [done | simpl; lia]).
  destruct out as [e|sz [e|e|done item rest step e|]|sz e];
    cbn [completed unrecorded length]; try lia.
  - cbn [possible try_possible] in Hp. subst catalog.
    rewrite length_app. cbn [length]. destruct step; cbn [length]; lia.
  - by destruct Hres.
Qed.

Lemma split_after_prefix (P : Event -> bool) (l1 l2 pre : list Event) x post :
  forallb (fun ev => negb (P ev)) l1 = true -> P x = true ->
  l1 ++ l2 = pre ++ x :: post ->
  exists pre', pre = l1 ++ pre' /\ l2 = pre' ++ x :: post.
Proof.
  revert pre. induction l1 as [|a l1 IH]; intros pre Hl1 Hx E.
  - by exists pre.
  - cbn [forallb] in Hl1. apply andb_true_iff in Hl1 as [Ha Hl1].
    destruct pre as [|b pre]; cbn [app] in E.
    + injection E as -> _. rewrite Hx in Ha. discriminate Ha.
    + injection E as <- E. destruct (IH pre Hl1 Hx E) as (pre' & -> & ->).
      by exists pre'.
Qed.

Lemma size_events_work env root filename img item fail :
  works_on env img (size_events env root filename img item fail).
Proof.
  intros ev. destruct fail as [[[] e]|]; simpl; intros H;
    repeat (destruct H as [<-|H]; [first [reflexivity | exact I | by eexists]|]);
    contradiction.
Qed.

Lemma size_events_head env root filename img item fail :
  exists r rest, size_events env root filename img item fail = Call (OpCopy img) r :: rest.
Proof. destruct fail as [[[] e]|]; by eexists; eexists. Qed.

(** The events of the loop over the catalog, complete or cut short. *)
Lemma loop_events_facts env image_path root done tail :
  (tail = [] \/
   exists item fail,
     tail = size_events env root (stem env image_path) (working_image env image_path)
              item fail) ->
  let l := sizes_events env image_path root done ++ tail in
  let work := working_image env image_path in
  (forall ev, In ev l ->
     exists item fail,
       In ev (size_events env root (stem env image_path) work item fail)) /\
  (l <> [] -> exists r rest, l = Call (OpCopy work) r :: rest).
Proof.
  intros Htail l work. split.
  - intros ev Hin. apply in_app_or in Hin as [Hin|Hin].
    + unfold sizes_events in Hin. apply in_flat_map in Hin as (it & _ & Hin).
      by exists it, None.
    + destruct Htail as [->|(item & fail & ->)]; [destruct Hin|]. by exists item, fail.
  - intros Hne. subst l. destruct done as [|it done].
    + cbn [sizes_events flat_map app] in *.
      destruct Htail as [->|(item & fail & ->)]; [done|]. apply size_events_head.
    + unfold sizes_events. cbn [flat_map].
      destruct (size_events_head env root (stem env image_path) work it None)
        as (r & rest & E).
      fold work. rewrite E. cbn [app]. by eexists; eexists.
Qed.

Lemma mode_needs_convert_iff im :
  mode_needs_convert im = true <->
  mode im = "RGBA" \/ mode im = "LA" \/ mode im = "P".
Proof.
  unfold mode_needs_convert. cbn [existsb]. rewrite orb_false_r, !orb_true_iff.
  by rewrite !String.eqb_eq.
Qed.

Lemma working_image_size env image_path :
  width (working_image env image_path) = width (decoded env image_path) /\
  height (working_image env image_path) = height (decoded env image_path).
Proof.
  unfold working_image, img0. by destruct (mode_needs_convert _).
Qed.

(** The closed form of [git_commit_and_push]. *)

Ltac case_run_eq e H :=
  match goal with
  | |- context [match fault ?en ?t ?op with _ => _ end] =>
      destruct (fault en t op) as [e|] eqn:H
  | |- context [if negb (?rc =? 0) then _ else _] =>
      destruct (rc =? 0) eqn:H; cbn [negb]
  | |- context [if (?rc =? 0) then _ else _] =>
      destruct (rc =? 0) eqn:H
  end.

Ltac publish_leaf :=
  split; [|run_monad; unfold after_publish; cbn; by rewrite <- ?app_assoc];
  unfold publish_caused, run_raises; cbn [self];
  repeat match goal with
         | H : fault _ _ _ = _ |- _ => rewrite H; clear H
         | H : (_ =? _) = _ |- _ => rewrite H; clear H
         end;
  repeat split.

Ltac publish_step e H :=
  run_monad; cbn [andb];
  rewrite ?length_app; cbn [length]; rewrite <- ?Nat.add_assoc; cbn [Nat.add];
  case_run_eq e H.

Lemma git_commit_and_push_caused env st :
  exists out,
    publish_caused env (self st) (length (log st)) out /\
    git_commit_and_push env st = (Ok (publish_result out), after_publish out st).
Proof.
  destruct st as [o dir fs l].
  unfold git_commit_and_push, git_commit_and_push_try, subprocess_run.
  publish_step e H1.
  { exists (PublishRaised AtChdir e). destruct e; publish_leaf. }
  publish_step e H2.
  { exists (PublishRaised AtAddOutput e). destruct e; publish_leaf. }
  publish_step e H2'.
  2:{ eexists (PublishRaised AtAddOutput (CalledProcessError _ _)). publish_leaf. }
  publish_step e H3.
  { exists (PublishRaised AtAddIgnore e). destruct e; publish_leaf. }
  publish_step e H3'.
  2:{ eexists (PublishRaised AtAddIgnore (CalledProcessError _ _)). publish_leaf. }
  publish_step e H4.
  { exists (PublishRaised AtCommit e). destruct e; publish_leaf. }
  publish_step e H4'.
  2:{ eexists (PublishRaised AtCommit (CalledProcessError _ _)). publish_leaf. }
  publish_step e H5.
  { exists (PublishRaised AtPush e). destruct e; publish_leaf. }
  publish_step e H5'.
  - exists Pushed. pose proof (proj1 (Z.eqb_eq _ _) H5'). publish_leaf. done.
  - eexists (PushRejected _). pose proof (proj1 (Z.eqb_neq _ _) H5'). publish_leaf. done.
Qed.

Lemma git_commit_and_push_run env st :
  exists out,
    git_commit_and_push env st = (Ok (publish_result out), after_publish out st).
Proof.
  destruct (git_commit_and_push_caused env st) as (out & _ & E). by exists out.
Qed.

Lemma git_commit_and_push_closed env st :
  exists out,
    fst (git_commit_and_push env st) = Ok (publish_result out) /\
    snd (git_commit_and_push env st) = after_publish out st.
Proof.
  destruct (git_commit_and_push_run env st) as [out E]. exists out. by rewrite E.
Qed.

Lemma commit_messages_publish o out msg :
  In msg (commit_messages (publish_events o out)) ->
  msg = commit_message (length (processed_files o)).
Proof.
  destruct out as [[] [argv rc|msg0]| |]; cbn; intros H;
    try contradiction; by destruct H as [<-|[]].
Qed.

(** What a method may append to the log. *)

Section Emits.
Variable P : Event -> bool.

Lemma emits_ret {A} (a : A) : emits P (ret a).
Proof. intros st. exists []. by rewrite app_nil_r. Qed.

Lemma emits_gets {A} (f : State -> A) : emits P (gets f).
Proof. intros st. exists []. by rewrite app_nil_r. Qed.

Lemma emits_bind {A B} (m : M A) (k : A -> M B) :
  emits P m -> (forall a, emits P (k a)) -> emits P (bind m k).
Proof.
  intros Hm Hk st. unfold bind.
  destruct (Hm st) as (d1 & E1 & H1).
  destruct (m st) as [[a|e] st1]; cbn [snd] in E1.
  - destruct (Hk a st1) as (d2 & E2 & H2).
    exists (d1 ++ d2). rewrite E2, E1, app_assoc, forallb_app, H1, H2. by split.
  - by exists d1.
Qed.

Lemma emits_try_except {A} (m : M A) (h : exn -> M A) :
  emits P m -> (forall e, emits P (h e)) -> emits P (try_except m h).
Proof.
  intros Hm Hh st. unfold try_except.
  destruct (Hm st) as (d1 & E1 & H1).
  destruct (m st) as [[a|e] st1]; cbn [snd] in E1.
  - by exists d1.
  - destruct (Hh e st1) as (d2 & E2 & H2).
    exists (d1 ++ d2). rewrite E2, E1, app_assoc, forallb_app, H1, H2. by split.
Qed.

Lemma emits_for_each {A} (l : list A) (body : A -> M unit) :
  (forall x, emits P (body x)) -> emits P (for_each l body).
Proof.
  intros Hb. induction l as [|x l IH]; [apply emits_ret|].
  cbn [for_each]. apply emits_bind; [apply Hb | intros _; exact IH].
Qed.

Lemma emits_print m : P (Print m) = true -> emits P (print m).
Proof. intros H st. exists [Print m]. cbn. by rewrite H. Qed.

Lemma emits_state (f : State -> State) :
  (forall st, log (f st) = log st) -> emits P (fun st => (Ok tt, f st)).
Proof. intros H st. exists []. cbn. by rewrite H, app_nil_r. Qed.

Hypothesis calls : forall op r, P (Call op r) = true.

Lemma emits_call env op : emits P (call env op).
Proof.
  intros st. unfold call.
  destruct (fault env _ op) as [e|]; eexists [_]; cbn; by rewrite calls.
Qed.

Lemma emits_ask {A} op (answer : nat -> A) : emits P (ask op answer).
Proof. intros st. exists [Call op None]. cbn. by rewrite calls. Qed.

Lemma emits_print_name env name m :
  P (Print m) = true -> emits P (print_name env name m).
Proof.
  intros H st. unfold print_name.
  destruct (fault env _ _) as [e|]; eexists [_]; cbn [snd log log_event forallb];
    (split; [reflexivity|]); by rewrite ?calls, ?H.
Qed.

Lemma emits_listdir env p : emits P (os_listdir env p).
Proof.
  intros st. unfold os_listdir.
  destruct (emits_bind (call env (OpListdir p))
              (fun _ => ret (listdir_result env (length (log st)) p))
              (emits_call env _) (fun _ => emits_ret _) st) as (d & E & H).
  by exists d.
Qed.

Lemma emits_setup env :
  P (Print MsgSetupStart) = true -> P (Print MsgSetupDone) = true ->
  emits P (setup_git_structure env).
Proof.
  intros H1 H2. unfold setup_git_structure, os_makedirs, write_text.
  repeat first
    [ apply emits_bind; [|intros ?]
    | apply emits_for_each; intros ?
    | apply emits_print; assumption
    | apply emits_gets
    | apply emits_call
    | apply (emits_state (fun st => mkState (self st) (cwd st) (<[_ := _]> (files st)) (log st)));
      reflexivity ].
Qed.

Lemma emits_move env :
  P (Print MsgMoving) = true -> P (Print MsgLegacyRemoved) = true ->
  (forall f, P (Print (MsgMoved f)) = true) ->
  (forall f e, P (Print (MsgMoveError f e)) = true) ->
  emits P (move_existing_images env).
Proof.
  intros H1 H2 H3 H4.
  unfold move_existing_images, os_path_exists, glob_glob, os_rename, os_rmdir.
  apply emits_bind; [apply emits_gets | intros o].
  apply emits_bind; [apply emits_ask | intros found].
  destruct found; [|apply emits_ret].
  apply emits_bind; [by apply emits_print | intros _].
  apply emits_bind; [apply emits_ask | intros image_files].
  apply emits_bind.
  - apply emits_for_each. intros image_path.
    apply emits_try_except.
    + apply emits_bind; [apply emits_call | intros _]. by apply emits_print_name.
    + intros e. by apply emits_print_name.
  - intros _. apply emits_try_except; [|intros _; apply emits_ret].
    apply emits_bind; [apply emits_listdir | intros entries].
    destruct entries; [|apply emits_ret].
    apply emits_bind; [apply emits_call | intros _]. by apply emits_print.
Qed.

End Emits.

Lemma count_app f l1 l2 : count f (l1 ++ l2) = (count f l1 + count f l2)%nat.
Proof. unfold count. by rewrite List.filter_app, length_app. Qed.

Lemma count_background l :
  forallb background l = true ->
  count is_optimizing l = 0%nat /\ count is_error l = 0%nat /\
  publish_invoked l = false.
Proof.
  induction l as [|ev l IH]; [done|].
  cbn [forallb]. intros H. apply andb_true_iff in H as [Hev Hl].
  destruct (IH Hl) as (H1 & H2 & H3).
  change (ev :: l) with ([ev] ++ l).
  rewrite !count_app, H1, H2. unfold publish_invoked in *. cbn [existsb app].
  rewrite H3. by destruct ev as [op r|[]].
Qed.

Lemma background_size_events env root filename img item fail :
  forallb background (size_events env root filename img item fail) = true.
Proof. by destruct fail as [[[] e]|]. Qed.

Lemma background_try_events env image_path root catalog t :
  forallb background (try_events env image_path root catalog t) = true.
Proof.
  assert (Hs : forall items,
            forallb background (sizes_events env image_path root items) = true).
  { induction items as [|item items IH]; [done|].
    unfold sizes_events in *. cbn [flat_map].
    by rewrite forallb_app, IH, background_size_events. }
  assert (Hc : forallb background (convert_events env image_path None) = true).
  { unfold convert_events. by destruct (mode_needs_convert _). }
  destruct t as [e|e|done item rest step e|]; cbn [try_events forallb background andb];
    rewrite ?forallb_app, ?Hc, ?Hs, ?background_size_events; reflexivity.
Qed.

(** What the log of one source tells. *)
Lemma optimize_events_counts env image_path root catalog out :
  let delta := optimize_events env image_path root catalog out in
  publish_invoked delta = false /\
  match optimize_result out with
  | Ok true => count is_optimizing delta = 1%nat /\ count is_error delta = 0%nat
  | Ok false => count is_optimizing delta = 1%nat /\ count is_error delta = 1%nat
  | Raise _ => count is_optimizing delta = 0%nat /\ count is_error delta = 0%nat
  end.
Proof.
  destruct out as [e|sz t|sz e]; [done| |done].
  cbn [optimize_events optimize_result].
  pose proof (background_try_events env image_path root catalog t) as Hb.
  apply count_background in Hb as (H1 & H2 & H3).
  unfold publish_invoked in *. rewrite !existsb_app, H3, !count_app, H1, H2.
  by destruct t.
Qed.

Lemma publish_invoked_app l1 l2 :
  publish_invoked (l1 ++ l2) = publish_invoked l1 || publish_invoked l2.
Proof. apply existsb_app. Qed.

Lemma process_loop_step env image_path rest k st :
  process_loop env (image_path :: rest) k st =
  match optimize_image env image_path st with
  | (Ok ok, st1) => process_loop env rest (if ok then S k else k) st1
  | (Raise e, st1) => (Raise e, st1)
  end.
Proof. reflexivity. Qed.

(** The loop of [process_all_images]: what it logs and what it counts. *)
Lemma process_loop_log env image_files : forall k st,
  let res := process_loop env image_files k st in
  exists delta,
    log (snd res) = log st ++ delta /\
    publish_invoked delta = false /\
    (count is_error delta <= count is_optimizing delta)%nat /\
    match fst res with
    | Ok k' =>
        k' = (k + (count is_optimizing delta - count is_error delta))%nat /\
        count is_optimizing delta = length image_files
    | Raise _ => True
    end.
Proof.
  induction image_files as [|image_path rest IH]; intros k st res.
  { exists []. subst res. cbn. rewrite app_nil_r. repeat split; lia. }
  subst res. rewrite process_loop_step.
  destruct (optimize_image_closed env image_path st) as (out & _ & Hres & _ & Hlog).
  pose proof (optimize_events_counts env image_path (optimized_folder (self st))
                (sizes_config (self st)) out) as (Hpub & Hcount).
  set (d1 := optimize_events env image_path (optimized_folder (self st))
               (sizes_config (self st)) out) in *.
  rewrite <- Hres in Hcount.
  destruct (optimize_image env image_path st) as [[ok|e] st1]; cbn [fst snd] in *.
  - destruct (IH (if ok then S k else k) st1) as (d2 & E2 & Hpub2 & Hle & Hk).
    exists (d1 ++ d2). rewrite E2, Hlog, app_assoc.
    rewrite publish_invoked_app, Hpub, Hpub2, !count_app.
    split; [reflexivity|]. split; [reflexivity|].
    destruct (fst (process_loop env rest (if ok then S k else k) st1)) as [k'|e];
      destruct ok; cbn [length]; lia.
  - exists d1. rewrite Hlog. repeat split; [exact Hpub | lia].
Qed.

Lemma process_all_images_log env st :
  let res := process_all_images env st in
  exists delta,
    log (snd res) = log st ++ delta /\
    publish_invoked delta = false /\
    (count is_error delta <= count is_optimizing delta)%nat /\
    match fst res with
    | Ok processed => processed = (0 <? succeeded_sources delta)%nat
    | Raise _ => True
    end.
Proof.
  intros res. subst res. unfold process_all_images, glob_glob.
  run_steps.
  set (image_files := glob_result env _ _).
  destruct image_files as [|image_path rest] eqn:Hfiles.
  { run_steps. eexists [_; _; _]. rewrite <- !app_assoc. by repeat split. }
  rewrite <- Hfiles. clear Hfiles. run_steps.
  match goal with |- context [process_loop env image_files 0%nat ?s] =>
    set (st2 := s) end.
  destruct (process_loop_log env image_files 0%nat st2) as (d & E & Hpub & Hle & Hk).
  destruct (process_loop env image_files 0%nat st2) as [[k|e] st3]; cbn [fst snd] in *.
  - run_steps.
    exists ([Print MsgProcessingStart;
             Call (OpGlob (join env (original_folder (self st)) "*.png")) None;
             Print (MsgFound (length image_files))] ++ d
            ++ [Print (MsgProcessed k (length image_files))]).
    rewrite E. subst st2. cbn [log].
    rewrite <- !app_assoc. split; [reflexivity|].
    unfold succeeded_sources.
    rewrite !publish_invoked_app, !count_app, Hpub.
    destruct Hk as [-> _]. cbn. repeat split; try lia.
    by rewrite !Nat.add_0_r.
  - exists ([Print MsgProcessingStart;
             Call (OpGlob (join env (original_folder (self st)) "*.png")) None;
             Print (MsgFound (length image_files))] ++ d).
    rewrite E. subst st2. cbn [log].
    rewrite <- !app_assoc. split; [reflexivity|].
    rewrite !publish_invoked_app, !count_app, Hpub. cbn. repeat split; lia.
Qed.

Lemma bind_unfold {A B} (m : M A) (k : A -> M B) st :
  bind m k st =
  match m st with
  | (Ok a, st') => k a st'
  | (Raise e, st') => (Raise e, st')
  end.
Proof. reflexivity. Qed.

Lemma background_publish o out :
  count is_optimizing (publish_events o out) = 0%nat /\
  count is_error (publish_events o out) = 0%nat /\
  publish_invoked (publish_events o out) = true.
Proof. by destruct out as [[] [argv rc|msg]| |]. Qed.

Lemma emits_setup_background env : emits background (setup_git_structure env).
Proof. by apply emits_setup. Qed.

Lemma emits_move_background env : emits background (move_existing_images env).
Proof. by apply emits_move. Qed.

(** Which methods let no exception escape. *)

(** What a method appends to the log, event by event and time by time. *)

Section Traced.
Variable env : Env.
Variable Q : nat -> Event -> Prop.
Hypothesis Q_print : forall t m, Q t (Print m).
Hypothesis Q_call : forall t op, Q t (Call op (fault env t op)).
Hypothesis Q_name : forall t name r, Q t (Call (OpStdout name) r).
Hypothesis Q_getsize : forall t p r, Q t (Call (OpGetsize p) r).

Lemma traced_silent {A} (m : M A) :
  (forall st, log (snd (m st)) = log st) -> traced Q m.
Proof.
  intros H st. exists []. rewrite app_nil_r. split; [apply H|].
  intros i ev Hi. discriminate Hi.
Qed.

Lemma traced_one {A} (m : M A) :
  (forall st, exists ev,
     log (snd (m st)) = log st ++ [ev] /\ Q (length (log st)) ev) ->
  traced Q m.
Proof.
  intros H st. destruct (H st) as (ev & E & HQ). exists [ev]. split; [exact E|].
  intros [|i] ev' Hi; [|discriminate Hi]. injection Hi as <-.
  by rewrite Nat.add_0_r.
Qed.

Lemma traced_append st d1 d2 :
  (forall i ev, d1 !! i = Some ev -> Q (length (log st) + i)%nat ev) ->
  (forall i ev, d2 !! i = Some ev -> Q (length (log st ++ d1) + i)%nat ev) ->
  forall i ev, (d1 ++ d2) !! i = Some ev -> Q (length (log st) + i)%nat ev.
Proof.
  intros H1 H2 i ev Hi. apply lookup_app_Some in Hi as [Hi|[Hle Hi]].
  - by apply H1.
  - apply H2 in Hi. rewrite length_app in Hi.
    by replace (length (log st) + length d1 + (i - length d1))%nat
         with (length (log st) + i)%nat in Hi by lia.
Qed.

Lemma traced_bind {A B} (m : M A) (k : A -> M B) :
  traced Q m -> (forall a, traced Q (k a)) -> traced Q (bind m k).
Proof.
  intros Hm Hk st. unfold bind.
  destruct (Hm st) as (d1 & E1 & H1).
  destruct (m st) as [[a|e] st1]; cbn [snd] in E1.
  - destruct (Hk a st1) as (d2 & E2 & H2).
    exists (d1 ++ d2). split; [by rewrite E2, E1, app_assoc|].
    apply traced_append; [exact H1|]. by rewrite <- E1.
  - by exists d1.
Qed.

Lemma traced_try_except {A} (m : M A) (h : exn -> M A) :
  traced Q m -> (forall e, traced Q (h e)) -> traced Q (try_except m h).
Proof.
  intros Hm Hh st. unfold try_except.
  destruct (Hm st) as (d1 & E1 & H1).
  destruct (m st) as [[a|e] st1]; cbn [snd] in E1.
  - by exists d1.
  - destruct (Hh e st1) as (d2 & E2 & H2).
    exists (d1 ++ d2). split; [by rewrite E2, E1, app_assoc|].
    apply traced_append; [exact H1|]. by rewrite <- E1.
Qed.

Lemma traced_for_each {A} (l : list A) (body : A -> M unit) :
  (forall x, traced Q (body x)) -> traced Q (for_each l body).
Proof.
  intros Hb. induction l as [|x l IH]; [by apply traced_silent|].
  cbn [for_each]. apply traced_bind; [apply Hb | intros _; exact IH].
Qed.

Lemma traced_print m : traced Q (print m).
Proof. apply traced_one. intros st. by exists (Print m). Qed.

Lemma traced_call op : traced Q (call env op).
Proof.
  apply traced_one. intros st. unfold call.
  pose proof (Q_call (length (log st)) op) as H.
  destruct (fault env _ op) as [e|]; eexists; by split.
Qed.

Lemma traced_print_name name m : traced Q (print_name env name m).
Proof.
  apply traced_one. intros st. unfold print_name.
  destruct (fault env _ _) as [e|]; eexists; by split.
Qed.

Lemma traced_getsize p : traced Q (os_path_getsize env p).
Proof.
  intros st. unfold os_path_getsize. destruct (files st !! p) as [f|].
  - exists [Call (OpGetsize p) None]. split; [reflexivity|].
    intros [|i] ev Hi; [|discriminate Hi]. injection Hi as <-. apply Q_getsize.
  - apply traced_bind; [apply traced_call | intros _; by apply traced_silent].
Qed.

Lemma traced_optimize_size filename img item :
  traced Q (optimize_size env filename img item).
Proof.
  destruct item as [name cfg].
  unfold optimize_size, Image_copy, Image_thumbnail, Image_save.
  repeat first
    [ apply traced_bind; [|intros ?]
    | apply traced_print
    | apply traced_call
    | apply traced_getsize
    | by apply traced_silent ].
Qed.

Lemma traced_optimize_image p : traced Q (optimize_image env p).
Proof.
  unfold optimize_image, optimize_image_try, Image_open, Image_convert.
  apply traced_bind; [apply traced_getsize | intros sz].
  apply traced_bind; [apply traced_print_name | intros _].
  apply traced_try_except.
  - apply traced_bind.
    { apply traced_bind; [apply traced_call | intros _; by apply traced_silent]. }
    intros img. apply traced_bind.
    { destruct (mode_needs_convert img); [|by apply traced_silent].
      apply traced_bind; [apply traced_call | intros _; by apply traced_silent]. }
    intros img'. apply traced_bind; [by apply traced_silent | intros o].
    apply traced_bind; [|intros _; by apply traced_silent].
    apply traced_for_each. intros item. apply traced_optimize_size.
  - intros e. apply traced_bind; [apply traced_print | intros _; by apply traced_silent].
Qed.

End Traced.

(** A run of [optimize_image] logs, for every call into the image
    library, what the environment had it raise at that time. *)
Lemma optimize_image_as_the_library_says env image_path :
  traced (as_the_library_says env) (optimize_image env image_path).
Proof.
  apply (traced_optimize_image env); intros; cbn; try done.
Qed.

Section Returns.

Lemma returns_ret {A} (a : A) : returns (ret a).
Proof. intros st. by exists a. Qed.

Lemma returns_gets {A} (f : State -> A) : returns (gets f).
Proof. intros st. by eexists. Qed.

Lemma returns_print m : returns (print m).
Proof. intros st. by exists tt. Qed.

Lemma returns_ask {A} op (answer : nat -> A) : returns (ask op answer).
Proof. intros st. by eexists. Qed.

Lemma returns_bind {A B} (m : M A) (k : A -> M B) :
  returns m -> (forall a, returns (k a)) -> returns (bind m k).
Proof.
  intros Hm Hk st. unfold bind. destruct (Hm st) as [a Ha].
  destruct (m st) as [r st1]. cbn [fst] in Ha. subst r. apply Hk.
Qed.

Lemma returns_try_except {A} (m : M A) (h : exn -> M A) :
  (forall e, returns (h e)) -> returns (try_except m h).
Proof.
  intros Hh st. unfold try_except.
  destruct (m st) as [[a|e] st1]; [by exists a | apply Hh].
Qed.

Lemma returns_for_each {A} (l : list A) (body : A -> M unit) :
  (forall x, returns (body x)) -> returns (for_each l body).
Proof.
  intros Hb. induction l as [|x l IH]; [apply returns_ret|].
  cbn [for_each]. apply returns_bind; [apply Hb | intros _; exact IH].
Qed.

Variable env : Env.
Hypothesis guarded_faults_only :
  forall t op, unguarded op = true -> fault env t op = None.

Lemma returns_call op : unguarded op = true -> returns (call env op).
Proof.
  intros Hop st. unfold call. rewrite guarded_faults_only by exact Hop. by exists tt.
Qed.

Lemma returns_print_name name m : returns (print_name env name m).
Proof.
  intros st. unfold print_name. rewrite guarded_faults_only by reflexivity. by exists tt.
Qed.

Lemma returns_getsize p : returns (os_path_getsize env p).
Proof.
  intros st. unfold os_path_getsize.
  destruct (files st !! p); [by eexists|].
  apply (returns_bind (call env (OpGetsize p)) (fun _ => ret (source_size env p)));
    [by apply returns_call | intros _; apply returns_ret].
Qed.

Lemma returns_setup : returns (setup_git_structure env).
Proof.
  unfold setup_git_structure, os_makedirs, write_text.
  repeat first
    [ apply returns_bind; [|intros ?]
    | apply returns_for_each; intros ?
    | apply returns_print
    | apply returns_gets
    | by apply returns_call
    | intros ?; by exists tt ].
Qed.

Lemma returns_move : returns (move_existing_images env).
Proof.
  unfold move_existing_images, os_path_exists, glob_glob.
  apply returns_bind; [apply returns_gets | intros o].
  apply returns_bind; [apply returns_ask | intros found].
  destruct found; [|apply returns_ret].
  apply returns_bind; [apply returns_print | intros _].
  apply returns_bind; [apply returns_ask | intros image_files].
  apply returns_bind.
  - apply returns_for_each. intros image_path.
    apply returns_try_except. intros e. apply returns_print_name.
  - intros _. apply returns_try_except. intros _. apply returns_ret.
Qed.

Lemma returns_optimize_image p : returns (optimize_image env p).
Proof.
  unfold optimize_image.
  apply returns_bind; [apply returns_getsize | intros sz].
  apply returns_bind; [apply returns_print_name | intros _].
  apply returns_try_except. intros e.
  apply returns_bind; [apply returns_print | intros _]. apply returns_ret.
Qed.

Lemma returns_process_loop image_files : forall k, returns (process_loop env image_files k).
Proof.
  induction image_files as [|p rest IH]; intros k; [apply returns_ret|].
  cbn [process_loop]. apply returns_bind; [apply returns_optimize_image | intros ok].
  apply IH.
Qed.

Lemma returns_process_all_images : returns (process_all_images env).
Proof.
  unfold process_all_images, glob_glob.
  apply returns_bind; [apply returns_print | intros _].
  apply returns_bind; [apply returns_gets | intros o].
  apply returns_bind; [apply returns_ask | intros image_files].
  destruct image_files as [|p rest].
  - apply returns_bind; [apply returns_print | intros _]. apply returns_ret.
  - apply returns_bind; [apply returns_print | intros _].
    apply returns_bind; [apply returns_process_loop | intros k].
    apply returns_bind; [apply returns_print | intros _]. apply returns_ret.
Qed.

Lemma returns_publish : returns (git_commit_and_push env).
Proof.
  intros st. destruct (git_commit_and_push_closed env st) as (out & H & _). by eexists.
Qed.

Lemma returns_run_full_optimization : returns (run_full_optimization env).
Proof.
  unfold run_full_optimization, update_urls_info.
  apply returns_bind; [apply returns_gets | intros o].
  apply returns_bind; [apply returns_print | intros _].
  apply returns_bind; [apply returns_setup | intros _].
  apply returns_bind; [apply returns_move | intros _].
  apply returns_bind; [apply returns_process_all_images | intros processed].
  destruct processed; [|apply returns_print].
  apply returns_bind; [apply returns_publish | intros pushed].
  apply returns_bind; [destruct pushed; apply returns_print | intros _].
  apply returns_bind; [apply returns_print | intros _; apply returns_print].
Qed.

Lemma returns_main : returns (main env).
Proof.
  unfold main, os_path_exists, set_self.
  apply returns_bind; [apply returns_ask | intros found].
  destruct found; [|apply returns_print].
  apply returns_bind; [apply returns_ask | intros is_repo].
  destruct is_repo; [|apply returns_print].
  apply returns_bind; [intros st; by exists tt | intros _].
  apply returns_run_full_optimization.
Qed.

(** Failures inside the [try] never stop the loop: when no unguarded
    call raises, every source is taken up and is counted once, as
    generated or as failed. *)
Lemma batch_isolates_failures image_files k st :
  let res := process_loop env image_files k st in
  exists delta k',
    log (snd res) = log st ++ delta /\
    fst res = Ok k' /\
    k' = (k + succeeded_sources delta)%nat /\
    (succeeded_sources delta + failed_sources delta)%nat = length image_files.
Proof.
  intros res.
  destruct (process_loop_log env image_files k st) as (delta & Hlog & _ & Hle & Hk).
  destruct (returns_process_loop image_files k st) as [k' Hk'].
  fold res in Hlog, Hk, Hk'. rewrite Hk' in Hk. destruct Hk as [-> Hn].
  exists delta. eexists. split; [exact Hlog|]. split; [exact Hk'|].
  unfold succeeded_sources, failed_sources. split; lia.
Qed.

End Returns.

End RunFacts.

(** ** The claims of the specification *)

Module Spec.
Import Paths PIL Optimizer Runs Examples PathFacts ShrinkFacts RunFacts.

(** C1.  When [optimize_image] succeeds on a source, the saves that went
    through are exactly the artifact paths of the catalog, two for each
    profile and in catalog order, each in the format of its extension and
    at the quality of its profile; their files exist afterwards, no other
    file appears, and the same paths are appended to [processed_files].
    With the catalog of [__init__] these are the six distinct paths
    [<optimized_folder>/<profile>/<stem>.webp] and [.jpg], a function of
    the stem, the profile and the encoding. *)
Theorem optimize_image_writes_every_artifact env image_path st st' :
  optimize_image env image_path st = (Ok true, st') ->
  let pf := platform env in
  let root := optimized_folder (self st) in
  let catalog := sizes_config (self st) in
  let stem_ := path_stem pf image_path in
  let paths := artifact_paths pf root stem_ catalog in
  (exists delta,
     log st' = log st ++ delta /\ saved_paths delta = paths /\
     forall im path fmt q r,
       In (Call (OpSave im path fmt q) r) delta ->
       exists item enc,
         In item catalog /\
         path = artifact_path pf root stem_ (fst item) enc /\
         fmt = format_name enc /\ q = cfg_quality (snd item)) /\
  length paths = (length catalog * 2)%nat /\
  dom (files st') = dom (files st) ∪ list_to_set paths /\
  processed_files (self st') = processed_files (self st) ++ paths /\
  (forall repo recorded,
     self st = with_processed_files (init env repo) recorded ->
     paths =
       flat_map (fun name =>
                   [root +:+ String (sep pf) (name +:+ String (sep pf) (stem_ +:+ ".webp"));
                    root +:+ String (sep pf) (name +:+ String (sep pf) (stem_ +:+ ".jpg"))])
         ["thumb"; "medium"; "large"] /\
     length paths = 6%nat /\ NoDup paths).
Proof.
  intros Hrun pf root catalog stem_ paths.
  destruct (optimize_image_closed env image_path st) as (out & Hp & Hres & Hst & Hlog).
  rewrite Hrun in Hres, Hst, Hlog. cbn [fst snd] in Hres, Hst, Hlog.
  assert (Hout : exists sz, out = Tried sz Completed).
  { destruct out as [e|sz [e|e|done item rest step e|]|sz e]; try discriminate Hres.
    by exists sz. }
  destruct Hout as [sz ->].
  assert (Hsaved : saved_paths (optimize_events env image_path root catalog
                                  (Tried sz Completed)) = paths).
  { rewrite saved_paths_optimize. cbn [completed unrecorded]. apply app_nil_r. }
  split.
  { eexists. split; [exact Hlog|]. split; [exact Hsaved|].
    intros im path fmt q r Hin.
    apply save_in_optimize_events in Hin as (item & enc & H1 & _ & H2 & H3 & H4);
      [|exact Hp].
    by exists item, enc. }
  split; [apply artifact_paths_length|].
  split.
  { rewrite Hst, dom_after_optimize. fold root catalog. by rewrite Hsaved. }
  split.
  { rewrite Hst, self_after_optimize. reflexivity. }
  intros repo recorded Hself.
  assert (Hstem : no_sep pf stem_ = true) by apply path_stem_no_sep.
  subst paths catalog root. rewrite Hself. cbn [sizes_config optimized_folder with_processed_files].
  fold (optimized_folder (init env repo)).
  change (sizes_config (init env repo)) with default_sizes_config.
  split; [|split].
  - unfold artifact_paths, default_sizes_config, profile_paths.
    cbn [flat_map app fst].
    rewrite !default_artifact_path by (simpl; tauto).
    subst pf. rewrite init_optimized_folder.
    cbn [extension]. by rewrite !app_assoc_string.
  - reflexivity.
  - by apply default_artifact_paths_NoDup.
Qed.

Lemma optimize_image_writes_every_artifact_witness :
  fst (optimize_image calm source_a (fresh calm "C:\")) = Ok true /\
  processed_files (self (snd (optimize_image calm source_a (fresh calm "C:\")))) =
    artifact_paths Windows (optimized_folder (init calm main_repo_path)) "a"
      default_sizes_config.
Proof.
  assert (Hfst : fst (optimize_image calm source_a (fresh calm "C:\")) = Ok true)
    by (vm_compute; reflexivity).
  assert (Hrun : optimize_image calm source_a (fresh calm "C:\") =
                 (Ok true, snd (optimize_image calm source_a (fresh calm "C:\")))).
  { rewrite <- Hfst. apply surjective_pairing. }
  split; [exact Hfst|].
  destruct (optimize_image_writes_every_artifact calm source_a (fresh calm "C:\") _ Hrun)
    as (_ & _ & _ & H & _).
  exact H.
Defined.

(** C2.  [optimize_image] reports a result whenever the two steps before
    its [try] go through, the measurement of the source and the line that
    names it; when one of them raises, the exception leaves the method
    and nothing else is done.  The result is [True] exactly when no call
    raised, and exactly when every save of the catalog went through.  The
    result is [False] exactly when a call into the image library raised:
    that call is the last one of the run, its exception is printed and
    nothing is attempted after it.  A call into the image library raises
    what the environment has it raise at that moment, and goes through
    otherwise.  Whatever was written stays: the files after the run are
    the files before it together with every save that went through. *)
Theorem optimize_image_succeeds_iff_all_saved env image_path st :
  sizes_config (self st) <> [] ->
  let res := optimize_image env image_path st in
  let t := length (log st) in
  let stem_ := path_stem (platform env) image_path in
  let paths :=
    artifact_paths (platform env) (optimized_folder (self st)) stem_
      (sizes_config (self st)) in
  exists delta,
    log (snd res) = log st ++ delta /\
    dom (files (snd res)) = dom (files st) ∪ list_to_set (saved_paths delta) /\
    (fault env t (OpGetsize image_path) = None ->
     fault env (t + 1) (OpStdout stem_) = None ->
     exists succeeded, fst res = Ok succeeded) /\
    (fst res = Ok true <-> saved_paths delta = paths) /\
    (fst res = Ok true <-> forallb quiet delta = true) /\
    (fst res = Ok false <->
     exists pre op e,
       is_codec_op op = true /\
       delta = pre ++ [Call op (Some e); Print (MsgError e)] /\
       forallb quiet pre = true) /\
    (forall e,
       fst res = Raise e <->
       delta = [Call (OpGetsize image_path) (Some e)] \/
       delta = [Call (OpGetsize image_path) None; Call (OpStdout stem_) (Some e)]) /\
    (forall i op r,
       delta !! i = Some (Call op r) -> is_codec_op op = true ->
       r = fault env (t + i)%nat op).
Proof.
  intros Hne res t stem_ paths.
  destruct (optimize_image_caused env image_path st) as (out & Hp & Hc & Hres & Hst & Hlog).
  fold res in Hres, Hst, Hlog. fold t in Hc.
  set (root := optimized_folder (self st)) in *.
  set (catalog := sizes_config (self st)) in *.
  exists (optimize_events env image_path root catalog out).
  pose proof (optimize_events_shape env image_path root catalog out) as Hshape.
  cbn zeta in Hshape. rewrite <- Hres in Hshape.
  assert (Hlast : forall pre (x y : Event) l,
            pre ++ [x; y] = l -> exists pre', l = pre' ++ [y]).
  { intros pre x y l <-. exists (pre ++ [x]). by rewrite <- app_assoc. }
  assert (Hnot_quiet : forall pre op e (y : list Event),
            forallb quiet (pre ++ Call op (Some e) :: y) = false).
  { intros pre op e y. rewrite forallb_app. cbn. apply andb_false_r. }
  split; [exact Hlog|]. split; [rewrite Hst; apply dom_after_optimize|].
  split; [|split; [|split; [|split; [|split]]]].
  - intros H1 H2. rewrite Hres.
    destruct out as [e|sz out'|sz e]; cbn [caused] in Hc.
    + rewrite H1 in Hc. discriminate Hc.
    + cbn [optimize_result]. destruct (try_result out'); by eexists.
    + fold stem_ in Hc. unfold stem in Hc. fold stem_ in Hc.
      rewrite H2 in Hc. discriminate Hc.
  - split.
    + intros Htrue. rewrite Htrue in Hres.
      destruct out as [e|sz [e|e|done item rest step e|]|sz e]; try discriminate Hres.
      rewrite saved_paths_optimize. cbn [completed unrecorded]. apply app_nil_r.
    + intros Hsaved.
      assert (Hcases : fst res = Ok true \/ fst res <> Ok true).
      { destruct (fst res) as [[|]|]; [by left | by right | by right]. }
      destruct Hcases as [|Hno]; [done|].
      exfalso. rewrite Hres in Hno.
      pose proof (saved_short env image_path root catalog out Hp Hne Hno) as Hlt.
      rewrite Hsaved in Hlt. unfold paths, stem_, stem in Hlt. lia.
  - destruct (fst res) as [[|]|e'].
    + by split.
    + destruct Hshape as (pre & op & e & _ & -> & _).
      change [Call op (Some e); Print (MsgError e)]
        with (Call op (Some e) :: [Print (MsgError e)]).
      rewrite Hnot_quiet. split; intros H; discriminate H.
    + destruct Hshape as (pre & op & _ & -> & _).
      rewrite Hnot_quiet. split; intros H; discriminate H.
  - destruct (fst res) as [[|]|e'].
    + split; [intros H; discriminate H|].
      intros (pre & op & e & _ & E & _). exfalso.
      rewrite E in Hshape.
      change [Call op (Some e); Print (MsgError e)]
        with (Call op (Some e) :: [Print (MsgError e)]) in Hshape.
      rewrite Hnot_quiet in Hshape. discriminate Hshape.
    + split; [intros _; exact Hshape | reflexivity].
    + split; [intros H; discriminate H|].
      intros (pre & op & e & _ & E & _). exfalso.
      destruct Hshape as (pre' & op' & _ & E' & _). rewrite E' in E.
      change (pre ++ [Call op (Some e); Print (MsgError e)])
        with (pre ++ [Call op (Some e)] ++ [Print (MsgError e)]) in E.
      rewrite app_assoc in E. apply app_inj_tail in E as [_ E]. discriminate E.
  - intros e. rewrite Hres. fold stem_. 
    destruct out as [e'|sz [e'|e'|done item rest step e'|]|sz e'];
      cbn [optimize_result try_result optimize_events].
    all: unfold stem; fold stem_.
    all: split;
      [ intros H; try discriminate H; injection H as ->; tauto
      | intros [H|H]; try discriminate H; try (injection H as ->; reflexivity) ].
  - destruct (optimize_image_as_the_library_says env image_path st) as (d & Ed & Hd).
    fold res in Ed. rewrite Hlog in Ed. apply app_inv_head in Ed. subst d.
    intros i op r Hi Hop. exact (Hd i _ Hi Hop).
Qed.

Lemma optimize_image_succeeds_iff_all_saved_witness :
  sizes_config (self (fresh gray16 "C:\")) <> [] /\
  fst (optimize_image gray16 source_a (fresh gray16 "C:\")) = Ok false /\
  exists delta,
    log (snd (optimize_image gray16 source_a (fresh gray16 "C:\"))) = [] ++ delta /\
    saved_paths delta = [thumb_webp_a] /\
    dom (files (snd (optimize_image gray16 source_a (fresh gray16 "C:\")))) =
      dom (files (fresh gray16 "C:\")) ∪ list_to_set (saved_paths delta).
Proof.
  split; [discriminate|]. split; [vm_compute; reflexivity|].
  destruct (optimize_image_succeeds_iff_all_saved gray16 source_a (fresh gray16 "C:\"))
    as (delta & Hlog & Hdom & _); [discriminate|].
  exists delta. split; [exact Hlog|]. split; [|exact Hdom].
  assert (E : delta = log (snd (optimize_image gray16 source_a (fresh gray16 "C:\"))))
    by (symmetry; exact Hlog).
  rewrite E. vm_compute. reflexivity.
Defined.

(** C3.  A batch of two sources whose first one is a dangling link:
    [os.path.getsize] raises outside the [try] of [optimize_image], the
    exception leaves [process_all_images] and the second source is never
    opened.  When the first source merely fails to decode, the batch goes
    on to the second one. *)
Theorem unreadable_source_aborts_the_batch :
  glob_result dangling 0 sources_pattern = [source_a; source_b] /\
  fst (process_all_images dangling (fresh dangling "C:\")) =
    Raise (Exception "No such file or directory") /\
  existsb (is_open_of source_b)
    (log (snd (process_all_images dangling (fresh dangling "C:\")))) = false /\
  fst (process_all_images corrupt (fresh corrupt "C:\")) = Ok true /\
  existsb (is_open_of source_b)
    (log (snd (process_all_images corrupt (fresh corrupt "C:\")))) = true.
Proof. repeat split; vm_compute; reflexivity. Qed.

(** C4.  In a run of [run_full_optimization], [git_commit_and_push] is
    entered only when at least one source was generated; when the run
    returns, it was entered exactly in that case. *)
Theorem publish_only_after_a_success env st :
  let res := run_full_optimization env st in
  exists delta,
    log (snd res) = log st ++ delta /\
    (publish_invoked delta = true -> (0 < succeeded_sources delta)%nat) /\
    (forall u, fst res = Ok u ->
       (publish_invoked delta = true <-> (0 < succeeded_sources delta)%nat)).
Proof.
  intros res. subst res. unfold run_full_optimization, update_urls_info.
  rewrite bind_unfold. cbn [gets]. rewrite bind_unfold. cbn [print].
  set (st0 := log_event _ st).
  assert (E0 : log st0 = log st ++ [Print (MsgBanner (repo_path (self st)))]) by reflexivity.
  rewrite bind_unfold.
  destruct (emits_setup_background env st0) as (d1 & E1 & B1).
  destruct (setup_git_structure env st0) as [[[]|e] st1]; cbn [snd] in E1.
  2:{ exists ([Print (MsgBanner (repo_path (self st)))] ++ d1).
      cbn [fst snd]. rewrite E1, E0, <- app_assoc. split; [reflexivity|].
      apply count_background in B1 as (_ & _ & Hp).
      rewrite publish_invoked_app, Hp. cbn. split; [discriminate|]. intros u H. discriminate H. }
  rewrite bind_unfold.
  destruct (emits_move_background env st1) as (d2 & E2 & B2).
  destruct (move_existing_images env st1) as [[[]|e] st2]; cbn [snd] in E2.
  2:{ exists ([Print (MsgBanner (repo_path (self st)))] ++ d1 ++ d2).
      cbn [fst snd]. rewrite E2, E1, E0, <- !app_assoc. split; [reflexivity|].
      apply count_background in B1 as (_ & _ & Hp1).
      apply count_background in B2 as (_ & _ & Hp2).
      rewrite !publish_invoked_app, Hp1, Hp2. cbn. split; [discriminate|].
      intros u H. discriminate H. }
  apply count_background in B1 as (Ho1 & He1 & Hp1).
  apply count_background in B2 as (Ho2 & He2 & Hp2).
  rewrite bind_unfold.
  destruct (process_all_images_log env st2) as (d3 & E3 & Hp3 & Hle & Hk).
  destruct (process_all_images env st2) as [[processed|e] st3]; cbn [fst snd] in E3, Hk.
  2:{ exists ([Print (MsgBanner (repo_path (self st)))] ++ d1 ++ d2 ++ d3).
      cbn [fst snd]. rewrite E3, E2, E1, E0, <- !app_assoc. split; [reflexivity|].
      rewrite !publish_invoked_app, Hp1, Hp2, Hp3. cbn. split; [discriminate|].
      intros u H. discriminate H. }
  destruct processed.
  - rewrite bind_unfold.
    destruct (git_commit_and_push_closed env st3) as (out & Hres & Hst).
    destruct (git_commit_and_push env st3) as [r st4]. cbn [fst snd] in Hres, Hst.
    subst r st4.
    destruct (background_publish (self st3) out) as (Ho4 & He4 & Hp4).
    set (d4 := publish_events (self st3) out) in *.
    exists ([Print (MsgBanner (repo_path (self st)))] ++ d1 ++ d2 ++ d3 ++ d4
            ++ [if publish_result out then Print MsgCompleted else Print MsgNotUploaded;
                Print MsgUrlsInfo; Print MsgTotalTime]).
    split.
    { destruct (publish_result out); run_steps; unfold after_publish; cbn [log];
        fold d4; rewrite E3, E2, E1, E0, <- !app_assoc; reflexivity. }
    assert (Hgoal : (0 < succeeded_sources
              ([Print (MsgBanner (repo_path (self st)))] ++ d1 ++ d2 ++ d3 ++ d4
               ++ [if publish_result out then Print MsgCompleted else Print MsgNotUploaded;
                   Print MsgUrlsInfo; Print MsgTotalTime]))%nat).
    { symmetry in Hk. apply Nat.ltb_lt in Hk. unfold succeeded_sources in *.
      rewrite !count_app, Ho1, He1, Ho2, He2, Ho4, He4.
      destruct (publish_result out); cbn; lia. }
    split; [by intros _|]. intros u _. split; [by intros _|]. intros _.
    rewrite !publish_invoked_app, Hp4. cbn. by rewrite !orb_true_r.
  - exists ([Print (MsgBanner (repo_path (self st)))] ++ d1 ++ d2 ++ d3
            ++ [Print MsgCannotProcess]).
    cbn [fst snd print log_event log]. rewrite E3, E2, E1, E0, <- !app_assoc.
    split; [reflexivity|].
    assert (Hnone : publish_invoked
              ([Print (MsgBanner (repo_path (self st)))] ++ d1 ++ d2 ++ d3
               ++ [Print MsgCannotProcess]) = false).
    { rewrite !publish_invoked_app, Hp1, Hp2, Hp3. reflexivity. }
    assert (Hzero : succeeded_sources
              ([Print (MsgBanner (repo_path (self st)))] ++ d1 ++ d2 ++ d3
               ++ [Print MsgCannotProcess]) = 0%nat).
    { symmetry in Hk. apply Nat.ltb_ge in Hk. unfold succeeded_sources in *.
      rewrite !count_app, Ho1, He1, Ho2, He2. cbn. lia. }
    rewrite Hnone, Hzero. split; [discriminate|]. intros u _. split; [discriminate|lia].
Qed.

(** C5, as stated, fails: no source is found and the exit code is 0. *)
Lemma no_source_exits_with_zero :
  glob_result empty_folder 0 sources_pattern = [] /\
  succeeded_sources (log (snd (main empty_folder (fresh empty_folder "C:\")))) = 0%nat /\
  exit_code (fst (main empty_folder (fresh empty_folder "C:\"))) = 0.
Proof. repeat split; vm_compute; reflexivity. Qed.

(** C5, amended.  Unless a call outside every [try] raises ([makedirs],
    [write_text], the [getsize] of a source, or the [print] of a line
    that carries a file name), [main] returns and the exit code is 0,
    whether or not sources were found or generated and whether or not
    publishing succeeded. *)
Theorem main_exits_with_zero env st :
  (forall t op, unguarded op = true -> fault env t op = None) ->
  exit_code (fst (main env st)) = 0.
Proof.
  intros Hsafe. destruct (returns_main env Hsafe st) as [u Hu]. by rewrite Hu.
Qed.

Lemma main_exits_with_zero_witness :
  (forall t op, unguarded op = true -> fault push_rejected t op = None) /\
  publish_invoked (log (snd (main push_rejected (fresh push_rejected "C:\")))) = true /\
  exit_code (fst (main push_rejected (fresh push_rejected "C:\"))) = 0.
Proof.
  split; [reflexivity|]. split; [vm_compute; reflexivity|].
  apply (main_exits_with_zero push_rejected). reflexivity.
Defined.

(** C6, as stated, fails: six paths are recorded, the tree is staged. *)
Lemma publish_does_not_stage_the_manifest :
  length (processed_files (self (snd (main calm (fresh calm "C:\"))))) = 6%nat /\
  staged_paths (log (snd (main calm (fresh calm "C:\")))) =
    ["optimizadas/"; ".gitignore"] /\
  staged_paths (log (snd (main calm (fresh calm "C:\")))) <>
    processed_files (self (snd (main calm (fresh calm "C:\")))) ++ [".gitignore"].
Proof.
  split; [vm_compute; reflexivity|]. split; [vm_compute; reflexivity|].
  vm_compute. intros H. discriminate H.
Qed.

(** C6, amended.  Publishing prints its opening line, enters the
    repository, and then asks git, in this order and one call at a time,
    to stage the directory [optimizadas/], to stage [.gitignore], and to
    commit with the message that embeds the number of recorded paths;
    each call is made as soon as the one before it went through, and the
    first that raises ends the publication with one line and the answer
    [False].  The push follows the commit.  So the recorded paths are
    never handed to git one by one, nothing else is staged, and a commit
    is asked for only with both staged. *)
Theorem publish_stages_the_output_tree env st :
  let res := git_commit_and_push env st in
  let t := length (log st) in
  let chdir := OpChdir (repo_path (self st)) in
  let add_output := ["git"; "add"; "optimizadas/"] in
  let add_ignore := ["git"; "add"; ".gitignore"] in
  let commit :=
    ["git"; "commit"; "-m"; commit_message (length (processed_files (self st)))] in
  exists delta tail,
    log (snd res) = log st ++ delta /\
    delta = [Print MsgPublishStart; Call chdir (fault env (t + 1) chdir)] ++ tail /\
    match fault env (t + 1) chdir with
    | Some e => tail = [handler_line e] /\ fst res = Ok false
    | None =>
    exists tail1,
      tail = Call (OpRun add_output) (run_raises env (t + 2) add_output) :: tail1 /\
    match run_raises env (t + 2) add_output with
    | Some e => tail1 = [handler_line e] /\ fst res = Ok false
    | None =>
    exists tail2,
      tail1 = Call (OpRun add_ignore) (run_raises env (t + 3) add_ignore) :: tail2 /\
    match run_raises env (t + 3) add_ignore with
    | Some e => tail2 = [handler_line e] /\ fst res = Ok false
    | None =>
    exists tail3,
      tail2 = Call (OpRun commit) (run_raises env (t + 4) commit) :: tail3 /\
      staged_paths delta = ["optimizadas/"; ".gitignore"] /\
      commit_messages delta = [commit_message (length (processed_files (self st)))] /\
    match run_raises env (t + 4) commit with
    | Some e => tail3 = [handler_line e] /\ fst res = Ok false
    | None =>
    exists line,
      tail3 = [Call (OpRun ["git"; "push"]) (fault env (t + 5) (OpRun ["git"; "push"]));
               line]
    end end end end.
Proof.
  intros res t chdir add_output add_ignore commit.
  destruct (git_commit_and_push_caused env st) as (out & Hc & Hrun).
  fold t in Hc. unfold publish_caused in Hc.
  fold chdir add_output add_ignore commit in Hc.
  assert (Hres : fst res = Ok (publish_result out)) by (unfold res; by rewrite Hrun).
  assert (Hlog : log (snd res) = log st ++ publish_events (self st) out)
    by (unfold res; by rewrite Hrun).
  exists (publish_events (self st) out), (skipn 2 (publish_events (self st) out)).
  split; [exact Hlog|]. clear Hlog Hrun.
  destruct out as [[] e|err|]; unfold publish_events;
    cbn [publish_result skipn app staged_paths commit_messages flat_map
         staged_path commit_message_of] in *;
    fold chdir add_output add_ignore commit.
  all: repeat match goal with
              | H : _ /\ _ |- _ => destruct H as [? H]
              end;
       repeat match goal with
              | H : _ = Some _ |- _ => rewrite H; clear H
              | H : _ = None |- _ => rewrite H; clear H
              end;
       repeat first [exact Hres | reflexivity | split | eexists | by destruct e].
Qed.

Example a_refused_add_stages_nothing :
  log (snd (git_commit_and_push add_refused (fresh add_refused "C:\"))) =
    [Print MsgPublishStart;
     Call (OpChdir main_repo_path) None;
     Call (OpRun ["git"; "add"; "optimizadas/"])
       (Some (CalledProcessError ["git"; "add"; "optimizadas/"] 128));
     Print (MsgGitError (CalledProcessError ["git"; "add"; "optimizadas/"] 128))] /\
  staged_paths (log (snd (git_commit_and_push add_refused (fresh add_refused "C:\")))) = [] /\
  commit_messages (log (snd (git_commit_and_push add_refused (fresh add_refused "C:\")))) = [].
Proof. repeat split; vm_compute; reflexivity. Qed.

(** C7.  Once the source is measured, named and opened, a source whose
    mode is RGBA, LA or P is converted to RGB, and the conversion is the
    first call after the opening: when it raises, the source fails and
    nothing is resized; when it returns, the loop starts on the converted
    image, and every copy, every resize and every save of the run works
    on it.  A source of any other mode, RGB among them, is not converted
    at all: the loop starts on the decoded image. *)
Theorem optimize_image_converts_before_resizing env image_path st :
  sizes_config (self st) <> [] ->
  let res := optimize_image env image_path st in
  let src := decoded env image_path in
  let t := length (log st) in
  let stem_ := path_stem (platform env) image_path in
  fault env t (OpGetsize image_path) = None ->
  fault env (t + 1) (OpStdout stem_) = None ->
  fault env (t + 2) (OpImageOpen image_path) = None ->
  (mode_needs_convert src = true <->
   mode src = "RGBA" \/ mode src = "LA" \/ mode src = "P") /\
  exists original_size tail,
    log (snd res) =
      log st ++ [Call (OpGetsize image_path) None;
                 Print (MsgOptimizing stem_ original_size);
                 Call (OpImageOpen image_path) None] ++ tail /\
    if mode_needs_convert src
    then
      exists tail',
        tail = Call (OpConvert src "RGB") (fault env (t + 3) (OpConvert src "RGB"))
               :: tail' /\
        match fault env (t + 3) (OpConvert src "RGB") with
        | Some e => tail' = [Print (MsgError e)] /\ fst res = Ok false
        | None =>
            (exists r rest, tail' = Call (OpCopy (convert src "RGB")) r :: rest) /\
            works_on env (convert src "RGB") tail'
        end
    else
      (exists r rest, tail = Call (OpCopy src) r :: rest) /\
      works_on env src tail.
Proof.
  intros Hne res src t stem_ Hstat Hname Hopen.
  split; [apply mode_needs_convert_iff|].
  destruct (optimize_image_caused env image_path st) as (out & Hp & Hc & Hres & Hst & Hlog).
  fold res in Hres, Hst, Hlog. fold t in Hc.
  set (root := optimized_folder (self st)) in *.
  set (catalog := sizes_config (self st)) in *.
  set (work := working_image env image_path).
  assert (Hwork : working_image env image_path =
                  if mode_needs_convert src then convert src "RGB" else src)
    by reflexivity.
  (* the events of the loop, followed by the line of the failure, if any *)
  assert (Hloop : forall done tail line,
    (tail = [] \/
     exists item fail,
       tail = size_events env root (stem env image_path) work item fail) ->
    (line = [] \/ exists e, line = [Print (MsgError e)]) ->
    done <> [] \/ tail <> [] ->
    let l := (sizes_events env image_path root done ++ tail) ++ line in
    (exists r rest, l = Call (OpCopy work) r :: rest) /\ works_on env work l).
  { intros done tail line Htail Hline Hsome l.
    destruct (loop_events_facts env image_path root done tail Htail) as [Hin Hhead].
    split.
    - destruct Hhead as (r & rest & E).
      { destruct Hsome as [H|H]; [destruct done; [done | discriminate] |].
        destruct (sizes_events env image_path root done); [exact H | discriminate]. }
      subst l. fold work in E. rewrite E. cbn [app]. by eexists; eexists.
    - intros ev Hev. apply in_app_or in Hev as [Hev|Hev].
      + destruct (Hin ev Hev) as (item & fail & H).
        exact (size_events_work env root _ _ item fail ev H).
      + destruct Hline as [->|[e ->]]; [destruct Hev|].
        destruct Hev as [<-|[]]. exact I. }
  destruct out as [e|sz out'|sz e]; cbn [caused] in Hc.
  { rewrite Hstat in Hc. discriminate Hc. }
  2:{ unfold stem in Hc. fold stem_ in Hc. rewrite Hname in Hc. discriminate Hc. }
  destruct Hc as [_ Hc].
  assert (Hconv : convert_events env image_path None =
                  if mode_needs_convert src then [Call (OpConvert src "RGB") None] else [])
    by reflexivity.
  destruct out' as [e|e|done item rest step e|]; cbn [try_caused] in Hc.
  - rewrite Hopen in Hc. discriminate Hc.
  - (* the conversion raised *)
    destruct Hc as [_ Hc]. cbn [possible try_possible] in Hp.
    change (img0 env image_path) with src in Hc, Hp.
    exists sz, [Call (OpConvert src "RGB") (Some e); Print (MsgError e)].
    split; [exact Hlog|]. rewrite Hp, Hc.
    exists [Print (MsgError e)]. split; [reflexivity|]. split; [reflexivity|].
    by rewrite Hres.
  - (* a profile failed *)
    destruct Hc as [_ Hc]. change (img0 env image_path) with src in Hc.
    cbn [possible try_possible] in Hp.
    destruct (Hloop done
                (size_events env root (stem env image_path) work item (Some (step, e)))
                [Print (MsgError e)]) as [Hhead Hon].
    { right. by exists item, (Some (step, e)). }
    { right. by exists e. }
    { right. destruct step; discriminate. }
    eexists sz, _. split.
    { rewrite Hlog. cbn [optimize_events try_events try_result app].
      rewrite <- !app_assoc. cbn [app]. reflexivity. }
    rewrite Hconv. subst work. rewrite Hwork in Hhead, Hon |- *.
    rewrite <- !app_assoc in Hhead, Hon.
    destruct (mode_needs_convert src).
    + rewrite Hc by reflexivity. eexists. split; [reflexivity|]. by split.
    + cbn [app]. by split.
  - (* every profile went through *)
    destruct Hc as [_ Hc]. change (img0 env image_path) with src in Hc.
    destruct (Hloop catalog [] []) as [Hhead Hon];
      [by left | by left | by left |].
    rewrite !app_nil_r in Hhead, Hon.
    eexists sz, _. split.
    { rewrite Hlog. cbn [optimize_events try_events try_result app].
      rewrite app_nil_r. reflexivity. }
    rewrite Hconv. subst work. rewrite Hwork in Hhead, Hon.
    destruct (mode_needs_convert src).
    + rewrite Hc by reflexivity. eexists. split; [reflexivity|]. by split.
    + cbn [app]. by split.
Qed.

Lemma optimize_image_converts_before_resizing_witness :
  sizes_config (self (fresh calm "C:\")) <> [] /\
  fault calm 2 (OpImageOpen source_a) = None /\
  mode (decoded calm source_a) = "RGBA" /\
  exists tail,
    log (snd (optimize_image calm source_a (fresh calm "C:\"))) =
      [Call (OpGetsize source_a) None; Print (MsgOptimizing "a" 2000000);
       Call (OpImageOpen source_a) None;
       Call (OpConvert rgba_photo "RGB") None;
       Call (OpCopy (convert rgba_photo "RGB")) None] ++ tail /\
    works_on calm (convert rgba_photo "RGB") tail.
Proof.
  split; [discriminate|]. split; [reflexivity|]. split; [reflexivity|].
  destruct (optimize_image_converts_before_resizing calm source_a (fresh calm "C:\"))
    as (_ & sz & tail & Hlog & tail' & -> & (r & rest & ->) & Hon);
    [discriminate | reflexivity | reflexivity | reflexivity |].
  exists rest.
  assert (E : log (snd (optimize_image calm source_a (fresh calm "C:\"))) =
              [Call (OpGetsize source_a) None; Print (MsgOptimizing "a" 2000000);
               Call (OpImageOpen source_a) None;
               Call (OpConvert rgba_photo "RGB") None;
               Call (OpCopy (convert rgba_photo "RGB")) None]
              ++ skipn 5 (log (snd (optimize_image calm source_a (fresh calm "C:\")))))
    by (vm_compute; reflexivity).
  assert (Hrest : rest = skipn 5 (log (snd (optimize_image calm source_a (fresh calm "C:\"))))).
  { rewrite Hlog. reflexivity. }
  split.
  - rewrite Hrest. exact E.
  - intros ev Hin. apply (Hon ev). by right.
Defined.

Example rgba_source_is_converted_first :
  log (snd (optimize_image calm source_a (fresh calm "C:\"))) !! 3%nat =
    Some (Call (OpConvert rgba_photo "RGB") None) /\
  log (snd (optimize_image calm source_a (fresh calm "C:\"))) !! 5%nat =
    Some (Call (OpThumbnail (convert rgba_photo "RGB") (300, 300)) None).
Proof. split; vm_compute; reflexivity. Qed.

Example rgb_source_is_left_alone :
  forallb (fun ev => match ev with Call (OpConvert _ _) _ => false | _ => true end)
    (log (snd (optimize_image (world no_faults [source_a] rgb_icon) source_a
                 (fresh (world no_faults [source_a] rgb_icon) "C:\")))) = true.
Proof. vm_compute. reflexivity. Qed.

(** C8.  The resize is [Image.thumbnail], a call into Pillow, and what
    the program relies on is the library's contract [thumbnail_shrinks]:
    the result fits the box, is no larger than the image, is the image
    itself when it already fits, and otherwise touches the box on one
    side with the other side within a pixel of the exact proportion.
    Under that contract every artifact saved is the resize of the
    decoded (or converted) source to the box of its profile, made by a
    call that went before the save, and it fits the box, is no larger
    than the source in either dimension, keeps the dimensions of a
    source that already fits and keeps its proportions to the pixel.
    When the source succeeds, such an artifact is saved for every
    profile in both encodings. *)
Theorem artifacts_fit_the_bounding_box env image_path st :
  thumbnail_shrinks env ->
  let res := optimize_image env image_path st in
  let src := decoded env image_path in
  let work := working_image env image_path in
  let pf := platform env in
  let root := optimized_folder (self st) in
  let stem_ := path_stem pf image_path in
  0 < width src -> 0 < height src ->
  (forall item, In item (sizes_config (self st)) ->
     0 < fst (cfg_size (snd item)) /\ 0 < snd (cfg_size (snd item))) ->
  exists delta,
    log (snd res) = log st ++ delta /\
    (forall im path fmt q r,
      In (Call (OpSave im path fmt q) r) delta ->
      exists item enc,
        In item (sizes_config (self st)) /\
        path = artifact_path pf root stem_ (fst item) enc /\
        im = thumbnail env work (cfg_size (snd item)) /\
        (exists before after,
           delta = before ++ Call (OpSave im path fmt q) r :: after /\
           In (Call (OpThumbnail work (cfg_size (snd item))) None) before) /\
        let bw := fst (cfg_size (snd item)) in
        let bh := snd (cfg_size (snd item)) in
        (1 <= width im <= bw) /\ (1 <= height im <= bh) /\
        width im <= width src /\ height im <= height src /\
        (width src <= bw -> height src <= bh ->
         width im = width src /\ height im = height src) /\
        ((width im = width src /\ height im = height src) \/
         (height im = bh /\ Z.abs (width im * height src - bh * width src) < height src) \/
         (width im = bw /\ Z.abs (height im * width src - bw * height src) < width src))) /\
    (fst res = Ok true ->
     forall item enc,
       In item (sizes_config (self st)) ->
       In (Call (OpSave (thumbnail env work (cfg_size (snd item)))
                   (artifact_path pf root stem_ (fst item) enc)
                   (format_name enc) (cfg_quality (snd item))) None) delta).
Proof.
  intros Hlib res src work pf root stem_ Hw Hh Hboxes.
  destruct (optimize_image_closed env image_path st) as (out & Hp & Hres & Hst & Hlog).
  fold res in Hres, Hst, Hlog. fold root in Hlog.
  eexists. split; [exact Hlog|]. split.
  - intros im path fmt q r Hin.
    destruct (save_after_thumbnail env image_path root _ out im path fmt q r Hp Hin)
      as (item & enc & Hitem & Him & Hpath & Hbefore).
    exists item, enc. split; [exact Hitem|]. split; [exact Hpath|].
    split; [exact Him|]. split; [exact Hbefore|].
    destruct (Hboxes item Hitem) as [Hbw Hbh].
    destruct (working_image_size env image_path) as [Ew Eh].
    fold src work in Ew, Eh.
    destruct (Hlib work (cfg_size (snd item))) as (_ & B1 & B2 & Hfit & Hasp);
      [lia..|].
    subst im. fold work. cbn zeta.
    split; [lia|]. split; [lia|]. split; [lia|]. split; [lia|].
    split.
    + intros H1 H2. rewrite Hfit by lia. by split.
    + destruct Hasp as [->|Hasp]; [by left | right].
      rewrite Ew, Eh in Hasp. exact Hasp.
  - intros Htrue item enc Hitem.
    destruct out as [e|sz [e|e|done it rest step e|]|sz e];
      rewrite Hres in Htrue; try discriminate Htrue.
    cbn [optimize_events try_events]. apply in_or_app. right.
    apply in_or_app. left. right. apply in_or_app. right.
    unfold sizes_events. apply in_flat_map. exists item. split; [exact Hitem|].
    destruct enc; cbn; tauto.
Qed.

Lemma artifacts_fit_the_bounding_box_witness :
  thumbnail_shrinks calm /\
  0 < width (decoded calm source_a) /\ 0 < height (decoded calm source_a) /\
  fst (optimize_image calm source_a (fresh calm "C:\")) = Ok true /\
  exists delta,
    log (snd (optimize_image calm source_a (fresh calm "C:\"))) = [] ++ delta /\
    In (Call (OpSave (mkImage "RGB" 300 225) thumb_webp_a "WEBP" 70) None) delta /\
    forall im path fmt q r,
      In (Call (OpSave im path fmt q) r) delta ->
      width im <= 1200 /\ height im <= 1200.
Proof.
  assert (Hlib : thumbnail_shrinks calm).
  { intros im box. exact (shrink_shrinks im box). }
  split; [exact Hlib|]. split; [reflexivity|]. split; [reflexivity|].
  split; [vm_compute; reflexivity|].
  destruct (artifacts_fit_the_bounding_box calm source_a (fresh calm "C:\") Hlib)
    as (delta & Hlog & H & Hall).
  - reflexivity.
  - reflexivity.
  - intros item Hin. cbn in Hin.
    destruct Hin as [<-|[<-|[<-|[]]]]; by split.
  - exists delta. split; [exact Hlog|]. split.
    + apply (Hall ltac:(vm_compute; reflexivity) ("thumb", mkConfig (300, 300) 70) WEBP).
      by left.
    + intros im path fmt q r Hin.
      destruct (H im path fmt q r Hin) as (item & enc & Hitem & _ & _ & _ & Hb1 & Hb2 & _).
      cbn in Hitem. destruct Hitem as [<-|[<-|[<-|[]]]]; cbn in Hb1, Hb2; lia.
Defined.

(** C9, as stated, fails: the thumbnail WebP is written and not recorded. *)
Lemma orphan_webp_is_not_recorded :
  fst (optimize_image gray16 source_a (fresh gray16 "C:\")) = Ok false /\
  In thumb_webp_a
    (saved_paths (log (snd (optimize_image gray16 source_a (fresh gray16 "C:\"))))) /\
  ~ In thumb_webp_a
      (processed_files (self (snd (optimize_image gray16 source_a (fresh gray16 "C:\"))))).
Proof.
  split; [vm_compute; reflexivity|]. split.
  - vm_compute. left. reflexivity.
  - vm_compute. intros [].
Qed.

(** C9, amended.  When [optimize_image] fails, the artifacts of the
    profiles completed before the failure stay in [processed_files]; the
    WebP of the profile whose JPEG failed is written but not recorded.
    The message of a later commit counts the recorded paths, those of
    the failed source included. *)
Theorem failed_source_keeps_completed_profiles env image_path st st' :
  optimize_image env image_path st = (Ok false, st') ->
  let pf := platform env in
  let root := optimized_folder (self st) in
  let stem_ := path_stem pf image_path in
  exists done rest extra delta,
    sizes_config (self st) = done ++ rest /\
    log st' = log st ++ delta /\
    saved_paths delta = artifact_paths pf root stem_ done ++ extra /\
    (extra = [] \/
     exists item rest',
       rest = item :: rest' /\ extra = [artifact_path pf root stem_ (fst item) WEBP]) /\
    processed_files (self st') =
      processed_files (self st) ++ artifact_paths pf root stem_ done /\
    (let res := git_commit_and_push env st' in
     exists delta',
       log (snd res) = log st' ++ delta' /\
       forall msg,
         In msg (commit_messages delta') ->
         msg = commit_message (length (processed_files (self st)) + 2 * length done)).
Proof.
  intros Hrun pf root stem_.
  destruct (optimize_image_closed env image_path st) as (out & Hp & Hres & Hst & Hlog).
  rewrite Hrun in Hres, Hst, Hlog. cbn [fst snd] in Hres, Hst, Hlog.
  set (catalog := sizes_config (self st)) in *.
  assert (Hprocessed : processed_files (self st') =
            processed_files (self st) ++ artifact_paths pf root stem_ (completed catalog out)).
  { by rewrite Hst, self_after_optimize. }
  assert (Hsaved := saved_paths_optimize env image_path root catalog out).
  assert (Hpublish : forall done,
    completed catalog out = done ->
    let res := git_commit_and_push env st' in
    exists delta',
      log (snd res) = log st' ++ delta' /\
      forall msg,
        In msg (commit_messages delta') ->
        msg = commit_message (length (processed_files (self st)) + 2 * length done)).
  { intros done Hdone res.
    destruct (git_commit_and_push_closed env st') as (out' & _ & Hst').
    fold res in Hst'. exists (publish_events (self st') out').
    split; [by rewrite Hst'|]. intros msg Hin.
    apply commit_messages_publish in Hin as ->. f_equal.
    rewrite Hprocessed, Hdone, length_app, artifact_paths_length. lia. }
  destruct out as [e|sz [e|e|done item rest step e|]|sz e]; try discriminate Hres.
  - exists [], catalog, [], (optimize_events env image_path root catalog (Tried sz (FailOpen e))).
    split; [reflexivity|]. split; [exact Hlog|]. split; [exact Hsaved|].
    split; [by left|]. split; [exact Hprocessed|]. by apply Hpublish.
  - exists [], catalog, [], (optimize_events env image_path root catalog (Tried sz (FailConvert e))).
    split; [reflexivity|]. split; [exact Hlog|]. split; [exact Hsaved|].
    split; [by left|]. split; [exact Hprocessed|]. by apply Hpublish.
  - exists done, (item :: rest),
      (unrecorded env image_path root (Tried sz (FailSize done item rest step e))),
      (optimize_events env image_path root catalog (Tried sz (FailSize done item rest step e))).
    split; [exact Hp|]. split; [exact Hlog|]. split; [exact Hsaved|].
    split; [|split; [exact Hprocessed | by apply Hpublish]].
    destruct step; [by left..|]. right. by exists item, rest.
Qed.

Lemma failed_source_keeps_completed_profiles_witness :
  fst (optimize_image disk_full source_a (fresh disk_full "C:\")) = Ok false /\
  commit_messages (log (snd (git_commit_and_push disk_full
       (snd (optimize_image disk_full source_a (fresh disk_full "C:\")))))) = [commit_message 2] /\
  exists done extra,
    done = [("thumb", mkConfig (300, 300) 70)] /\
    extra = [medium_webp_a] /\
    processed_files (self (snd (optimize_image disk_full source_a (fresh disk_full "C:\")))) =
      processed_files (self (fresh disk_full "C:\")) ++
      artifact_paths Windows (optimized_folder (self (fresh disk_full "C:\")))
        (path_stem Windows source_a) done /\
    saved_paths (log (snd (optimize_image disk_full source_a (fresh disk_full "C:\")))) =
      artifact_paths Windows (optimized_folder (self (fresh disk_full "C:\")))
        (path_stem Windows source_a) done ++ extra.
Proof.
  set (st' := snd (optimize_image disk_full source_a (fresh disk_full "C:\"))).
  assert (Hfst : fst (optimize_image disk_full source_a (fresh disk_full "C:\")) = Ok false)
    by (vm_compute; reflexivity).
  assert (Hrun : optimize_image disk_full source_a (fresh disk_full "C:\") = (Ok false, st')).
  { rewrite <- Hfst. apply surjective_pairing. }
  split; [exact Hfst|]. split; [vm_compute; reflexivity|].
  destruct (failed_source_keeps_completed_profiles disk_full source_a
              (fresh disk_full "C:\") _ Hrun)
    as (done & rest & extra & delta & Hcat & Hlog & Hsaved & Hextra & Hp & _).
  change (log (fresh disk_full "C:\") ++ delta) with delta in Hlog.
  rewrite <- Hlog in Hsaved.
  exists done, extra.
  assert (Hlen : length (processed_files (self st')) = 2%nat) by (vm_compute; reflexivity).
  rewrite Hp in Hlen. cbn [processed_files self fresh init app] in Hlen.
  rewrite artifact_paths_length in Hlen.
  change (sizes_config (self (fresh disk_full "C:\"))) with default_sizes_config in Hcat.
  unfold default_sizes_config in Hcat.
  destruct done as [|d [|d' done]]; [discriminate Hlen| |cbn in Hlen; lia].
  injection Hcat as <- <-.
  split; [reflexivity|].
  assert (Hn : length (saved_paths (log st')) = 3%nat) by (vm_compute; reflexivity).
  rewrite Hsaved, length_app, artifact_paths_length in Hn. cbn [length] in Hn.
  destruct Hextra as [->|(item & rest' & Hrest & ->)]; [discriminate Hn|].
  injection Hrest as <- _.
  split; [reflexivity|]. split; [exact Hp | exact Hsaved].
Defined.

(** C10, as stated, fails: [os.chdir] raises and the directory stays. *)
Lemma refused_chdir_leaves_the_directory :
  fst (git_commit_and_push locked_out (fresh locked_out "C:\Temp")) = Ok false /\
  cwd (snd (git_commit_and_push locked_out (fresh locked_out "C:\Temp"))) = "C:\Temp" /\
  cwd (snd (git_commit_and_push locked_out (fresh locked_out "C:\Temp"))) <>
    repo_path (self (fresh locked_out "C:\Temp")).
Proof.
  split; [vm_compute; reflexivity|]. split; [vm_compute; reflexivity|].
  vm_compute. intros H. discriminate H.
Qed.

(** C10, amended.  Publishing calls [os.chdir] once, on the repository
    path, and never again.  When the call returns, the working directory
    is the repository path at the end, whatever happens to the git steps;
    when it raises, the working directory is unchanged and publishing
    reports failure.  The optimizer object and the files are untouched. *)
Theorem publish_enters_the_repository env st :
  let res := git_commit_and_push env st in
  exists delta r,
    log (snd res) = log st ++ delta /\
    self (snd res) = self st /\
    files (snd res) = files st /\
    List.filter is_chdir delta = [Call (OpChdir (repo_path (self st))) r] /\
    match r with
    | None => cwd (snd res) = repo_path (self st)
    | Some _ => cwd (snd res) = cwd st /\ fst res = Ok false
    end.
Proof.
  intros res.
  destruct (git_commit_and_push_closed env st) as (out & Hres & Hst).
  fold res in Hres, Hst. rewrite Hres, Hst.
  exists (publish_events (self st) out).
  destruct out as [[] [argv rc|msg0]| |];
    first [ by exists None | by eexists (Some _) ].
Qed.

End Spec.

(** ** Further facts about the methods *)

Module MoreFacts.
Import Paths PIL Optimizer Runs Traces Examples PathFacts ShrinkFacts RunFacts.

Lemma length_append_string (a b : string) :
  String.length (a +:+ b) = (String.length a + String.length b)%nat.
Proof. induction a as [|c a IH]; simpl; [reflexivity | by rewrite IH]. Qed.


Lemma append_inv_tail (c : string) : forall a b : string,
  a +:+ c = b +:+ c -> a = b.
Proof.
  induction a as [|x a IH]; intros [|y b] H; simpl in H.
  - reflexivity.
  - apply (f_equal String.length) in H. simpl in H.
    rewrite length_append_string in H. lia.
  - apply (f_equal String.length) in H. simpl in H.
    rewrite length_append_string in H. lia.
  - injection H as -> H. f_equal. by apply IH.
Qed.













Lemma snoc_inj (x y : ascii) : forall a b : string,
  a +:+ String x "" = b +:+ String y "" -> a = b /\ x = y.
Proof.
  induction a as [|c a IH]; intros [|d b] H; simpl in H.
  - by injection H as ->.
  - injection H as -> H. destruct b; discriminate H.
  - injection H as -> H. destruct a; discriminate H.
  - injection H as -> H. destruct (IH b H) as [-> ->]. by split.
Qed.

Lemma extension_inj s1 s2 e1 e2 :
  s1 +:+ extension e1 = s2 +:+ extension e2 -> s1 = s2 /\ e1 = e2.
Proof.
  destruct e1, e2; cbn [extension]; intros H.
  - apply append_inv_tail in H. by split.
  - exfalso. change ".webp" with (".web" +:+ "p") in H.
    change ".jpg" with (".jp" +:+ "g") in H.
    rewrite <- !app_assoc_string in H. apply snoc_inj in H as [_ H]. discriminate H.
  - exfalso. change ".webp" with (".web" +:+ "p") in H.
    change ".jpg" with (".jp" +:+ "g") in H.
    rewrite <- !app_assoc_string in H. apply snoc_inj in H as [_ H]. discriminate H.
  - apply append_inv_tail in H. by split.
Qed.

Lemma add_log_nil st : add_log [] st = st.
Proof. destruct st. unfold add_log. cbn. by rewrite app_nil_r. Qed.

Lemma add_log_app l1 l2 st : add_log l2 (add_log l1 st) = add_log (l1 ++ l2) st.
Proof. unfold add_log. cbn. by rewrite app_assoc. Qed.

Lemma log_event_add_log ev st : log_event ev st = add_log [ev] st.
Proof. reflexivity. Qed.

Lemma call_run env op st :
  call env op st =
  match fault env (length (log st)) op with
  | Some e => (Raise e, add_log [Call op (Some e)] st)
  | None => (Ok tt, add_log [Call op None] st)
  end.
Proof. reflexivity. Qed.

Lemma print_run m st : print m st = (Ok tt, add_log [Print m] st).
Proof. reflexivity. Qed.

Lemma ask_run {A} op (answer : nat -> A) st :
  ask op answer st = (Ok (answer (length (log st))), add_log [Call op None] st).
Proof. reflexivity. Qed.

(** A loop of calls: all of them, or up to the first one that raises. *)
Lemma for_each_calls env {A} (f : A -> Op) (l : list A) : forall st,
  for_each l (fun x => call env (f x)) st =
    (Ok tt, add_log (map (fun x => went_through (f x)) l) st) \/
  exists done x rest e,
    l = done ++ x :: rest /\
    for_each l (fun x => call env (f x)) st =
      (Raise e, add_log (map (fun x => went_through (f x)) done ++ [Call (f x) (Some e)]) st).
Proof.
  induction l as [|x l IH]; intros st.
  { left. cbn. by rewrite add_log_nil. }
  cbn [for_each]. rewrite bind_unfold, call_run.
  destruct (fault env _ (f x)) as [e|].
  - right. by exists [], x, l, e.
  - destruct (IH (add_log [Call (f x) None] st))
      as [E | (done & y & rest & e & -> & E)]; rewrite E, add_log_app.
    + by left.
    + right. by exists (x :: done), y, rest, e.
Qed.

Lemma setup_run env st :
  let res := setup_git_structure env st in
  let o := self st in
  let calls := setup_calls (platform env) o in
  let rules := os_path_join (platform env) (repo_path o) ".gitignore" in
  self (snd res) = o /\ cwd (snd res) = cwd st /\
  ((fst res = Ok tt /\
    log (snd res) =
      log st ++ Print MsgSetupStart :: map went_through calls ++ [Print MsgSetupDone] /\
    files (snd res) = <[rules := Text gitignore_content]> (files st)) \/
   (exists done op rest e,
      calls = done ++ op :: rest /\
      fst res = Raise e /\
      log (snd res) =
        log st ++ Print MsgSetupStart :: map went_through done ++ [Call op (Some e)] /\
      files (snd res) = files st)).
Proof.
  intros res o calls rules. subst res.
  unfold setup_git_structure, os_makedirs, write_text.
  rewrite bind_unfold. cbn [print]. rewrite bind_unfold. cbn [gets].
  rewrite log_event_add_log. cbn [self add_log]. fold o.
  rewrite bind_unfold, call_run.
  set (st1 := add_log [Print MsgSetupStart] st).
  destruct (fault env _ (OpMakedirs (original_folder o))) as [e|].
  { cbn [fst snd]. repeat split. right.
    exists [], (OpMakedirs (original_folder o)), (tl calls), e.
    repeat split. subst st1. cbn. by rewrite <- app_assoc. }
  rewrite bind_unfold.
  set (st2 := add_log [Call (OpMakedirs (original_folder o)) None] st1).
  destruct (for_each_calls env
              (fun size => OpMakedirs (join env (optimized_folder o) size))
              (map fst (sizes_config o)) st2)
    as [E | (done & x & rest & e & Hl & E)]; rewrite E.
  2:{ cbn [fst snd]. repeat split. right.
      exists (OpMakedirs (original_folder o)
              :: map (fun size => OpMakedirs (join env (optimized_folder o) size)) done),
        (OpMakedirs (join env (optimized_folder o) x)),
        (map (fun size => OpMakedirs (join env (optimized_folder o) size)) rest
         ++ [OpWriteText rules gitignore_content]), e.
      split.
      { subst calls. unfold setup_calls. rewrite Hl, map_app. cbn [map app].
        by rewrite <- app_assoc. }
      repeat split. subst st2 st1. cbn. rewrite <- !app_assoc. cbn.
      by rewrite map_map. }
  rewrite bind_unfold, bind_unfold, call_run.
  set (st3 := add_log _ st2).
  destruct (fault env _ (OpWriteText _ _)) as [e|].
  { cbn [fst snd]. repeat split. right.
    exists (OpMakedirs (original_folder o)
            :: map (fun size => OpMakedirs (join env (optimized_folder o) size))
                 (map fst (sizes_config o))),
      (OpWriteText rules gitignore_content), [], e.
    repeat split. subst st3 st2 st1. cbn. rewrite <- !app_assoc. cbn.
    by rewrite !map_map. }
  cbn [put_file print fst snd log_event add_log self cwd files log].
  repeat split. left. repeat split.
  subst st3 st2 st1 calls. unfold setup_calls. cbn. rewrite <- !app_assoc. cbn.
  rewrite !map_app, !map_map. cbn. by rewrite <- !app_assoc.
Qed.

Lemma print_name_run env name m st :
  print_name env name m st =
  match fault env (length (log st)) (OpStdout name) with
  | Some e => (Raise e, add_log [Call (OpStdout name) (Some e)] st)
  | None => (Ok tt, add_log [Print m] st)
  end.
Proof. reflexivity. Qed.

Lemma move_file_run env o image_path st :
  exists m,
    try_except
      (bind (os_rename env image_path
               (join env (original_folder o) (os_path_basename env image_path)))
            (fun _ => print_name env (os_path_basename env image_path)
                        (MsgMoved (os_path_basename env image_path))))
      (fun e => print_name env (os_path_basename env image_path)
                  (MsgMoveError (os_path_basename env image_path) e)) st =
    (move_result m, add_log (move_events (platform env) o (image_path, m)) st) /\
    forall e, move_raises m = Some e ->
      exists t, fault env t (OpStdout (os_path_basename env image_path)) = Some e.
Proof.
  unfold try_except, os_rename. rewrite bind_unfold, call_run.
  case_fault_eq e H0.
  - rewrite print_name_run. case_fault_eq e' H; rewrite add_log_app.
    + exists (FailedUntold e e'). split; [reflexivity|].
      intros ? [= <-]. eexists. exact H.
    + exists (MoveFailed e). split; [reflexivity|]. intros ? [=].
  - rewrite print_name_run. case_fault_eq e H; rewrite add_log_app.
    2:{ exists MoveDone. split; [reflexivity|]. intros ? [=]. }
    rewrite print_name_run. case_fault_eq e' H'; rewrite add_log_app.
    + exists (MoveUntoldTwice e e'). split; [reflexivity|].
      intros ? [= <-]. eexists. exact H'.
    + exists (MoveUntold e). split; [reflexivity|]. intros ? [=].
Qed.

Lemma move_loop env o image_files : forall st,
  exists done ms,
    length ms = length done /\
    Forall (fun m => move_raises m = None) ms /\
    let moved := flat_map (move_events (platform env) o) (combine done ms) in
    let loop :=
      for_each image_files
        (fun image_path =>
           try_except
             (bind (os_rename env image_path
                      (join env (original_folder o) (os_path_basename env image_path)))
                   (fun _ => print_name env (os_path_basename env image_path)
                               (MsgMoved (os_path_basename env image_path))))
             (fun e => print_name env (os_path_basename env image_path)
                         (MsgMoveError (os_path_basename env image_path) e))) in
    (done = image_files /\ loop st = (Ok tt, add_log moved st)) \/
    (exists p rest m e,
       image_files = done ++ p :: rest /\
       move_raises m = Some e /\
       (exists t, fault env t (OpStdout (os_path_basename env p)) = Some e) /\
       loop st = (Raise e, add_log (moved ++ move_events (platform env) o (p, m)) st)).
Proof.
  induction image_files as [|p l IH]; intros st.
  { exists [], []. split; [reflexivity|]. split; [constructor|]. left.
    split; [reflexivity|]. cbn. by rewrite add_log_nil. }
  cbn [for_each]. cbn zeta. rewrite bind_unfold.
  destruct (move_file_run env o p st) as (m & -> & Hm).
  unfold move_result. destruct (move_raises m) as [e|] eqn:Hr.
  { exists [], []. split; [reflexivity|]. split; [constructor|]. right.
    exists p, l, m, e. split; [reflexivity|]. split; [exact Hr|].
    split; [by apply Hm|]. reflexivity. }
  destruct (IH (add_log (move_events (platform env) o (p, m)) st))
    as (done & ms & Hlen & Hq & [[Hd E]|(q & rest & m' & e & Hd & Hr' & Hf & E)]);
    cbn zeta in E; rewrite E, add_log_app;
    exists (p :: done), (m :: ms);
    (split; [cbn; by rewrite Hlen|]); (split; [by constructor|]).
  - left. split; [by rewrite Hd | reflexivity].
  - right. exists q, rest, m', e. split; [by rewrite Hd|]. split; [exact Hr'|].
    split; [exact Hf|]. cbn [combine flat_map]. by rewrite <- app_assoc.
Qed.

Lemma rename_attempts_move_one pf o p m :
  rename_attempts (move_events pf o (p, m)) =
  [(p, os_path_join pf (original_folder o) (os_path_basename_aux pf p ""))].
Proof. by destruct m. Qed.

Lemma rename_attempts_move pf o image_files : forall ms,
  length ms = length image_files ->
  rename_attempts (flat_map (move_events pf o) (combine image_files ms)) =
  map (fun p => (p, os_path_join pf (original_folder o) (os_path_basename_aux pf p "")))
    image_files.
Proof.
  induction image_files as [|p l IH]; intros [|m ms] Hlen; try discriminate Hlen;
    [reflexivity|].
  cbn [combine flat_map]. unfold rename_attempts in *. rewrite flat_map_app.
  cbn [map]. rewrite IH by (cbn in Hlen; lia).
  fold (rename_attempts (move_events pf o (p, m))).
  by rewrite rename_attempts_move_one.
Qed.

Lemma cleanup_run env anillos_path st :
  exists c,
    try_except
      (bind (os_listdir env anillos_path)
         (fun entries =>
            match entries with
            | [] => bind (os_rmdir env anillos_path) (fun _ => print MsgLegacyRemoved)
            | _ => ret tt
            end))
      (fun _ => ret tt) st =
      (Ok tt, add_log (cleanup_events anillos_path c) st) /\
    match c with
    | RmdirRaised _ | Removed =>
        listdir_result env (length (log st)) anillos_path = []
    | _ => True
    end.
Proof.
  unfold try_except, os_listdir, os_rmdir. rewrite bind_unfold, bind_unfold, call_run.
  destruct (fault env _ (OpListdir anillos_path)) as [e|].
  { by exists (ListdirRaised e). }
  cbn [ret].
  destruct (listdir_result env (length (log st)) anillos_path) as [|x l] eqn:Hl.
  2:{ by exists StillFull. }
  rewrite bind_unfold, call_run.
  destruct (fault env _ (OpRmdir anillos_path)) as [e|].
  - exists (RmdirRaised e). rewrite add_log_app. by split.
  - exists Removed. rewrite print_run, !add_log_app. by split.
Qed.

Lemma move_run env st :
  let o := self st in
  let pf := platform env in
  let anillos_path := os_path_join pf (repo_path o) "Anillos" in
  let image_files :=
    glob_result env (length (log st) + 2)%nat (os_path_join pf anillos_path "*.png") in
  let head := [Call (OpExists anillos_path) None; Print MsgMoving;
               Call (OpGlob (os_path_join pf anillos_path "*.png")) None] in
  if path_exists env (length (log st)) anillos_path
  then
    exists done ms,
      length ms = length done /\
      Forall (fun m => move_raises m = None) ms /\
      let moved := flat_map (move_events pf o) (combine done ms) in
      (done = image_files /\
       exists c,
         move_existing_images env st =
           (Ok tt, add_log (head ++ moved ++ cleanup_events anillos_path c) st) /\
         match c with
         | RmdirRaised _ | Removed =>
             listdir_result env (length (log st ++ head ++ moved)) anillos_path = []
         | _ => True
         end) \/
      (exists p rest m e,
         image_files = done ++ p :: rest /\
         move_raises m = Some e /\
         (exists t, fault env t (OpStdout (os_path_basename env p)) = Some e) /\
         move_existing_images env st =
           (Raise e, add_log (head ++ moved ++ move_events pf o (p, m)) st))
  else
    move_existing_images env st = (Ok tt, add_log [Call (OpExists anillos_path) None] st).
Proof.
  intros o pf anillos_path image_files head.
  unfold move_existing_images, os_path_exists, glob_glob.
  rewrite bind_unfold. cbn [gets]. fold o. rewrite bind_unfold, ask_run.
  change (join env (repo_path o) "Anillos") with anillos_path.
  destruct (path_exists env (length (log st)) anillos_path); [|reflexivity].
  rewrite bind_unfold, print_run, add_log_app, bind_unfold, ask_run, add_log_app.
  cbn [log add_log app].
  assert (Hfiles : glob_result env
            (length (log st ++ [Call (OpExists anillos_path) None; Print MsgMoving]))
            (join env anillos_path "*.png") = image_files).
  { subst image_files. f_equal. rewrite length_app. reflexivity. }
  rewrite Hfiles, bind_unfold.
  match goal with |- context [for_each image_files ?b ?s] =>
    destruct (move_loop env o image_files s)
      as (done & ms & Hlen & Hq & [[Hd E]|(p & rest & m & e & Hfs & Hr & Hf & E)])
  end; cbn zeta in E; rewrite E, add_log_app;
    exists done, ms; (split; [exact Hlen|]); (split; [exact Hq|]).
  - left. split; [exact Hd|].
    match goal with |- context [try_except ?m ?h ?s] =>
      destruct (cleanup_run env anillos_path s) as (c & Ec & Hc) end.
    rewrite Ec, add_log_app. exists c. split.
    + unfold head. by rewrite <- ?app_assoc.
    + destruct c; try exact I; exact Hc.
  - right. exists p, rest, m, e. split; [exact Hfs|]. split; [exact Hr|].
    split; [exact Hf|]. reflexivity.
Qed.

Lemma written_cons env root filename img item items m :
  written env root filename img (item :: items) m =
  written env root filename img items (size_files env root filename img item None m).
Proof. reflexivity. Qed.

Lemma files_after_sizes env root filename img items : forall st,
  files (after_sizes env root filename img items st) =
  written env root filename img items (files st).
Proof.
  induction items as [|item items IH]; intros st; [reflexivity|].
  rewrite written_cons. cbn [after_sizes fold_left].
  change (fold_left _ items ?s) with (after_sizes env root filename img items s).
  by rewrite IH.
Qed.

Lemma written_union env root filename img items : forall m,
  written env root filename img items m =
  written env root filename img items ∅ ∪ m.
Proof.
  induction items as [|item items IH]; intros m.
  - cbn. by rewrite (left_id_L ∅ (∪)).
  - rewrite !written_cons.
    rewrite IH. rewrite (IH (size_files env root filename img item None ∅)).
    cbn [size_files]. rewrite <- (assoc_L (∪)). f_equal.
    rewrite !insert_union_singleton_l. rewrite (right_id_L ∅ (∪)).
    by rewrite <- (assoc_L (∪)).
Qed.

Lemma written_twice env root filename img items m :
  written env root filename img items (written env root filename img items m) =
  written env root filename img items m.
Proof.
  rewrite (written_union _ _ _ _ _ (written _ _ _ _ _ m)).
  rewrite (written_union _ _ _ _ _ m) at 1 2.
  rewrite (assoc_L (∪)). by rewrite (idemp_L (∪)).
Qed.

Lemma files_after_completed env image_path sz st :
  files (after_optimize env image_path (Tried sz Completed) st) =
  written env (optimized_folder (self st)) (stem env image_path)
    (working_image env image_path) (sizes_config (self st)) (files st).
Proof.
  cbn [after_optimize try_result after_try]. rewrite files_after_sizes. reflexivity.
Qed.

Lemma config_after_optimize env image_path out st :
  repo_path (self (after_optimize env image_path out st)) = repo_path (self st) /\
  original_folder (self (after_optimize env image_path out st)) = original_folder (self st) /\
  optimized_folder (self (after_optimize env image_path out st)) = optimized_folder (self st) /\
  sizes_config (self (after_optimize env image_path out st)) = sizes_config (self st).
Proof. rewrite self_after_optimize. by repeat split. Qed.

Lemma completed_length env image_path catalog out :
  possible env image_path out catalog ->
  (length (completed catalog out) <= length catalog)%nat /\
  (optimize_result out = Ok true -> completed catalog out = catalog).
Proof.
  intros Hp. destruct out as [e|sz [e|e|done item rest step e|]|sz e];
    cbn [completed length optimize_result try_result];
    try (split; [lia | discriminate]).
  - cbn [possible try_possible] in Hp. subst catalog. rewrite length_app.
    split; [lia | discriminate].
  - split; [lia | reflexivity].
Qed.

Lemma open_not_in_size_events env root filename img item fail q r :
  ~ In (Call (OpImageOpen q) r) (size_events env root filename img item fail).
Proof.
  destruct fail as [[[] e]|]; simpl; intros H;
    repeat (destruct H as [H|H]; [discriminate H | ]); contradiction.
Qed.

Lemma opened_paths_app l1 l2 :
  opened_paths (l1 ++ l2) = opened_paths l1 ++ opened_paths l2.
Proof. apply flat_map_app. Qed.

Lemma opened_paths_none l :
  (forall q r, ~ In (Call (OpImageOpen q) r) l) -> opened_paths l = [].
Proof.
  induction l as [|ev l IH]; intros H; [reflexivity|].
  cbn [opened_paths flat_map]. fold (opened_paths l).
  rewrite IH by (intros q r Hin; apply (H q r); by right).
  destruct ev as [[] r|m]; try reflexivity.
  exfalso. apply (H path r). by left.
Qed.

Lemma opened_paths_sizes env image_path root items :
  opened_paths (sizes_events env image_path root items) = [].
Proof.
  apply opened_paths_none. intros q r Hin. unfold sizes_events in Hin.
  apply in_flat_map in Hin as (item & _ & Hin).
  by apply open_not_in_size_events in Hin.
Qed.

Lemma opened_paths_convert env image_path r :
  opened_paths (convert_events env image_path r) = [].
Proof. unfold convert_events. by destruct (mode_needs_convert _). Qed.

(** A source that is taken up is opened once. *)
Lemma opened_paths_optimize env image_path root catalog out :
  opened_paths (optimize_events env image_path root catalog out) =
  match out with
  | StatRaised _ | NameRaised _ _ => []
  | Tried _ _ => [image_path]
  end.
Proof.
  destruct out as [e|sz [e|e|done item rest step e|]|sz e]; try reflexivity.
  - cbn [optimize_events try_events try_result].
    rewrite !opened_paths_app. cbn [opened_paths flat_map opened_path app].
    fold (opened_paths (convert_events env image_path None ++
            sizes_events env image_path root done ++
            size_events env root (stem env image_path) (working_image env image_path)
              item (Some (step, e)))).
    rewrite !opened_paths_app, opened_paths_convert, opened_paths_sizes.
    rewrite (opened_paths_none (size_events _ _ _ _ _ _))
      by (intros q r; apply open_not_in_size_events).
    reflexivity.
  - cbn [optimize_events try_events try_result].
    rewrite !opened_paths_app. cbn [opened_paths flat_map opened_path app].
    fold (opened_paths (convert_events env image_path None ++
            sizes_events env image_path root catalog)).
    rewrite !opened_paths_app, opened_paths_convert, opened_paths_sizes.
    reflexivity.
Qed.

(** What the loop of [process_all_images] keeps and what it adds. *)
Lemma process_loop_frame env image_files : forall k st,
  let res := process_loop env image_files k st in
  let n := length (sizes_config (self st)) in
  cwd (snd res) = cwd st /\
  repo_path (self (snd res)) = repo_path (self st) /\
  original_folder (self (snd res)) = original_folder (self st) /\
  optimized_folder (self (snd res)) = optimized_folder (self st) /\
  sizes_config (self (snd res)) = sizes_config (self st) /\
  exists delta added,
    log (snd res) = log st ++ delta /\
    processed_files (self (snd res)) = processed_files (self st) ++ added /\
    dom (files st) ⊆ dom (files (snd res)) /\
    (2 * n * succeeded_sources delta <= length added)%nat /\
    (length added <= 2 * n * count is_optimizing delta)%nat /\
    (count is_error delta <= count is_optimizing delta)%nat /\
    (count is_optimizing delta <= length image_files)%nat /\
    opened_paths delta = firstn (count is_optimizing delta) image_files /\
    (forall im path fmt q r,
       In (Call (OpSave im path fmt q) r) delta ->
       exists item stem_ enc,
         In item (sizes_config (self st)) /\
         path = artifact_path (platform env) (optimized_folder (self st)) stem_
                  (fst item) enc).
Proof.
  induction image_files as [|image_path rest IH]; intros k st res n.
  { subst res. cbn [process_loop ret fst snd]. do 5 (split; [reflexivity|]).
    exists [], []. rewrite !app_nil_r. cbn. repeat split; try lia; set_solver. }
  subst res. rewrite process_loop_step.
  destruct (optimize_image_closed env image_path st) as (out & Hp & Hres & Hst & Hlog).
  pose proof (optimize_events_counts env image_path (optimized_folder (self st))
                (sizes_config (self st)) out) as (_ & Hcount).
  pose proof (opened_paths_optimize env image_path (optimized_folder (self st))
                (sizes_config (self st)) out) as Hopen.
  pose proof (fun im path fmt q r =>
                save_in_optimize_events env image_path (optimized_folder (self st))
                  (sizes_config (self st)) out im path fmt q r Hp) as Hsave.
  set (d1 := optimize_events env image_path (optimized_folder (self st))
               (sizes_config (self st)) out) in *.
  destruct (config_after_optimize env image_path out st) as (C1 & C2 & C3 & C4).
  pose proof (cwd_after_optimize env image_path out st) as Hcwd.
  pose proof (self_after_optimize env image_path out st) as Hself.
  pose proof (dom_after_optimize env image_path out st) as Hdom.
  destruct (completed_length env image_path (sizes_config (self st)) out Hp) as [Hlen Hall].
  rewrite <- Hst in C1, C2, C3, C4, Hcwd, Hself, Hdom.
  rewrite <- Hres in Hcount.
  set (a1 := artifact_paths (platform env) (optimized_folder (self st))
               (stem env image_path) (completed (sizes_config (self st)) out)) in *.
  assert (Ha1 : length a1 = (2 * length (completed (sizes_config (self st)) out))%nat).
  { subst a1. rewrite artifact_paths_length. lia. }
  assert (Hp1 : processed_files (self (snd (optimize_image env image_path st))) =
                processed_files (self st) ++ a1) by (by rewrite Hself).
  rewrite <- Hres in Hall.
  destruct (optimize_image env image_path st) as [[ok|e] st1]; cbn [fst snd] in *.
  - specialize (IH (if ok then S k else k) st1). cbn zeta in IH.
    destruct IH as (I1 & I2 & I3 & I4 & I5 & d2 & a2 & L2 & P2 & D2 & B1 & B2 & B3 & B4 & O2 & S2).
    rewrite I1, I2, I3, I4, I5, Hcwd, C1, C2, C3, C4.
    do 5 (split; [reflexivity|]).
    exists (d1 ++ d2), (a1 ++ a2).
    rewrite L2, Hlog, P2, Hp1, <- !app_assoc.
    split; [reflexivity|]. split; [reflexivity|].
    rewrite C4 in B1, B2. fold n in B1, B2.
    unfold succeeded_sources in *. rewrite !count_app, length_app, opened_paths_app, O2, Hopen.
    assert (Hout : exists sz t, out = Tried sz t).
    { destruct out as [e|sz t|sz e];
        [discriminate Hres | by eexists; eexists | discriminate Hres]. }
    destruct Hout as (sz & t & ->).
    assert (Hone : count is_optimizing d1 = 1%nat) by (destruct ok; tauto).
    rewrite Hone. cbn [firstn Nat.add app length].
    split; [set_solver|].
    assert (Hfull : ok = true -> length a1 = (2 * n)%nat).
    { intros ->. rewrite Ha1, Hall by reflexivity. reflexivity. }
    assert (Herr : count is_error d1 = if ok then 0%nat else 1%nat) by (destruct ok; tauto).
    rewrite Herr.
    split; [destruct ok; [rewrite Hfull by reflexivity|]; nia|].
    split; [fold n in Hlen; nia|].
    split; [destruct ok; lia|].
    split; [lia|].
    split; [reflexivity|].
    intros im path fmt q r Hin. apply in_app_or in Hin as [Hin|Hin].
    + apply Hsave in Hin as (item & enc & Hi & _ & Hpath & _).
      by exists item, (stem env image_path), enc.
    + apply S2 in Hin as (item & stem_ & enc & Hi & Hpath).
      rewrite C3 in Hpath. rewrite C4 in Hi. by exists item, stem_, enc.
  - rewrite Hcwd, C1, C2, C3, C4. do 5 (split; [reflexivity|]).
    exists d1, a1. split; [exact Hlog|]. split; [exact Hp1|].
    assert (Hout : (exists e', out = StatRaised e') \/ (exists sz e', out = NameRaised sz e')).
    { destruct out as [e'|sz [| | |]|sz e'];
        [left; by eexists | discriminate Hres.. | right; by eexists; eexists]. }
    destruct Hout as [(e' & ->)|(sz & e' & ->)]; subst d1 a1; cbn;
      repeat split; try lia; try set_solver.
Qed.

Section AllEvents.
Variable P : Event -> bool.
Hypothesis P_call : forall op r, generation_op op = true -> P (Call op r) = true.
Hypothesis P_optimizing : forall f z, P (Print (MsgOptimizing f z)) = true.
Hypothesis P_size : forall n a b, P (Print (MsgSizeDone n a b)) = true.
Hypothesis P_error : forall e, P (Print (MsgError e)) = true.

Lemma size_events_all env root filename img item fail :
  forallb P (size_events env root filename img item fail) = true.
Proof.
  destruct fail as [[[] e]|]; unfold size_events, ev_copy, ev_thumbnail, ev_webp, ev_jpg;
    cbn [forallb]; by rewrite ?P_call, ?P_size by reflexivity.
Qed.

Lemma optimize_events_all env image_path root catalog out :
  forallb P (optimize_events env image_path root catalog out) = true.
Proof.
  assert (Hs : forall items, forallb P (sizes_events env image_path root items) = true).
  { induction items as [|item items IH]; [done|].
    unfold sizes_events in *. cbn [flat_map].
    by rewrite forallb_app, IH, size_events_all. }
  assert (Hc : forallb P (convert_events env image_path None) = true).
  { unfold convert_events. destruct (mode_needs_convert _); cbn; by rewrite ?P_call by reflexivity. }
  destruct out as [e|sz [e|e|done item rest step e|]|sz e];
    cbn [optimize_events try_events try_result forallb app];
    rewrite ?forallb_app; cbn [forallb];
    rewrite ?forallb_app, ?P_optimizing, ?P_error, ?Hc, ?Hs, ?size_events_all;
    rewrite ?P_call by reflexivity;
    reflexivity.
Qed.

Lemma process_loop_all env image_files : forall k st,
  exists delta,
    log (snd (process_loop env image_files k st)) = log st ++ delta /\
    forallb P delta = true.
Proof.
  induction image_files as [|image_path rest IH]; intros k st.
  { exists []. cbn. by rewrite app_nil_r. }
  rewrite process_loop_step.
  destruct (optimize_image_closed env image_path st) as (out & _ & _ & _ & Hlog).
  pose proof (optimize_events_all env image_path (optimized_folder (self st))
                (sizes_config (self st)) out) as Hall.
  destruct (optimize_image env image_path st) as [[ok|e] st1]; cbn [snd] in *.
  - destruct (IH (if ok then S k else k) st1) as (d2 & E2 & H2).
    eexists. rewrite E2, Hlog, <- app_assoc. split; [reflexivity|].
    by rewrite forallb_app, Hall, H2.
  - eexists. split; [exact Hlog | exact Hall].
Qed.

End AllEvents.

Lemma process_all_images_run env st :
  let image_files :=
    glob_result env (length (log st) + 1)%nat (join env (original_folder (self st)) "*.png") in
  let st1 :=
    add_log [Print MsgProcessingStart;
             Call (OpGlob (join env (original_folder (self st)) "*.png")) None] st in
  process_all_images env st =
  match image_files with
  | [] => (Ok false, add_log [Print MsgNoImages] st1)
  | _ =>
      match process_loop env image_files 0%nat
              (add_log [Print (MsgFound (length image_files))] st1) with
      | (Ok k, st3) =>
          (Ok (0 <? k)%nat, add_log [Print (MsgProcessed k (length image_files))] st3)
      | (Raise e, st3) => (Raise e, st3)
      end
  end.
Proof.
  intros image_files st1. unfold process_all_images, glob_glob.
  rewrite bind_unfold, print_run, bind_unfold. cbn [gets add_log self].
  rewrite bind_unfold, ask_run, add_log_app. cbn [log add_log app].
  assert (E : glob_result env (length (log st ++ [Print MsgProcessingStart]))
                (join env (original_folder (self st)) "*.png") = image_files).
  { subst image_files. f_equal. rewrite length_app. reflexivity. }
  rewrite E. fold st1.
  destruct image_files as [|p l] eqn:Hfiles.
  - by rewrite bind_unfold, print_run.
  - rewrite <- Hfiles. rewrite bind_unfold, print_run, bind_unfold.
    destruct (process_loop env image_files 0%nat _) as [[k|e] st3]; [|reflexivity].
    by rewrite bind_unfold, print_run.
Qed.


Lemma summary_lines_app l1 l2 :
  summary_lines (l1 ++ l2) = summary_lines l1 ++ summary_lines l2.
Proof. apply flat_map_app. Qed.

Lemma summary_lines_none l :
  forallb (fun ev => match summary_line ev with [] => true | _ => false end) l = true ->
  summary_lines l = [].
Proof.
  induction l as [|ev l IH]; [reflexivity|]. cbn [forallb].
  intros H. apply andb_true_iff in H as [Hev Hl].
  cbn [summary_lines flat_map]. fold (summary_lines l). rewrite IH by exact Hl.
  by destruct (summary_line ev).
Qed.

(** The batch, as the loop leaves it. *)
Lemma process_all_images_closed env st :
  let res := process_all_images env st in
  let image_files :=
    glob_result env (length (log st) + 1)%nat
      (os_path_join (platform env) (original_folder (self st)) "*.png") in
  let n := length (sizes_config (self st)) in
  cwd (snd res) = cwd st /\
  repo_path (self (snd res)) = repo_path (self st) /\
  original_folder (self (snd res)) = original_folder (self st) /\
  optimized_folder (self (snd res)) = optimized_folder (self st) /\
  sizes_config (self (snd res)) = sizes_config (self st) /\
  exists delta added,
    log (snd res) = log st ++ delta /\
    processed_files (self (snd res)) = processed_files (self st) ++ added /\
    dom (files st) ⊆ dom (files (snd res)) /\
    (2 * n * succeeded_sources delta <= length added)%nat /\
    (length added <= 2 * n * count is_optimizing delta)%nat /\
    (count is_error delta <= count is_optimizing delta)%nat /\
    (exists taken, opened_paths delta = firstn taken image_files) /\
    (forall im path fmt q r,
       In (Call (OpSave im path fmt q) r) delta ->
       exists item stem_ enc,
         In item (sizes_config (self st)) /\
         path = artifact_path (platform env) (optimized_folder (self st)) stem_
                  (fst item) enc) /\
    match fst res with
    | Ok processed =>
        processed = (0 <? succeeded_sources delta)%nat /\
        opened_paths delta = image_files /\
        (succeeded_sources delta + failed_sources delta)%nat = length image_files /\
        summary_lines delta =
          match image_files with
          | [] => []
          | _ => [(succeeded_sources delta, length image_files)]
          end /\
        (image_files = [] ->
         delta = [Print MsgProcessingStart;
                  Call (OpGlob (os_path_join (platform env)
                                  (original_folder (self st)) "*.png")) None;
                  Print MsgNoImages])
    | Raise _ => summary_lines delta = [] /\ image_files <> []
    end.
Proof.
  intros res image_files n. subst res.
  rewrite process_all_images_run. cbn zeta.
  change (join env (original_folder (self st)) "*.png")
    with (os_path_join (platform env) (original_folder (self st)) "*.png").
  fold image_files.
  set (pattern := os_path_join (platform env) (original_folder (self st)) "*.png").
  destruct image_files as [|p0 l0] eqn:Hfiles.
  { cbn [fst snd add_log self cwd files log]. do 5 (split; [reflexivity|]).
    exists [Print MsgProcessingStart; Call (OpGlob pattern) None; Print MsgNoImages], [].
    rewrite app_nil_r, <- !app_assoc. cbn.
    repeat split; try lia; try set_solver. by exists 0%nat. }
  rewrite <- Hfiles.
  set (st2 := add_log [Print (MsgFound (length image_files))] _).
  pose proof (process_loop_frame env image_files 0%nat st2) as Hframe.
  pose proof (process_loop_log env image_files 0%nat st2) as Hlog.
  pose proof (process_loop_all
                (fun ev => match summary_line ev with [] => true | _ => false end)
                ltac:(done) ltac:(done) ltac:(done) ltac:(done)
                env image_files 0%nat st2) as Hall.
  cbn zeta in Hframe, Hlog.
  destruct Hframe as (F1 & F2 & F3 & F4 & F5 & d & a & L & Pf & D & B1 & B2 & B3 & B4 & O & S).
  destruct Hlog as (d' & L' & _ & _ & Hk).
  destruct Hall as (d'' & L'' & Hsum).
  assert (d' = d) by (rewrite L in L'; by apply app_inv_head in L'). subst d'.
  assert (d'' = d) by (rewrite L in L''; by apply app_inv_head in L''). subst d''.
  apply summary_lines_none in Hsum.
  set (head := [Print MsgProcessingStart; Call (OpGlob pattern) None;
                Print (MsgFound (length image_files))]).
  assert (Hst2 : log st2 = log st ++ head).
  { subst st2 head. cbn. by rewrite <- app_assoc. }
  assert (Hhead : count is_optimizing head = 0%nat /\ count is_error head = 0%nat /\
                  opened_paths head = [] /\ summary_lines head = []) by done.
  destruct Hhead as (Ho & He & Hop & Hsl).
  destruct (process_loop env image_files 0%nat st2) as [[k|e] st3]; cbn [fst snd] in *.
  - cbn [add_log self cwd files log]. rewrite F1, F2, F3, F4, F5.
    do 5 (split; [reflexivity|]).
    exists (head ++ d ++ [Print (MsgProcessed k (length image_files))]), a.
    rewrite L, Hst2, <- !app_assoc. split; [reflexivity|]. split; [exact Pf|].
    split; [exact D|].
    unfold succeeded_sources, failed_sources in *.
    rewrite !count_app, Ho, He, !opened_paths_app, Hop, !summary_lines_app, Hsl, Hsum.
    cbn [count List.filter is_optimizing is_error length opened_paths flat_map
         opened_path summary_lines summary_line app Nat.add].
    rewrite !Nat.add_0_r, !app_nil_r.
    destruct Hk as [-> Hn]. fold n in B1, B2.
    split; [exact B1|]. split; [exact B2|]. split; [exact B3|].
    split; [eexists; exact O|].
    split; [intros im path fmt q r Hin; unfold head in Hin; cbn [app] in Hin;
            destruct Hin as [H|[H|[H|Hin]]]; try discriminate H;
            apply in_app_or in Hin as [Hin|[H|[]]]; [by apply (S im path fmt q r) | discriminate H]|].
    split; [reflexivity|]. rewrite O, Hn, firstn_all.
    split; [reflexivity|]. split; [lia|].
    split; [by rewrite Hfiles|]. rewrite Hfiles. discriminate.
  - rewrite F1, F2, F3, F4, F5. do 5 (split; [reflexivity|]).
    exists (head ++ d), a.
    rewrite L, Hst2, <- !app_assoc. split; [reflexivity|]. split; [exact Pf|].
    split; [exact D|].
    unfold succeeded_sources in *.
    rewrite !count_app, Ho, He, !opened_paths_app, Hop, !summary_lines_app, Hsl, Hsum.
    cbn [Nat.add app]. fold n in B1, B2.
    split; [exact B1|]. split; [exact B2|]. split; [exact B3|].
    split; [eexists; exact O|].
    split; [intros im path fmt q r Hin; unfold head in Hin; cbn [app] in Hin;
            destruct Hin as [H|[H|[H|Hin]]]; try discriminate H; by apply (S im path fmt q r)|].
    split; [reflexivity|]. by rewrite Hfiles.
Qed.

Lemma raised_in_size_events env root filename img item fail op e :
  In (Call op (Some e)) (size_events env root filename img item fail) ->
  match op with
  | OpCopy _ | OpThumbnail _ _ | OpSave _ _ _ _ => True
  | _ => False
  end.
Proof.
  destruct fail as [[[] e']|]; simpl; intros H;
    repeat (destruct H as [H|H]; [try discriminate H | ]); try contradiction;
    by injection H as <- <-.
Qed.


(** *** The whole run *)

Lemma all_not_in (P : Event -> bool) l ev :
  forallb P l = true -> P ev = false -> ~ In ev l.
Proof.
  intros Hall Hev Hin. rewrite forallb_forall in Hall.
  apply Hall in Hin. rewrite Hin in Hev. discriminate Hev.
Qed.

Lemma housekeeping_setup pf o ops rest :
  setup_calls pf o = ops ++ rest ->
  forallb housekeeping (map went_through ops) = true.
Proof.
  intros E.
  assert (H : forallb housekeeping (map went_through (setup_calls pf o)) = true).
  { unfold setup_calls. cbn [map forallb went_through housekeeping andb].
    rewrite map_app, forallb_app. cbn [map forallb went_through housekeeping andb].
    rewrite andb_true_r.
    induction (map fst (sizes_config o)) as [|size sizes IH]; [done|]. exact IH. }
  rewrite E, map_app, forallb_app in H. by apply andb_true_iff in H as [H _].
Qed.

Lemma split_after (P : Event -> bool) l1 l2 pre x post :
  forallb (fun ev => negb (P ev)) l1 = true -> P x = true ->
  l1 ++ l2 = pre ++ x :: post ->
  exists pre2, pre = l1 ++ pre2 /\ l2 = pre2 ++ x :: post.
Proof.
  intros Hl1 Hx. revert pre. induction l1 as [|a l1 IH]; intros pre E.
  { by exists pre. }
  cbn [forallb] in Hl1. apply andb_true_iff in Hl1 as [Ha Hl1].
  destruct pre as [|b pre]; cbn [app] in E; injection E as -> E.
  - rewrite Hx in Ha. discriminate Ha.
  - destruct (IH Hl1 pre E) as (pre2 & -> & ->). by exists pre2.
Qed.

Lemma no_rmdir_in_moves pf o items :
  forallb (fun ev => negb (is_rmdir ev)) (flat_map (move_events pf o) items) = true.
Proof.
  induction items as [|[image_path []] items IH]; [done|..]; exact IH.
Qed.

Lemma rmdir_in_cleanup anillos_path c pre q r post :
  cleanup_events anillos_path c = pre ++ Call (OpRmdir q) r :: post ->
  q = anillos_path /\ pre = [Call (OpListdir anillos_path) None] /\
  match c with RmdirRaised _ | Removed => True | _ => False end.
Proof.
  destruct c; destruct pre as [|a [|b [|b' [|b'' pre]]]]; cbn; intros E;
    try discriminate E; by simplify_eq.
Qed.

Lemma housekeeping_move_events pf o items :
  forallb housekeeping (flat_map (move_events pf o) items) = true.
Proof.
  induction items as [|[image_path []] items IH]; [done|..]; exact IH.
Qed.

Lemma move_housekeeping env st :
  exists r d,
    move_existing_images env st = (r, add_log d st) /\
    forallb housekeeping d = true.
Proof.
  pose proof (move_run env st) as H. cbn zeta in H.
  destruct (path_exists env (length (log st)) _).
  - destruct H as (done & ms & _ & _ & [(_ & c & E & _)|(p & rest & m & e & _ & _ & _ & E)]);
      eexists; eexists; (split; [exact E|]);
      cbn [app forallb housekeeping andb];
      rewrite forallb_app, housekeeping_move_events; [by destruct c | by destruct m].
  - by eexists; eexists.
Qed.

Lemma process_all_images_generation env st :
  exists d,
    log (snd (process_all_images env st)) = log st ++ d /\
    forallb generation d = true.
Proof.
  rewrite process_all_images_run. cbn zeta.
  destruct (glob_result env _ _) as [|p0 l0] eqn:Hfiles.
  { eexists. cbn [snd add_log log]. rewrite <- app_assoc. by split. }
  rewrite <- Hfiles.
  set (image_files := glob_result env _ _).
  match goal with |- context [process_loop env image_files 0%nat ?s] =>
    set (st2 := s) end.
  destruct (process_loop_all generation
              ltac:(by intros [] r H) ltac:(done) ltac:(done) ltac:(done)
              env image_files 0%nat st2) as (d & L & Hall).
  destruct (process_loop env image_files 0%nat st2) as [[k|e] st3];
    cbn [snd add_log log] in *; rewrite L; subst st2; cbn [add_log log];
    rewrite <- !app_assoc; eexists; (split; [reflexivity|]);
    cbn [app forallb generation andb]; rewrite ?forallb_app, Hall; reflexivity.
Qed.

Lemma run_full_run env st :
  run_full_optimization env st =
  match setup_git_structure env (add_log [Print (MsgBanner (repo_path (self st)))] st) with
  | (Raise e, st1) => (Raise e, st1)
  | (Ok _, st1) =>
      match move_existing_images env st1 with
      | (Raise e, st2) => (Raise e, st2)
      | (Ok _, st2) =>
          match process_all_images env st2 with
          | (Raise e, st3) => (Raise e, st3)
          | (Ok false, st3) => (Ok tt, add_log [Print MsgCannotProcess] st3)
          | (Ok true, st3) =>
              match git_commit_and_push env st3 with
              | (Raise e, st4) => (Raise e, st4)
              | (Ok pushed, st4) => (Ok tt, add_log (closing_lines pushed) st4)
              end
          end
      end
  end.
Proof.
  unfold run_full_optimization, update_urls_info.
  rewrite bind_unfold. cbn [gets]. rewrite bind_unfold, print_run, bind_unfold.
  destruct (setup_git_structure env _) as [[[]|e] st1]; [|reflexivity].
  rewrite bind_unfold.
  destruct (move_existing_images env st1) as [[[]|e] st2]; [|reflexivity].
  rewrite bind_unfold.
  destruct (process_all_images env st2) as [[[]|e] st3]; [| |reflexivity].
  - rewrite bind_unfold.
    destruct (git_commit_and_push env st3) as [[pushed|e] st4]; [|reflexivity].
    rewrite bind_unfold.
    destruct pushed; rewrite print_run, bind_unfold, print_run, print_run, !add_log_app;
      reflexivity.
  - by rewrite print_run.
Qed.

Lemma run_full_closed env st :
  let res := run_full_optimization env st in
  let o := self st in
  let pf := platform env in
  let n := length (sizes_config o) in
  let banner := Print (MsgBanner (repo_path o)) in
  (exists done op rest e,
     setup_calls pf o = done ++ op :: rest /\
     fst res = Raise e /\
     self (snd res) = o /\
     log (snd res) =
       log st ++ banner :: Print MsgSetupStart :: map went_through done
              ++ [Call op (Some e)]) \/
  (exists d2 d3 d4 added,
     log (snd res) =
       log st ++ (banner :: Print MsgSetupStart
                    :: map went_through (setup_calls pf o) ++ [Print MsgSetupDone])
              ++ d2 ++ d3 ++ d4 /\
     forallb housekeeping d2 = true /\
     forallb generation d3 = true /\
     repo_path (self (snd res)) = repo_path o /\
     processed_files (self (snd res)) = processed_files o ++ added /\
     (2 * n * succeeded_sources d3 <= length added)%nat /\
     (length added <= 2 * n * count is_optimizing d3)%nat /\
     (count is_error d3 <= count is_optimizing d3)%nat /\
     (forall im path fmt q r,
        In (Call (OpSave im path fmt q) r) d3 ->
        exists item stem_ enc,
          In item (sizes_config o) /\
          path = artifact_path pf (optimized_folder o) stem_ (fst item) enc) /\
     ((exists e, fst res = Raise e /\ d4 = []) \/
      (fst res = Ok tt /\ succeeded_sources d3 = 0%nat /\ d4 = [Print MsgCannotProcess]) \/
      (fst res = Ok tt /\ (0 < succeeded_sources d3)%nat /\
       exists out,
         d4 = publish_events (self (snd res)) out ++ closing_lines (publish_result out)))).
Proof.
  intros res o pf n banner. subst res. rewrite run_full_run.
  set (st0 := add_log _ st).
  pose proof (setup_run env st0) as H1. cbn zeta in H1.
  change (self st0) with o in H1. fold pf in H1.
  destruct (setup_git_structure env st0) as [r1 st1]. cbn [fst snd] in H1.
  destruct H1 as (S1 & _ & [(-> & L1 & _)|(done & op & rest & e & Hc & -> & L1 & _)]).
  2:{ left. exists done, op, rest, e. cbn [fst snd]. rewrite L1. subst st0.
      cbn [add_log log]. by rewrite <- app_assoc. }
  right.
  destruct (move_housekeeping env st1) as (r2 & d2 & -> & H2).
  destruct r2 as [[]|e2].
  2:{ exists d2, [], [], []. cbn [fst snd add_log log]. rewrite L1. subst st0.
      cbn [add_log log]. rewrite <- !app_assoc, !app_nil_r. cbn [app].
      split; [reflexivity|]. split; [exact H2|]. split; [reflexivity|].
      cbn [add_log self]. rewrite S1.
      split; [reflexivity|]. split; [reflexivity|].
      cbn. repeat split; try lia; try contradiction. left. by exists e2. }
  set (st2 := add_log d2 st1).
  pose proof (process_all_images_closed env st2) as H3. cbn zeta in H3.
  destruct (process_all_images_generation env st2) as (d3' & L3' & G3).
  change (self st2) with (self st1) in H3. rewrite S1 in H3. fold n pf in H3.
  destruct (process_all_images env st2) as [r3 st3]. cbn [fst snd] in H3, L3'.
  destruct H3 as (_ & R3 & _ & _ & _ & d3 & added & L3 & P3 & _ & B1 & B2 & B3 & _ & Sv & Hr).
  assert (d3' = d3) by (rewrite L3 in L3'; by apply app_inv_head in L3'). subst d3'.
  assert (L : log st3 =
            log st ++ (banner :: Print MsgSetupStart
                         :: map went_through (setup_calls pf o) ++ [Print MsgSetupDone])
                   ++ d2 ++ d3).
  { rewrite L3. subst st2. cbn [add_log log]. rewrite L1. subst st0.
    cbn [add_log log]. by rewrite <- !app_assoc. }
  destruct r3 as [processed|e].
  2:{ exists d2, d3, [], added. cbn [fst snd]. rewrite app_nil_r.
      do 9 (split; [assumption|]). left. by exists e. }
  destruct Hr as (Hp & _).
  destruct processed.
  - destruct (git_commit_and_push_closed env st3) as (out & Hres & Hst).
    destruct (git_commit_and_push env st3) as [r4 st4]. cbn [fst snd] in Hres, Hst.
    subst r4 st4.
    exists d2, d3, (publish_events (self st3) out ++ closing_lines (publish_result out)),
           added.
    cbn [fst snd add_log after_publish self log]. rewrite L, <- !app_assoc.
    do 9 (split; [assumption || reflexivity|]).
    right. right. split; [reflexivity|]. split; [|by exists out].
    symmetry in Hp. by apply Nat.ltb_lt in Hp.
  - exists d2, d3, [Print MsgCannotProcess], added.
    cbn [fst snd add_log self log]. rewrite L, <- !app_assoc.
    do 9 (split; [assumption || reflexivity|]).
    right. left. split; [reflexivity|]. split; [|reflexivity].
    symmetry in Hp. apply Nat.ltb_ge in Hp. lia.
Qed.


Lemma forallb_weaken (P Q : Event -> bool) l :
  (forall ev, P ev = true -> Q ev = true) ->
  forallb P l = true -> forallb Q l = true.
Proof.
  intros HPQ. induction l as [|ev l IH]; [done|]. cbn [forallb].
  intros H. apply andb_true_iff in H as [Hev Hl]. by rewrite (HPQ ev Hev), IH.
Qed.

Lemma count_none f l :
  forallb (fun ev => negb (f ev)) l = true -> count f l = 0%nat.
Proof.
  unfold count. induction l as [|ev l IH]; [done|]. cbn [forallb List.filter].
  intros H. apply andb_true_iff in H as [Hev Hl].
  destruct (f ev); [discriminate Hev | by apply IH].
Qed.

Lemma commit_messages_none l :
  forallb (fun ev => match commit_message_of ev with [] => true | _ => false end) l = true ->
  commit_messages l = [].
Proof.
  unfold commit_messages. induction l as [|ev l IH]; [done|]. cbn [forallb flat_map].
  intros H. apply andb_true_iff in H as [Hev Hl].
  destruct (commit_message_of ev); [by apply IH | discriminate Hev].
Qed.

Lemma commit_messages_app l1 l2 :
  commit_messages (l1 ++ l2) = commit_messages l1 ++ commit_messages l2.
Proof. apply flat_map_app. Qed.

Lemma publish_invoked_in l :
  publish_invoked l = true <-> In (Print MsgPublishStart) l.
Proof.
  unfold publish_invoked. rewrite existsb_exists. split.
  - intros ([op r|[]] & Hin & H); try discriminate H. exact Hin.
  - intros Hin. by exists (Print MsgPublishStart).
Qed.

Lemma housekeeping_raised op e :
  housekeeping (Call op (Some e)) = housekeeping (went_through op).
Proof. by destruct op. Qed.

(** The lines of a publication. *)
Lemma publish_lines o out :
  In (Print MsgPublishStart) (publish_events o out) /\
  (In (Print MsgPushOk) (publish_events o out) <-> publish_result out = true) /\
  ~ In (Print MsgUrlsInfo) (publish_events o out) /\
  ~ In (Print MsgCompleted) (publish_events o out) /\
  ~ In (Print MsgNotUploaded) (publish_events o out) /\
  ~ In (Print MsgCannotProcess) (publish_events o out) /\
  forallb (fun ev => negb (is_save ev)) (publish_events o out) = true.
Proof.
  destruct out as [[] [argv rc|msg]| |]; cbn;
    repeat split; try tauto; try discriminate;
    intros H; repeat (destruct H as [H|H]; [discriminate H|]); contradiction.
Qed.

Lemma main_run env st :
  let t := length (log st) in
  let git_dir := join env main_repo_path ".git" in
  main env st =
  if path_exists env t main_repo_path then
    if path_exists env (t + 1)%nat git_dir then
      run_full_optimization env
        (mkState (init env main_repo_path) (cwd st) (files st)
           (log st ++ [Call (OpExists main_repo_path) None;
                       Call (OpExists git_dir) None]))
    else
      (Ok tt, add_log [Call (OpExists main_repo_path) None;
                       Call (OpExists git_dir) None;
                       Print (MsgNotGitRepo main_repo_path)] st)
  else
    (Ok tt, add_log [Call (OpExists main_repo_path) None;
                     Print (MsgNoDirectory main_repo_path)] st).
Proof.
  intros t git_dir. unfold main, os_path_exists, set_self.
  rewrite bind_unfold, ask_run. fold t.
  destruct (path_exists env t main_repo_path).
  2:{ by rewrite print_run, add_log_app. }
  rewrite bind_unfold, ask_run. cbn [add_log log]. rewrite length_app. cbn [length].
  fold t git_dir.
  destruct (path_exists env (t + 1)%nat git_dir).
  2:{ by rewrite print_run, !add_log_app. }
  rewrite bind_unfold. cbn [add_log self cwd files log]. by rewrite <- app_assoc.
Qed.

End MoreFacts.

(** ** Further properties of the code *)

Module Extra.
Import Paths PIL Optimizer Runs Traces Examples PathFacts ShrinkFacts RunFacts MoreFacts.



(** X2.  Under one output root, the artifact path tells the stem, the
    profile and the encoding: for stems that hold no separator and no
    drive letter, two different triples of a stem, a profile of the
    catalog and an encoding never share a path. *)
Theorem artifact_path_injective pf root s1 s2 p1 p2 e1 e2 :
  no_sep pf s1 = true -> no_sep pf s2 = true ->
  has_drive pf s1 = false -> has_drive pf s2 = false ->
  In p1 (map fst default_sizes_config) -> In p2 (map fst default_sizes_config) ->
  (s1, p1, e1) <> (s2, p2, e2) ->
  artifact_path pf root s1 p1 e1 <> artifact_path pf root s2 p2 e2.
Proof.
  intros H1 H2 _ _ Hp1 Hp2 Hne E. apply Hne. clear Hne.
  rewrite !default_artifact_path in E by assumption.
  apply append_inv_head in E.
  simpl in Hp1, Hp2.
  destruct Hp1 as [<-|[<-|[<-|[]]]]; destruct Hp2 as [<-|[<-|[<-|[]]]];
    simpl in E; try discriminate E;
    injection E as E; by apply extension_inj in E as [-> ->].
Qed.

Lemma artifact_path_injective_witness :
  no_sep Windows "anillo-01" = true /\
  has_drive Windows "anillo-01" = false /\
  In "thumb" (map fst default_sizes_config) /\
  In "medium" (map fst default_sizes_config) /\
  ("anillo-01", "thumb", WEBP) <> ("anillo-01", "medium", WEBP) /\
  artifact_path Windows sources_folder "anillo-01" "thumb" WEBP <>
  artifact_path Windows sources_folder "anillo-01" "medium" WEBP.
Proof.
  split; [reflexivity|]. split; [reflexivity|].
  split; [simpl; tauto|]. split; [simpl; tauto|].
  split; [discriminate|].
  apply (artifact_path_injective Windows sources_folder
           "anillo-01" "anillo-01" "thumb" "medium" WEBP WEBP);
    [reflexivity | reflexivity | reflexivity | reflexivity
    | simpl; tauto | simpl; tauto | discriminate].
Defined.

(** X3.  [setup_git_structure] creates the source folder, then one output
    folder for each profile in catalog order, then writes the exclusion
    rules, and nothing else.  The first call that raises ends it: the
    exception escapes, the later calls are not made and the rules file is
    not written.  The optimizer and the working directory are untouched. *)
Theorem setup_creates_folders_then_rules env st :
  let res := setup_git_structure env st in
  let o := self st in
  let calls := setup_calls (platform env) o in
  let rules := os_path_join (platform env) (repo_path o) ".gitignore" in
  self (snd res) = o /\ cwd (snd res) = cwd st /\
  ((fst res = Ok tt /\
    log (snd res) =
      log st ++ Print MsgSetupStart :: map went_through calls ++ [Print MsgSetupDone] /\
    files (snd res) = <[rules := Text gitignore_content]> (files st)) \/
   (exists done op rest e,
      calls = done ++ op :: rest /\
      fst res = Raise e /\
      log (snd res) =
        log st ++ Print MsgSetupStart :: map went_through done ++ [Call op (Some e)] /\
      files (snd res) = files st)).
Proof. exact (setup_run env st). Qed.

(** X4.  [move_existing_images] changes neither the optimizer, the
    working directory nor the files of the run.  When the legacy folder
    is absent it only asks whether it exists.  Otherwise it asks
    [os.rename] for the listed files, in listing order and whatever
    happened to the files before, each towards the source folder under
    the file's own base name: for all of them when it returns, and up to
    the file whose line could not be printed when it raises.  It raises
    only what the [print] of the line of a listed file raised, as the
    last event, and so returns when no such line raises.  The legacy
    folder is removed only right after [os.listdir] has answered, then,
    that it is empty. *)
Theorem relocation_tries_every_file env st :
  let res := move_existing_images env st in
  let o := self st in
  let pf := platform env in
  let anillos_path := os_path_join pf (repo_path o) "Anillos" in
  let image_files :=
    glob_result env (length (log st) + 2)%nat (os_path_join pf anillos_path "*.png") in
  let destination p :=
    (p, os_path_join pf (original_folder o) (os_path_basename env p)) in
  self (snd res) = o /\ cwd (snd res) = cwd st /\ files (snd res) = files st /\
  exists delta,
    log (snd res) = log st ++ delta /\
    (if path_exists env (length (log st)) anillos_path
     then
       (exists k, rename_attempts delta = map destination (firstn k image_files)) /\
       (fst res = Ok tt -> rename_attempts delta = map destination image_files)
     else delta = [Call (OpExists anillos_path) None] /\ fst res = Ok tt) /\
    (forall e,
       fst res = Raise e ->
       exists pre p t,
         In p image_files /\
         delta = pre ++ [Call (OpStdout (os_path_basename env p)) (Some e)] /\
         fault env t (OpStdout (os_path_basename env p)) = Some e) /\
    ((forall t name, fault env t (OpStdout name) = None) -> fst res = Ok tt) /\
    (forall pre p r post,
       delta = pre ++ Call (OpRmdir p) r :: post ->
       p = anillos_path /\
       exists pre',
         pre = pre' ++ [Call (OpListdir anillos_path) None] /\
         listdir_result env (length (log st ++ pre')) anillos_path = []).
Proof.
  intros res o pf anillos_path image_files destination. subst res.
  pose proof (move_run env st) as Hrun. cbn zeta in Hrun.
  fold o pf anillos_path image_files in Hrun.
  destruct (path_exists env (length (log st)) anillos_path).
  2:{ rewrite Hrun. cbn [fst snd add_log self cwd files log].
      do 3 (split; [reflexivity|]).
      exists [Call (OpExists anillos_path) None].
      split; [reflexivity|]. split; [by split|].
      split; [intros e H; discriminate H|]. split; [reflexivity|].
      intros [|a [|b pre]] p r post E; discriminate E. }
  set (head := [Call (OpExists anillos_path) None; Print MsgMoving;
                Call (OpGlob (os_path_join pf anillos_path "*.png")) None]) in *.
  destruct Hrun as (done & ms & Hlen & Hq & Hrun).
  set (moved := flat_map (move_events pf o) (combine done ms)) in *.
  assert (Hmoved : rename_attempts moved = map destination done).
  { subst moved. by rewrite rename_attempts_move. }
  assert (Hclean : forallb (fun ev => negb (is_rmdir ev)) (head ++ moved) = true).
  { rewrite forallb_app. subst moved. by rewrite no_rmdir_in_moves. }
  destruct Hrun as [(Hd & c & E & Hc)|(p & rest & m & e & Hfs & Hr & (t & Hf) & E)];
    rewrite E; cbn [fst snd add_log self cwd files log];
    (do 3 (split; [reflexivity|])); eexists; (split; [reflexivity|]).
  - (* every file was tried *)
    assert (Hall : rename_attempts (head ++ moved ++ cleanup_events anillos_path c) =
                   map destination image_files).
    { unfold rename_attempts in *. rewrite !flat_map_app, Hmoved, Hd.
      assert (Hnone : flat_map rename_attempt (cleanup_events anillos_path c) = [])
        by (by destruct c).
      rewrite Hnone, app_nil_r. reflexivity. }
    split; [split; [|by intros _]|].
    { exists (length image_files). by rewrite firstn_all. }
    split; [intros e H; discriminate H|]. split; [reflexivity|].
    intros pre q r post Eq. rewrite app_assoc in Eq.
    destruct (split_after is_rmdir (head ++ moved) _ pre (Call (OpRmdir q) r) post
                Hclean eq_refl Eq) as (pre2 & -> & Ec).
    destruct (rmdir_in_cleanup _ _ _ _ _ _ Ec) as (-> & -> & Hrm).
    split; [reflexivity|]. exists (head ++ moved). split; [reflexivity|].
    by destruct c.
  - (* the line of [p] could not be printed *)
    assert (Hp : In p image_files) by (rewrite Hfs; apply in_app_iff; right; by left).
    split; [split; [|intros H; discriminate H]|].
    { exists (length done + 1)%nat.
      unfold rename_attempts in *. rewrite !flat_map_app, Hmoved.
      fold (rename_attempts (move_events pf o (p, m))).
      rewrite rename_attempts_move_one. cbn [flat_map rename_attempt head app].
      rewrite Hfs, firstn_app, firstn_all2 by lia.
      replace (length done + 1 - length done)%nat with 1%nat by lia.
      by rewrite map_app. }
    split.
    { intros e' [= <-].
      destruct m; try discriminate Hr; injection Hr as ->.
      - eexists (head ++ moved ++ [_]), p, t. split; [exact Hp|]. split; [|exact Hf].
        cbn [move_events]. by rewrite <- !app_assoc.
      - eexists (head ++ moved ++ [_; _]), p, t. split; [exact Hp|]. split; [|exact Hf].
        cbn [move_events]. by rewrite <- !app_assoc. }
    split; [intros Hnone; by rewrite Hnone in Hf|].
    intros pre q r post Eq. exfalso.
    assert (Hno : forallb (fun ev => negb (is_rmdir ev))
                    (head ++ moved ++ move_events pf o (p, m)) = true).
    { rewrite app_assoc, forallb_app, Hclean. by destruct m. }
    rewrite Eq, forallb_app in Hno. cbn in Hno. by rewrite andb_false_r in Hno.
Qed.

Example a_name_that_cannot_be_printed :
  fst (move_existing_images unprintable (fresh unprintable "C:\")) =
    Raise (Exception "'utf-8' codec can't encode character") /\
  rename_attempts (log (snd (move_existing_images unprintable (fresh unprintable "C:\")))) =
    [(legacy_a, source_a)].
Proof. split; vm_compute; reflexivity. Qed.

(** X5.  Generating a source a second time writes no new file and leaves
    every file as the first run left it, but records the paths of the
    source once more: [processed_files] then holds them twice. *)
Theorem rerun_overwrites_and_recounts env image_path st st1 st2 :
  optimize_image env image_path st = (Ok true, st1) ->
  optimize_image env image_path st1 = (Ok true, st2) ->
  let paths :=
    artifact_paths (platform env) (optimized_folder (self st))
      (path_stem (platform env) image_path) (sizes_config (self st)) in
  files st2 = files st1 /\
  processed_files (self st2) = processed_files (self st) ++ paths ++ paths.
Proof.
  intros H1 H2 paths.
  destruct (optimize_image_closed env image_path st) as (o1 & _ & R1 & S1 & _).
  destruct (optimize_image_closed env image_path st1) as (o2 & _ & R2 & S2 & _).
  rewrite H1 in R1, S1. rewrite H2 in R2, S2. cbn [fst snd] in *.
  assert (E1 : exists sz, o1 = Tried sz Completed).
  { destruct o1 as [e|sz [e|e|done item rest step e|]|sz e]; try discriminate R1. by eexists. }
  assert (E2 : exists sz, o2 = Tried sz Completed).
  { destruct o2 as [e|sz [e|e|done item rest step e|]|sz e]; try discriminate R2. by eexists. }
  destruct E1 as [sz1 ->]. destruct E2 as [sz2 ->].
  destruct (config_after_optimize env image_path (Tried sz1 Completed) st)
    as (_ & _ & Hroot & Hcat).
  rewrite <- S1 in Hroot, Hcat.
  split.
  - rewrite S2, files_after_completed, Hroot, Hcat.
    rewrite S1 at 1 2. rewrite files_after_completed. apply written_twice.
  - rewrite S2, self_after_optimize. cbn [processed_files with_processed_files completed].
    rewrite Hroot, Hcat. rewrite S1 at 1. rewrite self_after_optimize.
    cbn [processed_files with_processed_files completed].
    by rewrite <- app_assoc.
Qed.

Lemma rerun_overwrites_and_recounts_witness :
  files (snd (optimize_image calm source_a
                (snd (optimize_image calm source_a (fresh calm "C:\"))))) =
  files (snd (optimize_image calm source_a (fresh calm "C:\"))) /\
  length (processed_files (self (snd (optimize_image calm source_a
            (snd (optimize_image calm source_a (fresh calm "C:\"))))))) = 12%nat.
Proof.
  assert (F1 : fst (optimize_image calm source_a (fresh calm "C:\")) = Ok true)
    by (vm_compute; reflexivity).
  assert (F2 : fst (optimize_image calm source_a
                      (snd (optimize_image calm source_a (fresh calm "C:\")))) = Ok true)
    by (vm_compute; reflexivity).
  assert (H1 : optimize_image calm source_a (fresh calm "C:\") =
               (Ok true, snd (optimize_image calm source_a (fresh calm "C:\"))))
    by (rewrite <- F1; apply surjective_pairing).
  assert (H2 : optimize_image calm source_a
                 (snd (optimize_image calm source_a (fresh calm "C:\"))) =
               (Ok true, snd (optimize_image calm source_a
                                (snd (optimize_image calm source_a (fresh calm "C:\"))))))
    by (rewrite <- F2; apply surjective_pairing).
  destruct (rerun_overwrites_and_recounts calm source_a _ _ _ H1 H2) as [Hf Hp].
  split; [exact Hf|]. rewrite Hp. reflexivity.
Defined.




(** X7.  [process_all_images] changes neither the working directory nor
    the folders and the catalog of the optimizer; it removes no file and
    only appends to [processed_files].  What it appends is at least the
    full set of artifacts of every generated source and at most that of
    every source taken up. *)
Theorem batch_only_appends env st :
  let res := process_all_images env st in
  let n := length (sizes_config (self st)) in
  cwd (snd res) = cwd st /\
  repo_path (self (snd res)) = repo_path (self st) /\
  original_folder (self (snd res)) = original_folder (self st) /\
  optimized_folder (self (snd res)) = optimized_folder (self st) /\
  sizes_config (self (snd res)) = sizes_config (self st) /\
  exists delta added,
    log (snd res) = log st ++ delta /\
    processed_files (self (snd res)) = processed_files (self st) ++ added /\
    dom (files st) ⊆ dom (files (snd res)) /\
    (2 * n * succeeded_sources delta <= length added)%nat /\
    (length added <= 2 * n * count is_optimizing delta)%nat.
Proof.
  intros res n.
  destruct (process_all_images_closed env st)
    as (F1 & F2 & F3 & F4 & F5 & d & a & L & Pf & D & B1 & B2 & _).
  do 5 (split; [assumption|]). by exists d, a.
Qed.

(** X8.  [process_all_images] opens the sources in the order [glob]
    listed them, each one at most once; when it returns it has opened
    every listed source, also after failures. *)
Theorem batch_follows_the_listing env st :
  let res := process_all_images env st in
  let image_files :=
    glob_result env (length (log st) + 1)%nat
      (os_path_join (platform env) (original_folder (self st)) "*.png") in
  exists delta,
    log (snd res) = log st ++ delta /\
    (exists taken, opened_paths delta = firstn taken image_files) /\
    (forall processed, fst res = Ok processed -> opened_paths delta = image_files).
Proof.
  intros res image_files.
  destruct (process_all_images_closed env st)
    as (_ & _ & _ & _ & _ & d & a & L & _ & _ & _ & _ & _ & O & _ & H).
  exists d. split; [exact L|]. split; [exact O|].
  intros processed E. fold res in H. rewrite E in H. tauto.
Qed.

(** X9.  When [process_all_images] returns, its report is right: every
    listed source is counted once, as generated or as failed; the summary
    line carries the number of generated sources and the number listed;
    the result is [True] exactly when a source was generated.  With an
    empty listing there is no summary line, the result is [False] and
    nothing but the listing was attempted. *)
Theorem batch_report_is_right env st processed :
  let res := process_all_images env st in
  let image_files :=
    glob_result env (length (log st) + 1)%nat
      (os_path_join (platform env) (original_folder (self st)) "*.png") in
  fst res = Ok processed ->
  exists delta,
    log (snd res) = log st ++ delta /\
    processed = (0 <? succeeded_sources delta)%nat /\
    (succeeded_sources delta + failed_sources delta)%nat = length image_files /\
    summary_lines delta =
      match image_files with
      | [] => []
      | _ => [(succeeded_sources delta, length image_files)]
      end /\
    (image_files = [] ->
     processed = false /\
     delta = [Print MsgProcessingStart;
              Call (OpGlob (os_path_join (platform env)
                              (original_folder (self st)) "*.png")) None;
              Print MsgNoImages]).
Proof.
  intros res image_files E.
  destruct (process_all_images_closed env st)
    as (_ & _ & _ & _ & _ & d & a & L & _ & _ & _ & _ & _ & _ & _ & H).
  fold res in H. rewrite E in H. fold image_files in H.
  destruct H as (H1 & _ & H3 & H4 & H5).
  exists d. split; [exact L|]. split; [exact H1|]. split; [exact H3|].
  split; [exact H4|]. intros Hnil. specialize (H5 Hnil). split; [|exact H5].
  rewrite H1, H5. reflexivity.
Qed.

Lemma batch_report_is_right_witness :
  fst (process_all_images corrupt (fresh corrupt "C:\")) = Ok true /\
  exists delta,
    log (snd (process_all_images corrupt (fresh corrupt "C:\"))) = [] ++ delta /\
    summary_lines delta = [(1%nat, 2%nat)].
Proof.
  assert (E : fst (process_all_images corrupt (fresh corrupt "C:\")) = Ok true)
    by (vm_compute; reflexivity).
  split; [exact E|].
  destruct (batch_report_is_right corrupt (fresh corrupt "C:\") true E)
    as (delta & L & _ & _ & _ & _).
  exists delta. split; [exact L|].
  assert (L' : delta = log (snd (process_all_images corrupt (fresh corrupt "C:\"))))
    by (symmetry; exact L).
  rewrite L'. vm_compute. reflexivity.
Defined.

(** X10.  A source that cannot be opened or converted leaves no trace
    but its lines in the log: no file is written, nothing is recorded,
    and [optimize_image] returns [False]. *)
Theorem undecodable_source_writes_nothing env image_path st :
  let res := optimize_image env image_path st in
  exists delta,
    log (snd res) = log st ++ delta /\
    forall op e,
      In (Call op (Some e)) delta ->
      (op = OpImageOpen image_path \/ exists im m, op = OpConvert im m) ->
      fst res = Ok false /\
      snd res = add_log delta st /\
      saved_paths delta = [].
Proof.
  intros res.
  destruct (optimize_image_closed env image_path st) as (out & Hp & Hres & Hst & Hlog).
  fold res in Hres, Hst, Hlog.
  eexists. split; [exact Hlog|].
  intros op e Hin Hop. rewrite Hres, Hst.
  destruct out as [e'|sz [e'|e'|done item rest step e'|]|sz e'].
  - destruct Hin as [H|[]]. injection H as <- _.
    destruct Hop as [H|(im & m & H)]; discriminate H.
  - split; [reflexivity|]. split; [|reflexivity].
    cbn [after_optimize try_result after_try optimize_events try_events].
    by rewrite !add_log_app.
  - split; [reflexivity|]. split; [|reflexivity].
    cbn [after_optimize try_result after_try optimize_events try_events].
    by rewrite !add_log_app.
  - exfalso. cbn [optimize_events try_events try_result] in Hin.
    apply in_app_or in Hin as [Hin|Hin].
    { destruct Hin as [H|[H|[]]]; discriminate H. }
    apply in_app_or in Hin as [Hin|Hin].
    2:{ destruct Hin as [H|[]]. discriminate H. }
    destruct Hin as [H|Hin]; [discriminate H|].
    apply in_app_or in Hin as [Hin|Hin].
    { apply in_convert_events in Hin as [_ H]. discriminate H. }
    apply in_app_or in Hin as [Hin|Hin].
    { by apply (quiet_not_raised _ op e
                  (quiet_sizes_events env image_path (optimized_folder (self st)) done)). }
    apply raised_in_size_events in Hin.
    destruct Hop as [-> | (im & m & ->)]; exact Hin.
  - exfalso.
    pose proof (optimize_events_shape env image_path (optimized_folder (self st))
                  (sizes_config (self st)) (Tried sz Completed)) as Hq.
    cbn zeta in Hq. cbn [optimize_result try_result] in Hq.
    exact (quiet_not_raised _ op e Hq Hin).
  - destruct Hin as [H|[H|[]]]; [discriminate H|]. injection H as <- _.
    destruct Hop as [H|(im & m & H)]; discriminate H.
Qed.

(** X11.  [git_commit_and_push] never raises, and stops at the first
    step that fails.  Its five steps are made in order, one at each time
    after the opening line: entering the repository, the two [git add],
    the commit and the push; the first four fail when the call raises
    or, for git, returns a non-zero code under [check=True], the push
    when the call raises.  When a step fails, the steps before it went
    through, it is the last call, the handler prints the line of its
    exception and the answer is [False].  When none fails, all five went
    through and the answer is [True] exactly when the push returned
    code 0; otherwise the last line carries what git wrote. *)
Theorem publish_stops_at_the_first_failure env st :
  let res := git_commit_and_push env st in
  let t := length (log st) in
  let chdir := OpChdir (repo_path (self st)) in
  let add_output := ["git"; "add"; "optimizadas/"] in
  let add_ignore := ["git"; "add"; ".gitignore"] in
  let commit :=
    ["git"; "commit"; "-m"; commit_message (length (processed_files (self st)))] in
  let push := ["git"; "push"] in
  let steps :=
    [(chdir, fault env (t + 1) chdir);
     (OpRun add_output, run_raises env (t + 2) add_output);
     (OpRun add_ignore, run_raises env (t + 3) add_ignore);
     (OpRun commit, run_raises env (t + 4) commit);
     (OpRun push, fault env (t + 5) (OpRun push))] in
  let code := returncode env (t + 5) push in
  exists delta pushed,
    fst res = Ok pushed /\
    log (snd res) = log st ++ delta /\
    (forall done op e rest,
       steps = done ++ (op, Some e) :: rest ->
       Forall (fun step => snd step = None) done ->
       pushed = false /\
       delta = Print MsgPublishStart :: map (fun step => went_through (fst step)) done
               ++ [Call op (Some e); handler_line e]) /\
    (Forall (fun step => snd step = None) steps ->
     pushed = (code =? 0) /\
     delta = Print MsgPublishStart :: map (fun step => went_through (fst step)) steps
             ++ [Print (if code =? 0 then MsgPushOk
                        else MsgPushError (stderr env (t + 5) push))]).
Proof.
  intros res t chdir add_output add_ignore commit push steps code.
  destruct (git_commit_and_push_caused env st) as (out & Hc & Hrun).
  fold t in Hc. unfold publish_caused in Hc.
  fold chdir add_output add_ignore commit push code in Hc.
  exists (publish_events (self st) out), (publish_result out).
  split; [unfold res; by rewrite Hrun|].
  split; [unfold res; by rewrite Hrun|]. clear Hrun.
  assert (Hsome : forall (op : Op) (e : exn), snd (op, Some e) = None -> False)
    by (intros op e H; discriminate H).
  destruct out as [[] e|err|]; unfold publish_events; cbn [publish_result];
    fold chdir add_output add_ignore commit push;
    repeat match goal with
           | H : _ /\ _ |- _ => destruct H as [? H]
           end;
    subst steps;
    repeat match goal with
           | H : fault _ _ _ = _ |- _ => rewrite H; clear H
           | H : run_raises _ _ _ = _ |- _ => rewrite H; clear H
           end.
  all: split;
    [ intros done op e' rest E Hdone;
      destruct done as [|d0 [|d1 [|d2 [|d3 [|d4 [|d5 done]]]]]];
      cbn [app] in E; try discriminate E; simplify_eq;
      repeat match goal with
             | H : Forall _ (_ :: _) |- _ => inversion H; clear H; subst
             end;
      try (exfalso; eapply Hsome; eassumption);
      try discriminate; by split
    | intros Hall;
      repeat match goal with
             | H : Forall _ (_ :: _) |- _ => inversion H; clear H; subst
             end;
      try (exfalso; eapply Hsome; eassumption);
      try discriminate ].
  - match goal with H : code <> 0 |- _ => apply Z.eqb_neq in H; rewrite H end.
    by split.
  - match goal with H : code = 0 |- _ => rewrite H end. by split.
Qed.

Example a_rejected_push_is_reported :
  log (snd (git_commit_and_push push_rejected (fresh push_rejected "C:\"))) =
    [Print MsgPublishStart;
     Call (OpChdir main_repo_path) None;
     Call (OpRun ["git"; "add"; "optimizadas/"]) None;
     Call (OpRun ["git"; "add"; ".gitignore"]) None;
     Call (OpRun ["git"; "commit"; "-m"; commit_message 0]) None;
     Call (OpRun ["git"; "push"]) None;
     Print (MsgPushError "rejected")] /\
  fst (git_commit_and_push push_rejected (fresh push_rejected "C:\")) = Ok false.
Proof. split; vm_compute; reflexivity. Qed.

(** X12.  In a run of [run_full_optimization], every artifact is saved
    under a profile folder of the catalog, and only after
    [setup_git_structure] created that folder and wrote [.gitignore]:
    a failure of the setup leaves no artifact behind. *)
Theorem artifacts_are_written_after_setup env st :
  let res := run_full_optimization env st in
  let pf := platform env in
  let o := self st in
  exists delta,
    log (snd res) = log st ++ delta /\
    forall pre im path fmt q r post,
      delta = pre ++ Call (OpSave im path fmt q) r :: post ->
      exists size stem_ enc,
        In size (map fst (sizes_config o)) /\
        path = artifact_path pf (optimized_folder o) stem_ size enc /\
        In (Call (OpMakedirs (os_path_join pf (optimized_folder o) size)) None) pre /\
        In (Call (OpWriteText (os_path_join pf (repo_path o) ".gitignore")
                    gitignore_content) None) pre.
Proof.
  intros res pf o.
  assert (Hk : forall l, forallb housekeeping l = true ->
                         forallb (fun ev => negb (is_save ev)) l = true).
  { intros l. apply forallb_weaken. by intros [[] r|m]. }
  destruct (run_full_closed env st)
    as [(done & op & rest & e & Hc & _ & _ & L)
       |(d2 & d3 & d4 & added & L & H2 & H3 & _ & _ & _ & _ & _ & Sv & H4)];
    fold res pf o in L; eexists; (split; [exact L|]);
    intros pre im path fmt q r post E.
  - exfalso.
    assert (Hin : In (Call (OpSave im path fmt q) r)
                    (Print (MsgBanner (repo_path o)) :: Print MsgSetupStart
                       :: map went_through done ++ [Call op (Some e)])).
    { rewrite E. apply in_elt. }
    destruct Hin as [H|[H|Hin]]; [discriminate H | discriminate H |].
    assert (Hd : forallb housekeeping (map went_through (done ++ [op])) = true).
    { apply (housekeeping_setup pf o _ rest). by rewrite <- app_assoc. }
    rewrite map_app, forallb_app in Hd. apply andb_true_iff in Hd as [Hd Hop].
    apply in_app_or in Hin as [Hin|[Hin|[]]].
    + by apply (all_not_in _ _ _ Hd) in Hin.
    + injection Hin as -> _. discriminate Hop.
  - rewrite app_assoc in E.
    apply (split_after_prefix is_save) in E as (pre' & -> & E); [| |reflexivity].
    2:{ rewrite forallb_app, (Hk d2 H2), andb_true_r.
        cbn [forallb is_save negb andb]. rewrite forallb_app.
        cbn [forallb is_save negb andb]. rewrite andb_true_r.
        apply Hk. apply (housekeeping_setup pf o _ []). by rewrite app_nil_r. }
    assert (Hin : In (Call (OpSave im path fmt q) r) (d3 ++ d4)).
    { rewrite E. apply in_elt. }
    apply in_app_or in Hin as [Hin|Hin].
    2:{ exfalso. revert Hin. apply all_not_in with (P := fun ev => negb (is_save ev));
          [|reflexivity].
        destruct H4 as [(e & _ & ->)|[(_ & _ & ->)|(_ & _ & out & ->)]]; try reflexivity.
        rewrite forallb_app.
        match goal with |- context [publish_events ?o' out] =>
          destruct (publish_lines o' out) as (_ & _ & _ & _ & _ & _ & ->) end.
        by destruct (publish_result out). }
    destruct (Sv im path fmt q r Hin) as (item & stem_ & enc & Hitem & ->).
    exists (fst item), stem_, enc.
    split; [exact (in_map fst _ _ Hitem)|]. split; [reflexivity|].
    split; apply in_or_app; left; apply in_or_app; left;
      right; right; apply in_or_app; left.
    + apply (in_map went_through _
               (OpMakedirs (os_path_join pf (optimized_folder o) (fst item)))).
      unfold setup_calls. right. apply in_or_app. left.
      apply (in_map (fun size => OpMakedirs (os_path_join pf (optimized_folder o) size))).
      exact (in_map fst _ _ Hitem).
    + apply (in_map went_through _
               (OpWriteText (os_path_join pf (repo_path o) ".gitignore")
                  gitignore_content)).
      unfold setup_calls. right. apply in_or_app. right. by left.
Qed.

(** X13.  What [run_full_optimization] reports at its end.  The new
    URLs are announced whenever the publication was entered, whether or
    not the push went through; the run is called complete exactly when
    the push went through; and the line that nothing could be processed
    closes exactly the runs that return without publishing. *)
Theorem urls_are_announced_after_any_publication env st :
  let res := run_full_optimization env st in
  exists delta,
    log (snd res) = log st ++ delta /\
    (In (Print MsgUrlsInfo) delta <-> publish_invoked delta = true) /\
    (In (Print MsgCompleted) delta <-> In (Print MsgPushOk) delta) /\
    (In (Print MsgNotUploaded) delta <->
       publish_invoked delta = true /\ ~ In (Print MsgPushOk) delta) /\
    (In (Print MsgCannotProcess) delta <->
       publish_invoked delta = false /\ fst res = Ok tt) /\
    (publish_invoked delta = true ->
     fst res = Ok tt /\
     exists pre, delta = pre ++ [Print MsgUrlsInfo; Print MsgTotalTime]).
Proof.
  intros res.
  pose proof (run_full_closed env st) as H. cbn zeta in H. fold res in H.
  set (o := self st) in *. set (pf := platform env) in *.
  assert (Hbody : exists body d4,
            log (snd res) = log st ++ body ++ d4 /\
            (forall ev, housekeeping ev = false -> generation ev = false ->
                        ev <> Print (MsgBanner (repo_path o)) -> ~ In ev body) /\
            ((exists e, fst res = Raise e /\ d4 = []) \/
             (fst res = Ok tt /\ d4 = [Print MsgCannotProcess]) \/
             (fst res = Ok tt /\
              exists out,
                d4 = publish_events (self (snd res)) out
                     ++ closing_lines (publish_result out)))).
  { destruct H as [(done & op & rest & e & Hc & Hres & _ & L)
                  |(d2 & d3 & d4 & added & L & H2 & H3 & _ & _ & _ & _ & _ & _ & H4)].
    - eexists _, []. rewrite app_nil_r. split; [exact L|]. split; [|left; by exists e].
      intros ev Hh _ Hb [Hin|[Hin|Hin]]; [by apply Hb | by rewrite <- Hin in Hh |].
      assert (Hd : forallb housekeeping (map went_through (done ++ [op])) = true).
      { apply (housekeeping_setup pf o _ rest). by rewrite <- app_assoc. }
      rewrite map_app, forallb_app in Hd. apply andb_true_iff in Hd as [Hd Hop].
      apply in_app_or in Hin as [Hin|[Hin|[]]].
      + by apply (all_not_in _ _ _ Hd) in Hin.
      + rewrite <- Hin, housekeeping_raised in Hh. cbn [map forallb] in Hop.
        rewrite Hh in Hop. discriminate Hop.
    - exists ((Print (MsgBanner (repo_path o)) :: Print MsgSetupStart
                 :: map went_through (setup_calls pf o) ++ [Print MsgSetupDone])
              ++ d2 ++ d3), d4.
      split; [by rewrite L, <- !app_assoc|]. split.
      + intros ev Hh Hg Hb Hin.
        apply in_app_or in Hin as [Hin|Hin].
        * destruct Hin as [Hin|[Hin|Hin]]; [by apply Hb | by rewrite <- Hin in Hh |].
          revert Hin. apply all_not_in with (P := housekeeping); [|exact Hh].
          rewrite forallb_app. cbn [forallb housekeeping andb]. rewrite andb_true_r.
          apply (housekeeping_setup pf o _ []). by rewrite app_nil_r.
        * apply in_app_or in Hin as [Hin|Hin];
            [by apply (all_not_in _ _ _ H2) in Hin | by apply (all_not_in _ _ _ H3) in Hin].
      + destruct H4 as [H4|[(Hres & _ & ->)|(Hres & _ & out & ->)]];
          [by left | right; left; by split | right; right; split; [exact Hres | by exists out]]. }
  destruct Hbody as (body & d4 & L & Hb & H4).
  exists (body ++ d4). split; [exact L|].
  assert (B1 : ~ In (Print MsgUrlsInfo) body) by (by apply Hb).
  assert (B2 : ~ In (Print MsgCompleted) body) by (by apply Hb).
  assert (B3 : ~ In (Print MsgPushOk) body) by (by apply Hb).
  assert (B4 : ~ In (Print MsgNotUploaded) body) by (by apply Hb).
  assert (B5 : ~ In (Print MsgCannotProcess) body) by (by apply Hb).
  assert (B6 : ~ In (Print MsgPublishStart) body) by (by apply Hb).
  rewrite !publish_invoked_in, !in_app_iff.
  assert (N : forall b : bool, b = false <-> ~ b = true) by (intros []; split; congruence).
  assert (Hinv : publish_invoked (body ++ d4) = false <-> ~ In (Print MsgPublishStart) d4).
  { rewrite N, publish_invoked_in, in_app_iff. tauto. }
  rewrite Hinv. clear Hinv.
  destruct H4 as [(e & Hres & ->)|[(Hres & ->)|(Hres & out & ->)]].
  - assert (Hd : forall m, In (Print m) [] <-> False) by (intros m; reflexivity).
    rewrite Hres, !Hd. intuition (try discriminate; try congruence).
  - assert (Hd : forall m, In (Print m) [Print MsgCannotProcess] <-> m = MsgCannotProcess).
    { intros m. split; [intros [E|[]]; by injection E | intros ->; by left]. }
    rewrite Hres, !Hd. intuition (try discriminate; try congruence).
  - destruct (publish_lines (self (snd res)) out) as (P0 & P1 & P2 & P3 & P4 & P5 & _).
    assert (C : forall m, In (Print m) (closing_lines (publish_result out)) <->
                (m = MsgUrlsInfo \/ m = MsgTotalTime \/
                 m = if publish_result out then MsgCompleted else MsgNotUploaded)).
    { intros m. unfold closing_lines. cbn [In]. split.
      - intros [E|[E|[E|[]]]]; injection E as <-; tauto.
      - intros [ -> | [ -> | -> ] ]; tauto. }
    rewrite !in_app_iff, !C, P1, Hres.
    split; [|split; [|split; [|split]]].
    1-4: destruct (publish_result out); intuition (try discriminate; try congruence).
    intros _. split; [reflexivity|].
    exists (body ++ publish_events (self (snd res)) out
              ++ [Print (if publish_result out then MsgCompleted else MsgNotUploaded)]).
    unfold closing_lines. by rewrite <- !app_assoc.
Qed.

(** X14.  The number in the message of the commit of a run of [main] is
    the number of artifact paths recorded in that run, whatever the
    optimizer held before: six for each source generated, and at most
    six for each source taken up. *)
Theorem commit_message_counts_this_run env st :
  let res := main env st in
  exists delta,
    log (snd res) = log st ++ delta /\
    forall msg,
      In msg (commit_messages delta) ->
      exists k,
        msg = commit_message k /\
        k = length (processed_files (self (snd res))) /\
        (0 < succeeded_sources delta)%nat /\
        (6 * succeeded_sources delta <= k)%nat /\
        (k <= 6 * count is_optimizing delta)%nat.
Proof.
  intros res. subst res. rewrite main_run. cbn zeta.
  set (git_dir := join env main_repo_path ".git").
  destruct (path_exists env (length (log st)) main_repo_path).
  2:{ eexists. split; [reflexivity|]. intros msg []. }
  destruct (path_exists env (length (log st) + 1)%nat git_dir).
  2:{ eexists. split; [reflexivity|]. intros msg []. }
  set (asked := [Call (OpExists main_repo_path) None; Call (OpExists git_dir) None]).
  set (st' := mkState _ _ _ _).
  assert (Hk : forall l, forallb housekeeping l = true ->
                 commit_messages l = [] /\ count is_optimizing l = 0%nat /\
                 count is_error l = 0%nat).
  { intros l Hl. split; [|split].
    - apply commit_messages_none. revert Hl. apply forallb_weaken. by intros [[] r|[]].
    - apply count_none. revert Hl. apply forallb_weaken. by intros [[] r|[]].
    - apply count_none. revert Hl. apply forallb_weaken. by intros [[] r|[]]. }
  pose proof (run_full_closed env st') as H. cbn zeta in H.
  set (res := run_full_optimization env st') in *.
  change (self st') with (init env main_repo_path) in H.
  change (log st') with (log st ++ asked) in H.
  set (o := init env main_repo_path) in *. set (pf := platform env) in *.
  destruct H as [(done & op & rest & e & Hc & _ & _ & L)
                |(d2 & d3 & d4 & added & L & H2 & H3 & _ & Hp & Lo & Hi & Le & _ & H4)];
    rewrite <- app_assoc in L.
  - eexists. split; [exact L|]. intros msg Hin. exfalso.
    assert (Hd : forallb housekeeping (map went_through (done ++ [op])) = true).
    { apply (housekeeping_setup pf o _ rest). by rewrite <- app_assoc. }
    rewrite map_app, forallb_app in Hd. apply andb_true_iff in Hd as [Hd Hop].
    apply Hk in Hd as (Hd & _).
    change (asked ++ ?b :: ?s :: ?l) with ((asked ++ [b; s]) ++ l) in Hin.
    rewrite !commit_messages_app, Hd in Hin. cbn in Hin.
    destruct op; cbn in Hop; try discriminate Hop; exact Hin.
  - set (pre4 := asked ++ [Print (MsgBanner (repo_path o)); Print MsgSetupStart]).
    assert (L' : log (snd res) =
              log st ++ pre4 ++ map went_through (setup_calls pf o)
                     ++ [Print MsgSetupDone] ++ d2 ++ d3 ++ d4).
    { rewrite L. subst pre4 asked. cbn [app]. by rewrite <- !app_assoc. }
    eexists. split; [exact L'|]. intros msg Hin.
    assert (Hs : forallb housekeeping (map went_through (setup_calls pf o)) = true).
    { apply (housekeeping_setup pf o _ []). by rewrite app_nil_r. }
    apply Hk in Hs as (S1 & S2 & S3). apply Hk in H2 as (M1 & M2 & M3).
    assert (G : commit_messages d3 = []).
    { apply commit_messages_none. revert H3. apply forallb_weaken. by intros [[] r|[]]. }
    unfold succeeded_sources.
    rewrite !commit_messages_app, S1, M1, G in Hin.
    rewrite !count_app, S2, S3, M2, M3.
    change (commit_messages pre4) with (@nil string) in Hin.
    change (commit_messages [Print MsgSetupDone]) with (@nil string) in Hin.
    change (count is_optimizing pre4) with 0%nat.
    change (count is_error pre4) with 0%nat.
    change (count is_optimizing [Print MsgSetupDone]) with 0%nat.
    change (count is_error [Print MsgSetupDone]) with 0%nat.
    cbn [app Nat.add] in Hin |- *.
    destruct H4 as [(e & _ & ->)|[(_ & _ & ->)|(_ & Hpos & out & ->)]];
      [destruct Hin | destruct Hin |].
    rewrite commit_messages_app in Hin.
    apply in_app_or in Hin as [Hin|Hin].
    2:{ exfalso. by destruct (publish_result out). }
    apply commit_messages_publish in Hin.
    destruct (background_publish (self (snd res)) out) as (Q1 & Q2 & _).
    assert (Q3 : count is_optimizing (closing_lines (publish_result out)) = 0%nat /\
                 count is_error (closing_lines (publish_result out)) = 0%nat)
      by (by destruct (publish_result out)).
    destruct Q3 as (Q3 & Q4).
    rewrite !count_app, Q1, Q2, Q3, Q4.
    unfold succeeded_sources in Lo, Hpos.
    exists (length (processed_files (self (snd res)))).
    split; [exact Hin|]. split; [reflexivity|].
    rewrite Hp, length_app. change (length (processed_files o)) with 0%nat.
    change (length (sizes_config o)) with 3%nat in Lo, Hi.
    lia.
Qed.

End Extra.
